(** * WesternMeteorPyLib: simulation batch generation

    A shallow embedding of
      - [wmpl/Utils/PyDomainParallelizer.py]
      - [wmpl/MetSim/ML/GenerateSimulations.py]
    together with the properties of the specification that concern them.

    Conventions.
    - Python exceptions are values of [Py.exc]; a call either returns or
      raises ([Py.outcome]).
    - Observable effects (items pulled from a generator, worker
      invocations submitted to a pool) are threaded through an explicit
      [Process] state.
    - Parameter values and resampled channels are real numbers: the
      arithmetic of the source is read as exact arithmetic.
    - Raw magnitude and height samples are [Np.float64] values, which keep
      numpy's NaN and the two infinities apart from the finite values.
    - The floats that go into a file name are the rational numbers they
      hold, and a float operation gives the double nearest to the exact
      result ([FileNames.binary64]), so that the text can be computed. *)

From Stdlib Require Import List String Ascii ZArith QArith Qround Reals Lra Lia Bool Arith.
From Stdlib Require Lqa.
From stdpp Require Import base gmap strings.
Import ListNotations.

(* ===================================================================== *)
(** * Part I: the embedding *)
(* ===================================================================== *)

(** ** Python outcomes *)

Module Py.

Inductive exc : Set :=
| AttributeError
| UnboundLocalError
| ValueError
| StopIteration
| IndexError
| TypeError
| Exception.

Inductive outcome (X : Type) : Type :=
| Return (x : X)
| Raise (e : exc).

Arguments Return {X} x.
Arguments Raise {X} e.

Definition returned {X : Type} (o : outcome X) : bool :=
  match o with
  | Return _ => true
  | Raise _ => false
  end.

End Py.

(** ** [wmpl/Utils/PyDomainParallelizer.py] *)

Module PyDomainParallelizer.
Import Py.

Section Workers.

(** [A] is the type of one argument tuple, [B] the type of a worker's
    result.  Workers run in separate processes and communicate through
    their return value only, so a worker is a function [A -> B]. *)
Context {A B : Type}.

(** [multiprocessing.cpu_count()] *)
Variable cpu_count : nat.

(** What a caller can observe of a run: how many items were pulled from the
    input generator, and which argument tuples were handed to the worker
    function, in submission order. *)
Record Process : Type := mkProcess {
  drawn : nat;
  calls : list A
}.

Definition invoke (input_list : list A) (w : Process) : Process :=
  {| drawn := drawn w; calls := calls w ++ input_list |}.

(** A computation that reads and updates the [Process] and may raise. *)
Definition Run (X : Type) : Type := Process -> outcome X * Process.

Definition ret {X : Type} (x : X) : Run X := fun w => (Return x, w).

Definition raise {X : Type} (e : exc) : Run X := fun w => (Raise e, w).

Definition bind {X Y : Type} (c : Run X) (k : X -> Run Y) : Run Y :=
  fun w =>
    match c w with
    | (Return x, w') => k x w'
    | (Raise e, w') => (Raise e, w')
    end.

#[local] Instance run_ret : MRet Run := @ret.
#[local] Instance run_bind : MBind Run := fun X Y k c => bind c k.

(** [pool.map(workerFunc, input_list)] and
    [pool.starmap_async(function, domain).get()]: every input is submitted
    once, and the results come back in the order of the inputs. *)
Definition pool_map (workerFunc : A -> B) (input_list : list A) : Run (list B) :=
  fun w => (Return (map workerFunc input_list), invoke input_list w).

(** [multiprocessing.Pool(processes)] refuses a pool of fewer than one
    process. *)
Definition Pool (processes : nat) : Run unit :=
  if processes <? 1 then raise ValueError else ret tt.

(** A generator is the sequence of the items it yields; [None] marks
    exhaustion.  [next(generator)] *)
Definition next (generator : nat -> option A) : Run A :=
  fun w =>
    match generator (drawn w) with
    | Some a => (Return a, {| drawn := S (drawn w); calls := calls w |})
    | None => (Raise StopIteration, w)
    end.

(** [[next(generator) for i in range(n)]] *)
Fixpoint next_n (generator : nat -> option A) (n : nat) : Run (list A) :=
  match n with
  | O => ret []
  | S n' =>
      a ← next generator;
      rest ← next_n generator n';
      mret (a :: rest)
  end.

(** Lines 43-44: the run budget. *)
Definition run_budget (req_num : nat) (max_runs : option nat) : nat :=
  match max_runs with
  | None => 10 * req_num
  | Some m => m
  end.

(** Lines 36-37 and 149-150. *)
Definition default_procs (n_proc : option nat) : nat :=
  match n_proc with
  | None => cpu_count
  | Some n => n
  end.

(** Lines 70-86, the [while] loop.  [fuel] bounds the number of rounds;
    [None] means the bound was reached before the loop ended. *)
Fixpoint accumulate (fuel : nat) (generator : nat -> option A)
    (workerFunc : A -> B) (resultsCheckFunc : list B -> list B)
    (req_num n_proc max_runs : nat)
    (results : list B) (total_runs : nat) : Process -> option (outcome (list B) * Process) :=
  fun w =>
    if length results <? req_num then
      match fuel with
      | O => None
      | S fuel' =>
          match next_n generator n_proc w with
          | (Raise e, w1) => Some (Raise e, w1)
          | (Return input_list, w1) =>
              match pool_map workerFunc input_list w1 with
              | (Raise e, w2) => Some (Raise e, w2)
              | (Return results_temp, w2) =>
                  let total_runs := total_runs + length input_list in
                  let results := results ++ resultsCheckFunc results_temp in
                  if max_runs <=? total_runs then Some (Return results, w2)
                  else accumulate fuel' generator workerFunc resultsCheckFunc
                         req_num n_proc max_runs results total_runs w2
              end
          end
      end
    else Some (Return results, w).

(** Lines 88-90. *)
Definition truncate (req_num : nat) (results : list B) : list B :=
  if req_num <? length results then firstn req_num results else results.

(** Lines 10-92.  The keyword arguments of [resultsCheckFunc] are part of
    the function passed in. *)
Definition parallelComputeGenerator (generator : nat -> option A)
    (workerFunc : A -> B) (resultsCheckFunc : list B -> list B)
    (req_num : nat) (n_proc max_runs : option nat)
  : Process -> option (outcome (list B) * Process) :=
  fun w =>
    let n_proc := default_procs n_proc in
    let max_runs := run_budget req_num max_runs in
    match Pool n_proc w with
    | (Raise e, w0) => Some (Raise e, w0)
    | (Return _, w0) =>
        match next_n generator req_num w0 with
        | (Raise e, w1) => Some (Raise e, w1)
        | (Return input_list, w1) =>
            match pool_map workerFunc input_list w1 with
            | (Raise e, w2) => Some (Raise e, w2)
            | (Return results, w2) =>
                let total_runs := 0 + length input_list in
                let results := resultsCheckFunc results in
                if length results =? 0 then Some (Return results, w2)
                else
                  match accumulate (S max_runs) generator workerFunc
                          resultsCheckFunc req_num n_proc max_runs
                          results total_runs w2 with
                  | None => None
                  | Some (Raise e, w3) => Some (Raise e, w3)
                  | Some (Return results, w3) =>
                      Some (Return (truncate req_num results), w3)
                  end
            end
        end
    end.

(** The rounds as the specification describes them: "repeats in
    increments of [worker_count] new inputs per round, accumulating
    filtered results".  [inputs] lists the items the generator yields, in
    order; every round takes the next [n_proc] of them. *)
Fixpoint later_rounds (workerFunc : A -> B) (resultsCheckFunc : list B -> list B)
    (n_proc k : nat) (inputs : list A) : list B :=
  match k with
  | O => []
  | S k' =>
      resultsCheckFunc (map workerFunc (firstn n_proc inputs))
      ++ later_rounds workerFunc resultsCheckFunc n_proc k' (skipn n_proc inputs)
  end.

(** The good results after the initial batch of [req_num] inputs and [k]
    later rounds. *)
Definition accumulated (workerFunc : A -> B) (resultsCheckFunc : list B -> list B)
    (req_num n_proc k : nat) (inputs : list A) : list B :=
  resultsCheckFunc (map workerFunc (firstn req_num inputs))
  ++ later_rounds workerFunc resultsCheckFunc n_proc k (skipn req_num inputs).

(** What the name [results] is bound to when line 172 is reached. *)
Inductive binding : Type :=
| Unbound
| ListObject (l : list B)
| AsyncResult (l : list B).

(** [results.get()] *)
Definition get (results : binding) : Run (list B) :=
  match results with
  | Unbound => raise UnboundLocalError
  | ListObject _ => raise AttributeError
  | AsyncResult l => ret l
  end.

(** Lines 154-155: each iteration calls the function and rebinds
    [results] to a fresh one-element list. *)
Definition one_core_step (function : A -> B)
    (st : binding * Process) (args : A) : binding * Process :=
  (ListObject [function args], invoke [args] (snd st)).

(** Lines 107-172.  [function] already carries [kwarg_dict]; [display] only
    prints. *)
Definition domainParallelizer (domain : list A) (function : A -> B)
    (cores : option nat) : Run (list B) :=
  fun w =>
    let cores := default_procs cores in
    if cores =? 1 then
      let '(results, w1) := fold_left (one_core_step function) domain (Unbound, w) in
      get results w1
    else if 1 <? cores then
      match pool_map function domain w with
      | (Return l, w1) => get (AsyncResult l) w1
      | (Raise e, w1) => (Raise e, w1)
      end
    else raise ValueError w.

End Workers.

Arguments Process A : clear implicits.
Arguments mkProcess {A} drawn calls.

End PyDomainParallelizer.

(** ** [wmpl/MetSim/ML/GenerateSimulations.py]: parameters *)

Module GenerateSimulations.
Import Py.

#[local] Open Scope R_scope.

#[global] Instance Rlt_decision (x y : R) : Decision (x < y) := Rlt_dec x y.
#[global] Instance Rle_decision (x y : R) : Decision (x <= y) := Rle_dec x y.

(** [np.log10], [10 ** y] and [np.radians] *)
Definition log10 (x : R) : R := ln x / ln 10.
Definition pow10 (y : R) : R := Rpower 10 y.
Definition radians (deg : R) : R := deg * PI / 180.

(** *** [class MetParam] (lines 40-99)

    A parameter that is linked to another one keeps a reference to that
    object.  The parameters of a [PhysicalParameters] object live in its
    attribute dictionary; the reference is kept as the attribute name, and
    is resolved in the dictionary of the owner at the time of use. *)
Record MetParam : Type := mkMetParam {
  min : R;
  max : R;
  val : option R;
  fixed : bool;
  method : string;
  link_method : option string * option string
}.

Definition with_val (v : option R) (self : MetParam) : MetParam :=
  {| min := min self; max := max self; val := v; fixed := fixed self;
     method := method self; link_method := link_method self |}.

Definition with_fixed (b : bool) (self : MetParam) : MetParam :=
  {| min := min self; max := max self; val := val self; fixed := b;
     method := method self; link_method := link_method self |}.

(** [MetParam.__init__] (lines 41-62) *)
Definition MetParam_init (param_min param_max : R) (gen_method : string)
    (default : option R) (fixed : bool) : outcome MetParam :=
  match fixed, default with
  | true, None => Raise Exception
  | _, _ => Return {| min := param_min; max := param_max; val := default;
                      fixed := fixed; method := gen_method;
                      link_method := (None, None) |}
  end.

(** [MetParam.linkParam] (lines 87-96) *)
Definition linkParam (param : string) (link : option string) (self : MetParam)
  : MetParam :=
  {| min := min self; max := max self; val := val self; fixed := fixed self;
     method := method self; link_method := (link, Some param) |}.

(** [getattr(self, name)] on the attribute dictionary of an object. *)
Definition getattr {V : Type} (attrs : gmap string V) (name : string) : outcome V :=
  match attrs !! name with
  | Some v => Return v
  | None => Raise AttributeError
  end.

(** [self.link_method[1].val] as an operand of [max] or [min]. *)
Definition linked_val (attrs : gmap string MetParam) (self : MetParam) : outcome R :=
  match snd (link_method self) with
  | None => Raise AttributeError
  | Some name =>
      match getattr attrs name with
      | Raise e => Raise e
      | Return linked =>
          match val linked with
          | None => Raise TypeError
          | Some v => Return v
          end
      end
  end.

Definition link_is (relation : string) (self : MetParam) : bool :=
  match fst (link_method self) with
  | Some m => String.eqb m relation
  | None => false
  end.

(** Lines 71-77: the bounds of the draw. *)
Definition draw_bounds (attrs : gmap string MetParam) (self : MetParam)
  : outcome (R * R) :=
  if link_is "greater" self then
    match linked_val attrs self with
    | Return v => Return (Rmax v (min self), max self)
    | Raise e => Raise e
    end
  else if link_is "less" self then
    match linked_val attrs self with
    | Return v => Return (min self, Rmin (max self) v)
    | Raise e => Raise e
    end
  else Return (min self, max self).

Section Sampling.

(** [np.random.RandomState]: the state of a generator, how it is seeded, and
    [local_state.uniform(low, high)]. *)
Variable RandomState : Type.
Variable seed_state : option Z -> RandomState.
Variable uniform : RandomState -> R -> R -> R * RandomState.

(** [MetParam.generateVal] (lines 64-85).  The parameter as it is after
    the call is returned with the generator state; its [val] is the value
    the method returns. *)
Definition generateVal (attrs : gmap string MetParam) (self : MetParam)
    (local_state : RandomState) : outcome (MetParam * RandomState) :=
  if fixed self then Return (self, local_state)
  else
    match draw_bounds attrs self with
    | Raise e => Raise e
    | Return (_min, _max) =>
        if String.eqb (method self) "uniform" then
          let (u, local_state) := uniform local_state _min _max in
          Return (with_val (Some u) self, local_state)
        else if String.eqb (method self) "log10" then
          let (u, local_state) := uniform local_state (log10 _min) (log10 _max) in
          Return (with_val (Some (pow10 u)) self, local_state)
        else Return (self, local_state)
    end.

(** *** [class PhysicalParameters] (lines 107-246) *)
Record PhysicalParameters : Type := mkPhysicalParameters {
  jdt_ref : R;
  dens_co : list R;
  P_0M : R;
  param_list : list string;
  attrs : gmap string MetParam
}.

Definition setattr (name : string) (p : MetParam) (self : PhysicalParameters)
  : PhysicalParameters :=
  {| jdt_ref := jdt_ref self; dens_co := dens_co self; P_0M := P_0M self;
     param_list := param_list self; attrs := <[name := p]> (attrs self) |}.

(** Declares one parameter: binds the attribute and appends its name. *)
Definition declare (name : string) (p : MetParam) (self : PhysicalParameters)
  : PhysicalParameters :=
  {| jdt_ref := jdt_ref self; dens_co := dens_co self; P_0M := P_0M self;
     param_list := param_list self ++ [name];
     attrs := <[name := p]> (attrs self) |}.

Definition plain (param_min param_max : R) (gen_method : string) (default : R)
  : MetParam :=
  {| min := param_min; max := param_max; val := Some default; fixed := false;
     method := gen_method; link_method := (None, None) |}.

(** [PhysicalParameters.__init__] (lines 108-168).  The reference time
    [J2000_JD.days] and the atmosphere polynomial fitted by [fitAtmPoly] come
    from modules outside this file and are taken as given. *)
Definition PhysicalParameters_init (J2000_JD_days : R) (fitted_dens_co : list R)
  : PhysicalParameters :=
  let self := {| jdt_ref := J2000_JD_days; dens_co := fitted_dens_co;
                 P_0M := 840; param_list := []; attrs := ∅ |} in
  let self := declare "m_init" (plain (5 / 10^7) (1 / 10^3) "log10" (24671 / 10^10)) self in
  let self := declare "v_init" (plain 11000 72000 "uniform" 30520) self in
  let self := declare "zenith_angle"
                (plain (radians 20) (radians 80) "uniform" (radians (392 / 10))) self in
  let self := declare "rho" (plain 100 3500 "uniform" 2000) self in
  let self := declare "sigma"
                (plain (5 / 1000 / 10^6) (3 / 10 / 10^6) "uniform" (5 / 100 / 10^6)) self in
  let self := declare "erosion_height_start" (plain 70000 130000 "uniform" 70000) self in
  let self := declare "erosion_coeff" (plain 0 (1 / 10^6) "uniform" 0) self in
  let self := declare "erosion_mass_index" (plain (15 / 10) 3 "uniform" 2) self in
  let self := declare "erosion_mass_min"
                (plain (1 / 10^12) (1 / 10^9) "log10" (1 / 10^12)) self in
  let self := declare "erosion_mass_max"
                (linkParam "erosion_mass_min" (Some "greater")
                   (plain (1 / 10^11) (1 / 10^7) "log10" (1 / 10^10))) self in
  self.

(** [setParamValues] (lines 170-172) *)
Fixpoint setParamValues_loop (pairs : list (R * string)) (self : PhysicalParameters)
  : outcome PhysicalParameters :=
  match pairs with
  | [] => Return self
  | (v, param) :: rest =>
      match getattr (attrs self) param with
      | Raise e => Raise e
      | Return p => setParamValues_loop rest (setattr param (with_val (Some v) p) self)
      end
  end.

Definition setParamValues (vals : list R) (self : PhysicalParameters)
  : outcome PhysicalParameters :=
  setParamValues_loop (combine vals (param_list self)) self.

(** [getInputs] (lines 174-175) *)
Fixpoint getInputs_loop (attrs : gmap string MetParam) (names : list string)
  : outcome (list (option R)) :=
  match names with
  | [] => Return []
  | param_name :: rest =>
      match getattr attrs param_name with
      | Raise e => Raise e
      | Return p =>
          match getInputs_loop attrs rest with
          | Raise e => Raise e
          | Return vs => Return (val p :: vs)
          end
      end
  end.

Definition getInputs (self : PhysicalParameters) : outcome (list (option R)) :=
  getInputs_loop (attrs self) (param_list self).

(** Lines 188-191; arithmetic on [None] is a [TypeError]. *)
Definition normalize_param (p : MetParam) : outcome R :=
  match val p with
  | None => Raise TypeError
  | Some v =>
      if String.eqb (method p) "log10"
      then Return ((log10 v - log10 (min p)) / (log10 (max p) - log10 (min p)))
      else Return ((v - min p) / (max p - min p))
  end.

(** [getNormalizedInputs] (lines 177-195) *)
Fixpoint getNormalizedInputs_loop (attrs : gmap string MetParam)
    (names : list string) : outcome (list R) :=
  match names with
  | [] => Return []
  | param_name :: rest =>
      match getattr attrs param_name with
      | Raise e => Raise e
      | Return p =>
          match normalize_param p with
          | Raise e => Raise e
          | Return val_normed =>
              match getNormalizedInputs_loop attrs rest with
              | Raise e => Raise e
              | Return normalized_values => Return (val_normed :: normalized_values)
              end
          end
      end
  end.

Definition getNormalizedInputs (self : PhysicalParameters) : outcome (list R) :=
  getNormalizedInputs_loop (attrs self) (param_list self).

(** Lines 205-208. *)
Definition denormalize_param (p : MetParam) (norm_val : R) : R :=
  if String.eqb (method p) "log10"
  then min p * pow10 (norm_val * (log10 (max p) - log10 (min p)))
  else norm_val * (max p - min p) + min p.

(** [getDenormalizedInputs] (lines 197-212) *)
Fixpoint getDenormalizedInputs_loop (attrs : gmap string MetParam)
    (pairs : list (R * string)) : outcome (list R) :=
  match pairs with
  | [] => Return []
  | (norm_val, param_name) :: rest =>
      match getattr attrs param_name with
      | Raise e => Raise e
      | Return p =>
          match getDenormalizedInputs_loop attrs rest with
          | Raise e => Raise e
          | Return denormalized_values =>
              Return (denormalize_param p norm_val :: denormalized_values)
          end
      end
  end.

Definition getDenormalizedInputs (self : PhysicalParameters)
    (norm_val_list : list R) : outcome (list R) :=
  getDenormalizedInputs_loop (attrs self) (combine norm_val_list (param_list self)).

(** The simulation constants that [getConst] fills in.  [assigned] holds the
    attributes set by name at line 245. *)
Record Constants : Type := mkConstants {
  const_dens_co : list R;
  const_P_0m : R;
  lum_eff_type : Z;
  erosion_on : bool;
  erosion_height_change : R;
  disruption_on : bool;
  assigned : gmap string (option R)
}.

Definition assign (name : string) (v : option R) (const : Constants) : Constants :=
  {| const_dens_co := const_dens_co const; const_P_0m := const_P_0m const;
     lum_eff_type := lum_eff_type const; erosion_on := erosion_on const;
     erosion_height_change := erosion_height_change const;
     disruption_on := disruption_on const;
     assigned := <[name := v]> (assigned const) |}.

(** Lines 216-228. *)
Definition new_constants (self : PhysicalParameters) (erosion : bool) : Constants :=
  {| const_dens_co := dens_co self; const_P_0m := P_0M self;
     lum_eff_type := 0; erosion_on := erosion;
     erosion_height_change := 0; disruption_on := false;
     assigned := ∅ |}.

(** Line 241: [p.val is None or override or p.val > p.max or p.val < p.min] *)
Definition needs_draw (override : bool) (p : MetParam) : bool :=
  match val p with
  | None => true
  | Some v => override || bool_decide (v > max p) || bool_decide (v < min p)
  end.

(** Lines 236-245, the loop over [self.param_list]. *)
Fixpoint sample_params (override : bool) (names : list string)
    (self : PhysicalParameters) (local_state : RandomState) (const : Constants)
  : outcome (PhysicalParameters * RandomState * Constants) :=
  match names with
  | [] => Return (self, local_state, const)
  | param_name :: rest =>
      match getattr (attrs self) param_name with
      | Raise e => Raise e
      | Return p =>
          if needs_draw override p then
            match generateVal (attrs self) p local_state with
            | Raise e => Raise e
            | Return (p, local_state) =>
                sample_params override rest (setattr param_name p self)
                  local_state (assign param_name (val p) const)
            end
          else
            sample_params override rest self local_state
              (assign param_name (val p) const)
      end
  end.

(** [getConst] (lines 214-246).  The object is returned as the call leaves
    it, next to the constants. *)
Definition getConst (self : PhysicalParameters) (random_seed : option Z)
    (override erosion : bool) : outcome (PhysicalParameters * Constants) :=
  let const := new_constants self erosion in
  let local_state := seed_state random_seed in
  match sample_params override (param_list self) self local_state const with
  | Raise e => Raise e
  | Return (self, _, const) => Return (self, const)
  end.

(** Lines 455-457: the mask of fixed parameters. *)
Fixpoint set_fixed (names : list string) (mask : list bool)
    (self : PhysicalParameters) : outcome PhysicalParameters :=
  match names with
  | [] => Return self
  | p :: names =>
      match mask with
      | [] => Raise IndexError
      | b :: mask =>
          match getattr (attrs self) p with
          | Raise e => Raise e
          | Return param => set_fixed names mask (setattr p (with_fixed b param) self)
          end
      end
  end.

(** [ErosionSimContainer.__init__], lines 453-459: the parameter set and
    the constants of a fresh container.  (The file name built at lines
    462-471 is the subject of [FileName] below.) *)
Definition ErosionSimContainer_init (J2000_JD_days : R) (fitted_dens_co : list R)
    (random_seed : option Z) (fixed : option (list bool))
  : outcome (PhysicalParameters * Constants) :=
  let params := PhysicalParameters_init J2000_JD_days fitted_dens_co in
  match
    match fixed with
    | None => Return params
    | Some mask => set_fixed (param_list params) mask params
    end
  with
  | Raise e => Raise e
  | Return params => getConst params random_seed true true
  end.

End Sampling.

(** A generator whose unit sample is always [u]: [uniform(low, high)] is
    [low + (high - low) * u], as numpy computes it. *)
Definition uniform_at (u : R) (local_state : unit) (low high : R) : R * unit :=
  (low + (high - low) * u, local_state).

(** *** Camera profiles (lines 249-443) *)

Definition DATA_LENGTH : Z := 256.

Record ErosionSimParameters : Type := mkErosionSimParameters {
  starting_lim_mag : MetParam;
  ending_lim_mag : MetParam;
  peak_mag_faintest : R;
  fps : R;
  len_delay : MetParam;
  sim_height : MetParam;
  visibility_time_min : R;
  mag_noise : R;
  len_noise : R;
  data_length : Z;
  ht_min : R;
  ht_max : R;
  max_duration : R;
  mag_faintest : R;
  mag_brightest : R
}.

Definition camera_param (param_min param_max : R) (default : option R) : MetParam :=
  {| min := param_min; max := param_max; val := default; fixed := false;
     method := "uniform"; link_method := (None, None) |}.

(** [ErosionSimParameters.__init__] (lines 250-309) *)
Definition ErosionSimParameters_init : ErosionSimParameters :=
  let fps := 100 in
  {| starting_lim_mag := camera_param 5 10 (Some 8);
     ending_lim_mag := camera_param 5 10 (Some 8);
     peak_mag_faintest := 6;
     fps := fps;
     len_delay := camera_param (8 / fps) (15 / fps) (Some (15 / fps));
     sim_height := camera_param 70000 130000 None;
     visibility_time_min := 2 / 10;
     mag_noise := 1 / 10;
     len_noise := 1;
     data_length := DATA_LENGTH;
     ht_min := 70000;
     ht_max := 130000;
     max_duration := 10;
     mag_faintest := 8;
     mag_brightest := -2 |}.

(** [ErosionSimParametersCAMO.__init__] (lines 313-372): the base profile
    with some attributes assigned again; [max_duration] is inherited. *)
Definition ErosionSimParametersCAMO_init : ErosionSimParameters :=
  let super := ErosionSimParameters_init in
  let fps := 80 in
  {| starting_lim_mag := camera_param 5 10 (Some 8);
     ending_lim_mag := camera_param 5 10 (Some 8);
     peak_mag_faintest := 6;
     fps := fps;
     len_delay := camera_param (8 / fps) (15 / fps) (Some (15 / fps));
     sim_height := camera_param 70000 130000 None;
     visibility_time_min := 2 / 10;
     mag_noise := 1 / 10;
     len_noise := 1;
     data_length := DATA_LENGTH;
     ht_min := 70000;
     ht_max := 130000;
     max_duration := max_duration super;
     mag_faintest := 10;
     mag_brightest := -2 |}.

(** [ErosionSimParametersCAMOWide.__init__] (lines 376-435) *)
Definition ErosionSimParametersCAMOWide_init : ErosionSimParameters :=
  let super := ErosionSimParameters_init in
  {| starting_lim_mag := camera_param 5 10 (Some 8);
     ending_lim_mag := camera_param 5 10 (Some 8);
     peak_mag_faintest := 6;
     fps := 80;
     len_delay := camera_param 0 0 (Some 0);
     sim_height := camera_param 70000 130000 None;
     visibility_time_min := 2 / 10;
     mag_noise := 1 / 10;
     len_noise := 20;
     data_length := DATA_LENGTH;
     ht_min := 70000;
     ht_max := 130000;
     max_duration := max_duration super;
     mag_faintest := 10;
     mag_brightest := -2 |}.

(** *** Channel normalisation (lines 564-607)

    The four channels are numpy arrays; arithmetic with a scalar acts on
    every element. *)
Definition channels : Type := (list R * list R * list R * list R)%type.

(** Lines 574-575 and 597-598: [len_max]. *)
Definition length_range (phys_params : PhysicalParameters)
    (camera_params : ErosionSimParameters) : outcome R :=
  match getattr (attrs phys_params) "v_init" with
  | Raise e => Raise e
  | Return v_init =>
      Return (max v_init * IZR (data_length camera_params) / fps camera_params)
  end.

(** [normalizeSimulations] (lines 564-584) *)
Definition normalizeSimulations (phys_params : PhysicalParameters)
    (camera_params : ErosionSimParameters)
    (time_data ht_data len_data mag_data : list R) : outcome channels :=
  let len_min := 0 in
  match length_range phys_params camera_params with
  | Raise e => Raise e
  | Return len_max =>
      let time_normed := map (fun x => x / max_duration camera_params) time_data in
      let ht_normed :=
        map (fun x => (x - ht_min camera_params)
                      / (ht_max camera_params - ht_min camera_params)) ht_data in
      let len_normed := map (fun x => (x - len_min) / (len_max - len_min)) len_data in
      let mag_normed :=
        map (fun x => (mag_faintest camera_params - x)
                      / (mag_faintest camera_params - mag_brightest camera_params))
          mag_data in
      Return (time_normed, ht_normed, len_normed, mag_normed)
  end.

(** [denormalizeSimulations] (lines 587-607) *)
Definition denormalizeSimulations (phys_params : PhysicalParameters)
    (camera_params : ErosionSimParameters)
    (time_data ht_data len_data mag_data : list R) : outcome channels :=
  let len_min := 0 in
  match length_range phys_params camera_params with
  | Raise e => Raise e
  | Return len_max =>
      let time_normed := map (fun x => x * max_duration camera_params) time_data in
      let ht_normed :=
        map (fun x => (ht_max camera_params - ht_min camera_params) * x
                      + ht_min camera_params) ht_data in
      let len_normed := map (fun x => (len_max - len_min) * x + len_min) len_data in
      let mag_normed :=
        map (fun x => (mag_faintest camera_params - mag_brightest camera_params) * x
                      + mag_faintest camera_params) mag_data in
      Return (time_normed, ht_normed, len_normed, mag_normed)
  end.

End GenerateSimulations.

(** ** Vocabulary for statements about parameter sets *)

Module ParameterShape.
Import Py GenerateSimulations.

#[local] Open Scope R_scope.

(** Two states of one parameter that differ at most in the value, where a
    value that is present stays present. *)
Definition same_shape (p p' : MetParam) : Prop :=
  min p' = min p /\ max p' = max p /\ fixed p' = fixed p /\
  method p' = method p /\ link_method p' = link_method p /\
  (is_Some (val p) -> is_Some (val p')).

(** The attribute dictionary [a'] binds the names that [a] binds, to
    parameters of the same shape. *)
Definition evolves (a a' : gmap string MetParam) : Prop :=
  forall name,
    match a !! name, a' !! name with
    | Some p, Some p' => same_shape p p'
    | None, None => True
    | _, _ => False
    end.

(** The parameter is linked by one of the two relations that
    [generateVal] acts on. *)
Definition linked (p : MetParam) : bool :=
  link_is "greater" p || link_is "less" p.

(** The parameter holds a value inside [min, max]. *)
Definition in_range (p : MetParam) : Prop :=
  exists v, val p = Some v /\ min p <= v <= max p.

(** [generateVal] knows how to draw the parameter between [lo] and some
    upper bound. *)
Definition drawable (p : MetParam) (lo : R) : Prop :=
  method p = "uniform"%string \/ (method p = "log10"%string /\ 0 < lo).

(** Every declared name is bound, and a linked parameter refers to a bound
    parameter that holds a value. *)
Definition well_formed (a : gmap string MetParam) (names : list string) : Prop :=
  forall name, In name names ->
    exists p, a !! name = Some p /\
      (linked p = true ->
         exists target q, snd (link_method p) = Some target /\
                          a !! target = Some q /\ is_Some (val q)).

(** The names that [PhysicalParameters.__init__] declares, in order. *)
Definition registry_names : list string :=
  ["m_init"; "v_init"; "zenith_angle"; "rho"; "sigma"; "erosion_height_start";
   "erosion_coeff"; "erosion_mass_index"; "erosion_mass_min";
   "erosion_mass_max"]%string.

End ParameterShape.

(** ** numpy arrays of floats and of booleans *)

Module Np.
Import Py.

(** A float: not-a-number, an infinity, or a finite value.  Finite values
    are rationals and arithmetic on them is exact. *)
Inductive float64 : Set :=
| NaN
| NegInf
| Finite (q : Q)
| PosInf.

Definition isnan (x : float64) : bool :=
  match x with
  | NaN => true
  | _ => false
  end.

Definition isfinite (x : float64) : bool :=
  match x with
  | Finite _ => true
  | _ => false
  end.

(** Comparisons: any comparison with NaN is false. *)
Definition le (x y : float64) : bool :=
  match x, y with
  | NaN, _ | _, NaN => false
  | NegInf, _ => true
  | _, PosInf => true
  | Finite a, Finite b => Qle_bool a b
  | Finite _, NegInf => false
  | PosInf, _ => false
  end.

Definition lt (x y : float64) : bool :=
  match x, y with
  | NaN, _ | _, NaN => false
  | _, _ => negb (le y x)
  end.

Definition ge (x y : float64) : bool := le y x.
Definition gt (x y : float64) : bool := lt y x.

(** [x - y] *)
Definition sub (x y : float64) : float64 :=
  match x, y with
  | NaN, _ | _, NaN => NaN
  | Finite a, Finite b => Finite (a - b)
  | PosInf, PosInf | NegInf, NegInf => NaN
  | PosInf, _ | _, NegInf => PosInf
  | NegInf, _ | _, PosInf => NegInf
  end.

(** [np.fmax]: the larger operand, a NaN only if both are. *)
Definition fmax (x y : float64) : float64 :=
  match x, y with
  | NaN, _ => y
  | _, NaN => x
  | _, _ => if le x y then y else x
  end.

(** [np.minimum] and [np.maximum]: a NaN operand makes the result NaN. *)
Definition minimum (x y : float64) : float64 :=
  match x, y with
  | NaN, _ | _, NaN => NaN
  | _, _ => if le x y then x else y
  end.

Definition maximum (x y : float64) : float64 :=
  match x, y with
  | NaN, _ | _, NaN => NaN
  | _, _ => if le x y then y else x
  end.

(** Reductions raise [ValueError] on an empty array. *)
Definition reduce (op : float64 -> float64 -> float64) (a : list float64)
  : outcome float64 :=
  match a with
  | [] => Raise ValueError
  | x :: rest => Return (fold_left op rest x)
  end.

(** [np.nanmax], [np.min], [np.max] *)
Definition nanmax : list float64 -> outcome float64 := reduce fmax.
Definition amin : list float64 -> outcome float64 := reduce minimum.
Definition amax : list float64 -> outcome float64 := reduce maximum.

(** The position of the first [true], if there is one. *)
Fixpoint first_true (b : list bool) : option nat :=
  match b with
  | [] => None
  | true :: _ => Some O
  | false :: rest => option_map S (first_true rest)
  end.

(** [np.argmax] of a boolean array: the first [True], and 0 when there is
    none. *)
Definition argmax (b : list bool) : outcome nat :=
  match b with
  | [] => Raise ValueError
  | _ => Return (match first_true b with Some i => i | None => O end)
  end.

(** [np.any] *)
Definition any (b : list bool) : bool := existsb (fun x => x) b.

(** [a[: k] = False] *)
Definition clear_to (k : nat) (a : list bool) : list bool :=
  repeat false (Nat.min k (length a)) ++ skipn k a.

(** [a[-k :] = False]: for [k = 0] the slice is the whole array. *)
Definition clear_from_end (k : nat) (a : list bool) : list bool :=
  let start := if Nat.eqb k 0 then O else (length a - k)%nat in
  firstn start a ++ repeat false (length a - start).

(** [a[cond] = False] for a boolean array [cond] of the shape of [a]. *)
Definition clear_where (cond a : list bool) : outcome (list bool) :=
  if Nat.eqb (length cond) (length a)
  then Return (map (fun '(c, x) => if c : bool then false else x) (combine cond a))
  else Raise IndexError.

(** [a[mask]] for a boolean array [mask] of the shape of [a]. *)
Definition select {X : Type} (mask : list bool) (a : list X) : outcome (list X) :=
  if Nat.eqb (length mask) (length a)
  then Return (map snd (List.filter fst (combine mask a)))
  else Raise IndexError.

(** [a[-1]] *)
Definition last_item {X : Type} (a : list X) : outcome X :=
  match rev a with
  | [] => Raise IndexError
  | x :: _ => Return x
  end.

(** Python's [min] of two floats: the first unless the second is smaller. *)
Definition py_min (x y : float64) : float64 := if lt y x then y else x.

End Np.

(** ** [extractSimData]: from a simulation to the visible samples
       (lines 706-747) *)

Module Visibility.
Import Py Np.

(** The arrays of [SimulationResults] that [extractSimData] reads. *)
Record SimulationResults : Type := mkSimulationResults {
  time_arr : list float64;
  abs_magnitude : list float64;
  brightest_height_arr : list float64;
  brightest_length_arr : list float64
}.

(** Line 707: [abs_magnitude[np.isnan(abs_magnitude)] = np.nanmax(abs_magnitude)].
    The right-hand side is evaluated first. *)
Definition fix_nan (abs_magnitude : list float64) : outcome (list float64) :=
  match nanmax abs_magnitude with
  | Raise e => Raise e
  | Return m => Return (map (fun x => if isnan x then m else x) abs_magnitude)
  end.

(** Line 711: [np.min(abs_magnitude) >= peak_mag_faintest] *)
Definition never_bright (abs_magnitude : list float64) (peak_mag_faintest : float64)
  : outcome bool :=
  match amin abs_magnitude with
  | Raise e => Raise e
  | Return m => Return (ge m peak_mag_faintest)
  end.

(** Line 720. *)
Definition trim_start (abs_magnitude : list float64) (starting_lim_mag : float64)
    (indices_visible : list bool) : outcome (list bool) :=
  match argmax (map (fun m => le m starting_lim_mag) abs_magnitude) with
  | Raise e => Raise e
  | Return k => Return (clear_to k indices_visible)
  end.

(** Lines 722-723. *)
Definition trim_end (abs_magnitude : list float64) (ending_lim_mag : float64)
    (indices_visible : list bool) : outcome (list bool) :=
  match last_item abs_magnitude with
  | Raise e => Raise e
  | Return final =>
      if gt final ending_lim_mag then
        match argmax (map (fun m => le m ending_lim_mag) (rev abs_magnitude)) with
        | Raise e => Raise e
        | Return k => Return (clear_from_end k indices_visible)
        end
      else Return indices_visible
  end.

(** Lines 717-725: the part of the mask that depends on the magnitudes. *)
Definition magnitude_mask (abs_magnitude : list float64)
    (starting_lim_mag ending_lim_mag : float64) : outcome (list bool) :=
  let min_lim_mag := py_min starting_lim_mag ending_lim_mag in
  let indices_visible := repeat true (length abs_magnitude) in
  match trim_start abs_magnitude starting_lim_mag indices_visible with
  | Raise e => Raise e
  | Return indices_visible =>
      match trim_end abs_magnitude ending_lim_mag indices_visible with
      | Raise e => Raise e
      | Return indices_visible =>
          clear_where (map (fun m => ge m min_lim_mag) abs_magnitude)
            indices_visible
      end
  end.

(** Lines 717-729: the visibility mask. *)
Definition indices_visible (abs_magnitude brightest_height_arr : list float64)
    (starting_lim_mag ending_lim_mag ht_min ht_max : float64)
  : outcome (list bool) :=
  match magnitude_mask abs_magnitude starting_lim_mag ending_lim_mag with
  | Raise e => Raise e
  | Return indices_visible =>
      clear_where
        (map (fun h => gt h ht_max || lt h ht_min) brightest_height_arr)
        indices_visible
  end.

(** Lines 740-747: the visible time span is too short. *)
Definition too_short (time_arr : list float64) (indices_visible : list bool)
    (min_time_visible : float64) : outcome bool :=
  match select indices_visible time_arr with
  | Raise e => Raise e
  | Return time_lim_mag_bright =>
      match time_lim_mag_bright with
      | [] => Raise IndexError
      | t0 :: _ =>
          match amax (map (fun t => sub t t0) time_lim_mag_bright) with
          | Raise e => Raise e
          | Return span => Return (lt span min_time_visible)
          end
      end
  end.

(** Lines 706-755: the visible samples of a simulation, or [None] when the
    simulation is rejected.  The result lists the time, magnitude, height
    and length of the visible samples. *)
Definition visible_samples (sim_results : SimulationResults)
    (starting_lim_mag ending_lim_mag peak_mag_faintest ht_min ht_max
       visibility_time_min : float64)
  : outcome (option (list float64 * list float64 * list float64 * list float64)) :=
  match fix_nan (abs_magnitude sim_results) with
  | Raise e => Raise e
  | Return abs_magnitude =>
      match never_bright abs_magnitude peak_mag_faintest with
      | Raise e => Raise e
      | Return true => Return None
      | Return false =>
          match indices_visible abs_magnitude (brightest_height_arr sim_results)
                  starting_lim_mag ending_lim_mag ht_min ht_max with
          | Raise e => Raise e
          | Return mask =>
              if negb (any mask) then Return None
              else
                match too_short (time_arr sim_results) mask visibility_time_min with
                | Raise e => Raise e
                | Return true => Return None
                | Return false =>
                    match select mask (time_arr sim_results),
                          select mask abs_magnitude,
                          select mask (brightest_height_arr sim_results),
                          select mask (brightest_length_arr sim_results) with
                    | Return time_visible, Return mag_visible,
                      Return ht_visible, Return len_visible =>
                        Return (Some (time_visible, mag_visible,
                                      ht_visible, len_visible))
                    | Raise e, _, _, _ => Raise e
                    | _, Raise e, _, _ => Raise e
                    | _, _, Raise e, _ => Raise e
                    | _, _, _, Raise e => Raise e
                    end
                end
          end
      end
  end.

(** A small run: five samples, 0.1 s apart, that brighten from magnitude 9
    to 5 and fade again. *)
Definition example_run : SimulationResults :=
  {| time_arr := [Finite 0; Finite (1 # 10); Finite (2 # 10); Finite (3 # 10);
                  Finite (4 # 10)];
     abs_magnitude := [Finite 9; Finite 7; Finite 5; Finite 7; Finite 9];
     brightest_height_arr := [Finite 110000; Finite 105000; Finite 100000;
                              Finite 95000; Finite 90000];
     brightest_length_arr := [Finite 0; Finite 5000; Finite 10000; Finite 15000;
                              Finite 20000] |}.

End Visibility.

(** ** [extractSimData]: resampling and the tracking delay
       (lines 762-810) *)

Module Resampling.
Import Py GenerateSimulations.

#[local] Open Scope R_scope.





End Resampling.

(** ** [ErosionSimContainer]: the file name and the folders
       (lines 462-471 and 516-543)

    A float is the rational number it holds.  Printing a float and
    truncating it are exact; an arithmetic operation on floats and
    [float(text)] give the double nearest to the exact result, which
    [double] stands for. *)

Module FileNames.

#[local] Open Scope string_scope.

(** *** Python text operations *)

(** [c in chars] *)
Definition in_chars (chars : string) (c : ascii) : bool :=
  existsb (Ascii.eqb c) (list_ascii_of_string chars).

(** Every character of [s] is one of [chars]. *)
Fixpoint all_in (chars s : string) : bool :=
  match s with
  | EmptyString => true
  | String c rest => in_chars chars c && all_in chars rest
  end.

(** [s.split(sep)] for a one-character separator: there is always at least
    one field. *)
Fixpoint split (sep : ascii) (s : string) : list string :=
  match s with
  | EmptyString => [EmptyString]
  | String c rest =>
      if Ascii.eqb c sep then EmptyString :: split sep rest
      else match split sep rest with
           | [] => [String c EmptyString]
           | field :: fields => String c field :: fields
           end
  end.

Fixpoint lstrip (chars s : string) : string :=
  match s with
  | EmptyString => EmptyString
  | String c rest => if in_chars chars c then lstrip chars rest else s
  end.

Fixpoint rstrip (chars s : string) : string :=
  match s with
  | EmptyString => EmptyString
  | String c rest =>
      match rstrip chars rest with
      | EmptyString => if in_chars chars c then EmptyString else String c EmptyString
      | kept => String c kept
      end
  end.

(** [s.strip(chars)]: the characters of [chars] are removed from both
    ends. *)
Definition strip (chars s : string) : string := rstrip chars (lstrip chars s).

(** *** Integers as decimal text *)

Definition digit (n : N) : ascii := ascii_of_N (48 + n mod 10).

Definition digit_value (c : ascii) : option N :=
  let n := N_of_ascii c in
  if (48 <=? n)%N && (n <=? 57)%N then Some (n - 48)%N else None.

Fixpoint decimal_digits (fuel : nat) (n : N) : string :=
  match fuel with
  | O => EmptyString
  | S fuel =>
      if (n <? 10)%N then String (digit n) EmptyString
      else decimal_digits fuel (n / 10) +:+ String (digit n) EmptyString
  end.

(** [str(n)] for [n >= 0] *)
Definition decimal (n : N) : string := decimal_digits (S (N.to_nat (N.size n))) n.

(** The value of a run of decimal digits; the empty run counts 0. *)
Definition digits_value (s : string) : option N :=
  fold_left (fun acc c => a ← acc; d ← digit_value c; Some (10 * a + d)%N)
    (list_ascii_of_string s) (Some 0%N).

Fixpoint zeros (n : nat) : string :=
  match n with
  | O => EmptyString
  | S n => String "0" (zeros n)
  end.

Definition zfill (width : nat) (s : string) : string :=
  zeros (width - String.length s) +:+ s.

(** ["{:0<width>d}".format(n)]: the sign counts towards the width. *)
Definition format_d (width : nat) (n : Z) : string :=
  if (n <? 0)%Z then String "-" (zfill (width - 1) (decimal (Z.to_N (- n))))
  else zfill width (decimal (Z.to_N n)).

(** *** Floats as decimal text *)

(** [int(x)] on a float: towards zero. *)
Definition int_of_float (x : Q) : Z :=
  if Qle_bool 0 x then Qfloor x else Qceiling x.

(** The nearest integer, the even one of two that are equally near: float
    formatting rounds the exact value this way. *)
Definition round_half_even (x : Q) : Z :=
  let f := Qfloor x in
  match ((x - inject_Z f) ?= 1 # 2)%Q with
  | Lt => f
  | Gt => (f + 1)%Z
  | Eq => if Z.even f then f else (f + 1)%Z
  end.

(** The last [width] decimal digits of [n]. *)
Fixpoint fixed_digits (width : nat) (n : N) : string :=
  match width with
  | O => EmptyString
  | S width => fixed_digits width (n / 10) +:+ String (digit n) EmptyString
  end.

Definition absolute (x : Q) : Q := if Qle_bool 0 x then x else (- x)%Q.

Definition sign_text (x : Q) : string :=
  if Qle_bool 0 x then EmptyString else "-".

(** [scaled] is the rounded value in units of [10^-prec]. *)
Definition point_text (prec : nat) (scaled : N) : string :=
  decimal (scaled / 10 ^ N.of_nat prec) +:+ String "." (fixed_digits prec scaled).

(** ["{:0<width>.<prec>f}".format(x)] with [prec >= 1] *)
Definition format_f (width prec : nat) (x : Q) : string :=
  let scaled := Z.to_N (round_half_even (absolute x * inject_Z (10 ^ Z.of_nat prec))%Q) in
  let sign := sign_text x in
  sign +:+ zfill (width - String.length sign) (point_text prec scaled).

(** The decimal exponent of a positive [x]: [10^e <= x < 10^(e+1)]. *)
Fixpoint exponent_from (fuel : nat) (x : Q) (e : Z) : Z :=
  match fuel with
  | O => e
  | S fuel =>
      if Qle_bool 10 x then exponent_from fuel (Qred (x / 10)) (e + 1)%Z
      else if Qle_bool 1 x then e
      else exponent_from fuel (Qred (x * 10)) (e - 1)%Z
  end.

Definition exponent (x : Q) : Z :=
  exponent_from (Z.to_nat (Z.log2 (Qnum x)) + Pos.to_nat (Pos.size (Qden x)) + 1) x 0.

(** ["{:.<prec>e}".format(x)] with [prec >= 1] *)
Definition format_e (prec : nat) (x : Q) : string :=
  let unit := (10 ^ Z.of_nat prec)%Z in
  let '(scaled, e) :=
    if Qeq_bool x 0 then (0%Z, 0%Z)
    else
      let e := exponent (absolute x) in
      let scaled := round_half_even (absolute x / Qpower 10 e * inject_Z unit)%Q in
      if (scaled <? 10 * unit)%Z then (scaled, e) else (unit, (e + 1)%Z) in
  sign_text x +:+ point_text prec (Z.to_N scaled)
  +:+ String "e" (String (if (e <? 0)%Z then "-" else "+")
                    (zfill 2 (decimal (Z.abs_N e)))).

(** *** Double precision *)

(** [2^e] *)
Definition pow2 (e : Z) : Q :=
  if (0 <=? e)%Z then inject_Z (2 ^ e) else 1 # Z.to_pos (2 ^ (- e)).

(** The largest [e] with [2^e <= x], for [x > 0]. *)
Definition log2_floor (x : Q) : Z :=
  let e := (Z.log2 (Qnum x) - Z.log2 (Zpos (Qden x)))%Z in
  if Qle_bool (pow2 e) x then e else (e - 1)%Z.

(** The double nearest to [x], the one with the even significand of two
    that are equally near: 53 significant bits.  The exponent is not
    bounded, so that overflow and the subnormal numbers below [2^-1022]
    are left out. *)
Definition binary64 (x : Q) : Q :=
  if Qeq_bool x 0 then 0
  else
    let ulp := pow2 (log2_floor (absolute x) - 52) in
    let nearest := (inject_Z (round_half_even (absolute x / ulp)) * ulp)%Q in
    if Qle_bool 0 x then nearest else (- nearest)%Q.

Section Doubles.

(** The rounding of the float arithmetic: [binary64], or any function with
    the properties that the proofs ask of it. *)
Variable double : Q -> Q.

(** [np.degrees] *)
Variable degrees : Q -> Q.

(** [float(s)] for plain decimal text: an optional sign, digits, and
    optionally a point and more digits, with a digit on at least one side
    of the point.  [None] stands for every other text: those [float]
    refuses, and those it reads that are written differently (exponents,
    [inf], [nan], surrounding blanks, digit groups). *)
Definition float (s : string) : option Q :=
  let '(negative, body) :=
    match s with
    | String c rest =>
        if Ascii.eqb c "-" then (true, rest)
        else if Ascii.eqb c "+" then (false, rest)
        else (false, s)
    | EmptyString => (false, s)
    end in
  let signed (x : Q) := if negative : bool then (- x)%Q else x in
  match split "." body with
  | [whole] =>
      if String.eqb whole EmptyString then None
      else
        w ← digits_value whole;
        Some (double (signed (inject_Z (Z.of_N w))))
  | [whole; frac] =>
      if String.eqb whole EmptyString && String.eqb frac EmptyString then None
      else
        w ← digits_value whole;
        f ← digits_value frac;
        Some (double (signed (inject_Z (Z.of_N w)
                              + inject_Z (Z.of_N f)
                                / inject_Z (10 ^ Z.of_nat (String.length frac)))%Q))
  | _ => None
  end.

(** *** The file name and the folders *)

(** [ErosionSimContainer.__init__], lines 462-471.  The arguments are the
    values of the eight parameters after [getConst]; the divisions and
    multiplications of lines 463-469 are float operations. *)
Definition file_name
    (v_init m_init rho zenith_angle sigma erosion_height_start erosion_coeff
       erosion_mass_index : Q) : string :=
  "erosion_sim_v" +:+ format_f 0 2 (double (v_init / 1000))
  +:+ "_m" +:+ format_e 2 (double (m_init * 1000))
  +:+ "g_rho" +:+ format_d 4 (int_of_float rho)
  +:+ "_z" +:+ format_f 4 1 (degrees zenith_angle)
  +:+ "_abl" +:+ format_f 0 3 (double (sigma * 1000000))
  +:+ "_eh" +:+ format_f 5 1 (double (erosion_height_start / 1000))
  +:+ "_er" +:+ format_f 0 3 (double (erosion_coeff * 1000000))
  +:+ "_s" +:+ format_f 0 2 erosion_mass_index.

(** [ErosionSimContainer.runSimulation], lines 519-536: the names of the
    velocity folder and of the density folder inside it.  [None]: an index
    is out of range, or [float] does not give a value (see [float]). *)
Definition runSimulation_folders (file_name : string) : option (string * string) :=
  let split_file := split "_" file_name in
  field ← nth_error split_file 2;
  vel ← float (strip "v" field);
  let vel_folder := "v" +:+ format_d 2 (int_of_float vel) in
  field ← nth_error split_file 4;
  rho ← float (strip "rho" field);
  let dens := (100 * int_of_float (double (rho / 100)))%Z in
  let dens_folder := "rho" +:+ format_d 4 dens in
  Some (vel_folder, dens_folder).

End Doubles.

End FileNames.

(* ===================================================================== *)
(** * Part II: properties *)
(* ===================================================================== *)

(** ** The bounded map and the generate-until-satisfied loop *)

Module ParallelizerProofs.
Import Py PyDomainParallelizer.

Section Workers.

Context {A B : Type}.
Variable cpu_count : nat.

Implicit Types (generator : nat -> option A) (workerFunc : A -> B).
Implicit Types (resultsCheckFunc : list B -> list B) (w : Process A).

Lemma next_n_effect generator n w o w' :
  next_n generator n w = (o, w') ->
  calls w' = calls w /\
  match o with
  | Return input_list => length input_list = n /\ drawn w' = drawn w + n
  | Raise e => e = StopIteration
  end.
Proof.
  revert w o w'. induction n as [|n IH]; intros w o w' Hrun; simpl in Hrun.
  - injection Hrun as <- <-. repeat split; simpl; lia.
  - unfold mbind, run_bind, bind, next in Hrun.
    destruct (generator (drawn w)) as [a|] eqn:Hgen.
    + destruct (next_n generator n {| drawn := S (drawn w); calls := calls w |})
        as [[rest|e] w2] eqn:Hrest;
        apply IH in Hrest as [Hcalls Hrest]; simpl in *;
        injection Hrun as <- <-; split; auto.
      destruct Hrest as [Hlen Hdrawn]. simpl. split; lia.
    + injection Hrun as <- <-. auto.
Qed.

Lemma next_n_values generator n w input_list w' :
  next_n generator n w = (Return input_list, w') ->
  map Some input_list = map generator (seq (drawn w) n).
Proof.
  revert w input_list w'. induction n as [|n IH]; intros w l w' Hrun; simpl in Hrun.
  - injection Hrun as <- <-. reflexivity.
  - unfold mbind, run_bind, bind, next in Hrun.
    destruct (generator (drawn w)) as [a|] eqn:Hgen; [|discriminate].
    destruct (next_n generator n {| drawn := S (drawn w); calls := calls w |})
      as [[rest|e] w2] eqn:Hrest; [|discriminate].
    injection Hrun as <- <-. apply IH in Hrest. simpl in *.
    now rewrite Hgen, Hrest.
Qed.

Lemma next_n_enough generator n w :
  (forall i, drawn w <= i < drawn w + n -> generator i <> None) ->
  exists input_list,
    next_n generator n w =
      (Return input_list, {| drawn := drawn w + n; calls := calls w |}).
Proof.
  revert w. induction n as [|n IH]; intros w Hgen; simpl.
  - exists []. unfold ret. destruct w; simpl. do 2 f_equal. lia.
  - unfold mbind, run_bind, bind, next.
    destruct (generator (drawn w)) as [a|] eqn:Ha.
    + destruct (IH {| drawn := S (drawn w); calls := calls w |}) as [rest Hrest].
      { simpl. intros i Hi. apply Hgen. lia. }
      rewrite Hrest. exists (a :: rest). simpl. unfold mret, run_ret, ret.
      do 2 f_equal. lia.
    + exfalso. apply (Hgen (drawn w)); [lia | exact Ha].
Qed.

(** The loop ends within the fuel it is given by [parallelComputeGenerator]:
    every round adds [n_proc >= 1] runs, and the loop stops once the budget
    is reached. *)
Lemma accumulate_terminates fuel generator workerFunc resultsCheckFunc
    req_num n_proc max_runs results total_runs w :
  1 <= n_proc ->
  1 <= fuel ->
  max_runs < fuel + total_runs ->
  accumulate fuel generator workerFunc resultsCheckFunc req_num n_proc
    max_runs results total_runs w <> None.
Proof.
  intros Hproc. revert results total_runs w.
  induction fuel as [|fuel IH]; intros results total_runs w Hpos Hfuel; simpl.
  - lia.
  - destruct (length results <? req_num); [|discriminate].
    destruct (next_n generator n_proc w) as [[input_list|e] w1] eqn:Hnext;
      [|discriminate].
    apply next_n_effect in Hnext as [_ [Hlen _]].
    destruct (max_runs <=? total_runs + length input_list) eqn:Hcap;
      [discriminate|].
    apply Nat.leb_gt in Hcap. apply IH; lia.
Qed.

(** What the loop hands back: the good results of the initial batch
    followed by those of the later rounds; when fewer than [req_num] were
    gathered, the budget has been reached.  [total_runs] counts the
    worker invocations. *)
Lemma accumulate_returns fuel generator workerFunc resultsCheckFunc
    req_num n_proc max_runs results total_runs w r w' :
  accumulate fuel generator workerFunc resultsCheckFunc req_num n_proc
    max_runs results total_runs w = Some (Return r, w') ->
  length results <= length r /\
  (length r < req_num ->
     max_runs <= total_runs + (length (calls w') - length (calls w))) /\
  length (calls w) <= length (calls w').
Proof.
  revert results total_runs w.
  induction fuel as [|fuel IH]; intros results total_runs w Hrun; simpl in Hrun.
  - destruct (length results <? req_num) eqn:Hlt; [discriminate|].
    injection Hrun as <- <-. apply Nat.ltb_ge in Hlt. repeat split; lia.
  - destruct (length results <? req_num) eqn:Hlt.
    + destruct (next_n generator n_proc w) as [[input_list|e] w1] eqn:Hnext;
        [|discriminate].
      apply next_n_effect in Hnext as [Hcalls _].
      destruct (max_runs <=? total_runs + length input_list) eqn:Hcap.
      * injection Hrun as <- <-. apply Nat.leb_le in Hcap.
        simpl. rewrite Hcalls, !length_app. repeat split; lia.
      * apply IH in Hrun as (Hlen & Hbudget & Hmono).
        simpl in *. rewrite Hcalls, !length_app in *. repeat split; try lia.
    + injection Hrun as <- <-. apply Nat.ltb_ge in Hlt. repeat split; lia.
Qed.

Lemma truncate_length req_num (results : list B) :
  length (truncate req_num results) = Nat.min req_num (length results).
Proof.
  unfold truncate. destruct (req_num <? length results) eqn:Hlt.
  - apply Nat.ltb_lt in Hlt. rewrite length_firstn. lia.
  - apply Nat.ltb_ge in Hlt. lia.
Qed.

(** [parallelComputeGenerator] always comes back, with a list or with an
    exception. *)
Lemma parallelComputeGenerator_total generator workerFunc resultsCheckFunc
    req_num n_proc max_runs w :
  exists o w',
    parallelComputeGenerator cpu_count generator workerFunc resultsCheckFunc
      req_num n_proc max_runs w = Some (o, w').
Proof.
  unfold parallelComputeGenerator, Pool, pool_map.
  destruct (default_procs cpu_count n_proc <? 1) eqn:Hproc; cbn -[accumulate].
  { eauto. }
  apply Nat.ltb_ge in Hproc.
  destruct (next_n generator req_num w) as [[input_list|e] w1] eqn:Hnext;
    cbn -[accumulate]; [|eauto].
  destruct (length (resultsCheckFunc (map workerFunc input_list)) =? 0); [eauto|].
  match goal with
  | |- context [accumulate ?f ?g ?wf ?rc ?rn ?np ?mr ?rs ?tr ?w0] =>
      pose proof (accumulate_terminates f g wf rc rn np mr rs tr w0 Hproc) as Hterm;
      destruct (accumulate f g wf rc rn np mr rs tr w0) as [[[r|e] w3]|]
  end; eauto.
  exfalso. apply Hterm; [lia | lia | reflexivity].
Qed.

Lemma one_core_loop (function : A -> B) domain (st : binding * Process A) :
  fold_left (one_core_step function) domain st =
    (match rev domain with
     | [] => fst st
     | args :: _ => ListObject [function args]
     end,
     invoke domain (snd st)).
Proof.
  revert st. induction domain as [|args domain IH]; intros [results w]; simpl.
  - unfold invoke. rewrite app_nil_r. now destruct w.
  - rewrite IH. unfold invoke. simpl. rewrite <- app_assoc. simpl.
    now destruct (rev domain).
Qed.

(** With one core the function is called once per tuple, in order, and then
    line 172 raises: [results] is a plain list (or was never bound). *)
Lemma domainParallelizer_one_core domain (function : A -> B) w :
  domainParallelizer cpu_count domain function (Some 1) w =
    (Raise (match domain with [] => UnboundLocalError | _ => AttributeError end),
     invoke domain w).
Proof.
  unfold domainParallelizer. simpl default_procs. simpl (1 =? 1).
  rewrite one_core_loop. simpl fst. simpl snd.
  destruct domain as [|args domain]; [reflexivity|].
  simpl rev. destruct (rev domain ++ [args]) as [|x l] eqn:Hrev.
  - now destruct (rev domain).
  - reflexivity.
Qed.

(** With a pool of two or more processes the results come back in the order
    of the domain, one per tuple. *)
Lemma domainParallelizer_pooled domain (function : A -> B) cores w :
  2 <= cores ->
  domainParallelizer cpu_count domain function (Some cores) w =
    (Return (map function domain), invoke domain w).
Proof.
  intros Hcores. unfold domainParallelizer. simpl default_procs.
  destruct (cores =? 1) eqn:Hone; [apply Nat.eqb_eq in Hone; lia|].
  destruct (1 <? cores) eqn:Hmany; [reflexivity|].
  apply Nat.ltb_ge in Hmany. lia.
Qed.

(** C7.  When the filter keeps nothing of the initial batch of [req_num]
    runs, [parallelComputeGenerator] returns the empty list at once: the
    generator has been asked for [req_num] inputs and no more, the worker
    has been invoked on exactly those inputs, and with the default budget
    of [10 * req_num] runs the budget is not used up. *)
Theorem initial_batch_all_bad_aborts generator workerFunc resultsCheckFunc
    req_num n_proc max_runs w w1 input_list :
  1 <= req_num ->
  1 <= default_procs cpu_count n_proc ->
  next_n generator req_num w = (Return input_list, w1) ->
  resultsCheckFunc (map workerFunc input_list) = [] ->
  parallelComputeGenerator cpu_count generator workerFunc resultsCheckFunc
    req_num n_proc max_runs w
  = Some (Return [],
          {| drawn := drawn w + req_num; calls := calls w ++ input_list |})
  /\ length input_list = req_num
  /\ req_num < run_budget req_num None.
Proof.
  intros Hreq Hproc Hnext Hbad.
  pose proof (next_n_effect _ _ _ _ _ Hnext) as (Hcalls & Hlen & Hdrawn).
  split; [|split; [exact Hlen | simpl; lia]].
  unfold parallelComputeGenerator, Pool, pool_map.
  destruct (default_procs cpu_count n_proc <? 1) eqn:Hp.
  { apply Nat.ltb_lt in Hp. lia. }
  cbn -[accumulate]. rewrite Hnext, Hbad. cbn -[accumulate].
  unfold invoke. now rewrite Hcalls, Hdrawn.
Qed.

(** A generator that yields [inputs] from its current position on hands
    them out in that order. *)
Lemma next_n_yields generator n w inputs :
  map Some inputs = map generator (seq (drawn w) n) ->
  next_n generator n w
  = (Return inputs, {| drawn := drawn w + n; calls := calls w |}).
Proof.
  revert w inputs. induction n as [|n IH]; intros w inputs Hitems.
  - destruct inputs; [|discriminate]. destruct w. simpl.
    unfold ret. rewrite Nat.add_0_r. reflexivity.
  - destruct inputs as [|a rest]; [discriminate|].
    simpl in Hitems. injection Hitems as Ha Hrest.
    simpl. unfold mbind, run_bind, bind, next. rewrite <- Ha.
    rewrite (IH {| drawn := S (drawn w); calls := calls w |} rest Hrest).
    simpl. unfold mret, run_ret, ret. do 3 f_equal. lia.
Qed.

Lemma yields_split generator p a b (inputs : list A) :
  map Some inputs = map generator (seq p (a + b)) ->
  map Some (firstn a inputs) = map generator (seq p a)
  /\ map Some (skipn a inputs) = map generator (seq (p + a) b).
Proof.
  intros Hitems. rewrite seq_app, map_app in Hitems.
  split.
  - rewrite <- firstn_map, Hitems.
    rewrite firstn_app, length_map, length_seq, Nat.sub_diag, firstn_O, app_nil_r.
    apply firstn_all2. rewrite length_map, length_seq. lia.
  - rewrite <- skipn_map, Hitems.
    rewrite skipn_app, length_map, length_seq, Nat.sub_diag.
    rewrite skipn_all2 by (rewrite length_map, length_seq; lia).
    reflexivity.
Qed.

Lemma yields_length generator p n (inputs : list A) :
  map Some inputs = map generator (seq p n) -> length inputs = n.
Proof.
  intros Hitems. apply (f_equal (@length _)) in Hitems.
  now rewrite !length_map, length_seq in Hitems.
Qed.

(** The loop against the rounds of the specification.  When the good
    results first number [req_num] after [k] more rounds and the budget is
    not reached in an earlier round, the loop runs exactly these [k]
    rounds and hands back all their good results. *)
Lemma accumulate_rounds k fuel generator workerFunc resultsCheckFunc
    req_num n_proc max_runs results total_runs w inputs :
  k <= fuel ->
  map Some inputs = map generator (seq (drawn w) (k * n_proc)) ->
  (forall j, j < k ->
     (length results
      + length (later_rounds workerFunc resultsCheckFunc n_proc j inputs))
     < req_num) ->
  req_num <= (length results
              + length (later_rounds workerFunc resultsCheckFunc n_proc k inputs)) ->
  (forall j, 1 <= j < k -> total_runs + j * n_proc < max_runs) ->
  accumulate fuel generator workerFunc resultsCheckFunc req_num n_proc
    max_runs results total_runs w
  = Some (Return (results
                  ++ later_rounds workerFunc resultsCheckFunc n_proc k inputs),
          {| drawn := drawn w + k * n_proc; calls := calls w ++ inputs |}).
Proof.
  revert fuel results total_runs w inputs.
  induction k as [|k IH]; intros fuel results total_runs w inputs
    Hfuel Hitems Hshort Henough Hbudget.
  - destruct inputs; [|discriminate]. simpl in Henough.
    assert ((length results <? req_num) = false) as Hfull
      by (apply Nat.ltb_ge; lia).
    destruct w as [d c]. simpl.
    rewrite !app_nil_r, Nat.add_0_r.
    destruct fuel; simpl; rewrite Hfull; reflexivity.
  - destruct fuel as [|fuel]; [lia|].
    pose proof (Hshort 0 ltac:(lia)) as Hhead. simpl in Hhead.
    assert ((length results <? req_num) = true) as Hlt
      by (apply Nat.ltb_lt; lia).
    change (S k * n_proc) with (n_proc + k * n_proc) in Hitems.
    destruct (yields_split _ _ _ _ _ Hitems) as [Hbatch Hrest].
    pose proof (yields_length _ _ _ _ Hbatch) as Hlen.
    cbn [accumulate]. rewrite Hlt.
    rewrite (next_n_yields generator n_proc w _ Hbatch).
    unfold pool_map. cbn [invoke drawn calls]. rewrite Hlen.
    destruct (max_runs <=? total_runs + n_proc) eqn:Hcap.
    + apply Nat.leb_le in Hcap.
      destruct k as [|k].
      2:{ specialize (Hbudget 1 ltac:(lia)). lia. }
      simpl in Hrest. apply map_eq_nil in Hrest.
      assert (firstn n_proc inputs = inputs) as Hall.
      { rewrite <- (firstn_skipn n_proc inputs) at 2.
        rewrite Hrest, app_nil_r. reflexivity. }
      cbn [later_rounds]. rewrite Hall, app_nil_r.
      unfold invoke. cbn [drawn calls]. do 3 f_equal. lia.
    + apply Nat.leb_gt in Hcap.
      rewrite (IH fuel _ _ _ (skipn n_proc inputs)).
      * unfold invoke. cbn [drawn calls later_rounds].
        rewrite <- !app_assoc, (firstn_skipn n_proc inputs).
        do 3 f_equal. lia.
      * lia.
      * exact Hrest.
      * intros j Hj. specialize (Hshort (S j) ltac:(lia)).
        cbn [later_rounds] in Hshort. rewrite !length_app in *. lia.
      * cbn [later_rounds] in Henough. rewrite !length_app in *. lia.
      * intros j Hj. specialize (Hbudget (S j) ltac:(lia)). lia.
Qed.

(** C8.  The default budget is ten times [req_num].  A call always comes
    back, and when it comes back with a list, the list has at most
    [req_num] entries.  When the initial batch has a good result, the
    accumulated good results first number [req_num] in round [k], and the
    budget is not reached in a round before [k], the call runs the
    initial batch and exactly [k] rounds of [n_proc] inputs and returns
    the first [req_num] of the good results of these rounds, in order:
    exactly [req_num] results, also when round [k] reaches the budget.
    When every result of the initial batch passes the filter, the call
    returns those [req_num] results after exactly [req_num] invocations. *)
Theorem parallelComputeGenerator_result_length generator workerFunc
    resultsCheckFunc req_num n_proc max_runs w :
  run_budget req_num None = 10 * req_num
  /\ (exists o w',
        parallelComputeGenerator cpu_count generator workerFunc
          resultsCheckFunc req_num n_proc max_runs w = Some (o, w')
        /\ forall r, o = Return r -> length r <= req_num)
  /\ (forall k inputs,
        1 <= default_procs cpu_count n_proc ->
        map Some inputs
        = map generator
            (seq (drawn w) (req_num + k * default_procs cpu_count n_proc)) ->
        resultsCheckFunc (map workerFunc (firstn req_num inputs)) <> [] ->
        (forall j, j < k ->
           length (accumulated workerFunc resultsCheckFunc req_num
                     (default_procs cpu_count n_proc) j inputs) < req_num) ->
        req_num <= length (accumulated workerFunc resultsCheckFunc req_num
                             (default_procs cpu_count n_proc) k inputs) ->
        (forall j, 1 <= j < k ->
           req_num + j * default_procs cpu_count n_proc
           < run_budget req_num max_runs) ->
        parallelComputeGenerator cpu_count generator workerFunc
          resultsCheckFunc req_num n_proc max_runs w
        = Some (Return (firstn req_num
                          (accumulated workerFunc resultsCheckFunc req_num
                             (default_procs cpu_count n_proc) k inputs)),
                {| drawn := drawn w
                            + (req_num + k * default_procs cpu_count n_proc);
                   calls := calls w ++ inputs |})
        /\ length (firstn req_num
                     (accumulated workerFunc resultsCheckFunc req_num
                        (default_procs cpu_count n_proc) k inputs)) = req_num)
  /\ (forall input_list w1,
        1 <= default_procs cpu_count n_proc ->
        next_n generator req_num w = (Return input_list, w1) ->
        resultsCheckFunc (map workerFunc input_list) = map workerFunc input_list ->
        length input_list = req_num
        /\ parallelComputeGenerator cpu_count generator workerFunc
             resultsCheckFunc req_num n_proc max_runs w
           = Some (Return (map workerFunc input_list),
                   {| drawn := drawn w + req_num;
                      calls := calls w ++ input_list |})).
Proof.
  split; [reflexivity|]. split; [|split].
  - destruct (parallelComputeGenerator_total generator workerFunc
                resultsCheckFunc req_num n_proc max_runs w) as (o & w' & Hrun).
    exists o, w'. split; [exact Hrun|]. intros r ->.
    unfold parallelComputeGenerator, Pool, pool_map in Hrun.
    destruct (default_procs cpu_count n_proc <? 1); cbn -[accumulate] in Hrun;
      [discriminate|].
    destruct (next_n generator req_num w) as [[input_list|e] w1] eqn:Hnext;
      cbn -[accumulate] in Hrun; [|discriminate].
    destruct (length (resultsCheckFunc (map workerFunc input_list)) =? 0)
      eqn:Hgood.
    + injection Hrun as <- <-. apply Nat.eqb_eq in Hgood. lia.
    + match type of Hrun with
      | context [accumulate ?f ?g ?wf ?rc ?rn ?np ?mr ?rs ?tr ?w0] =>
          destruct (accumulate f g wf rc rn np mr rs tr w0)
            as [[[rs'|e] w3]|] eqn:Hloop
      end; try discriminate.
      injection Hrun as <- <-. rewrite truncate_length. lia.
  - intros k inputs Hproc Hitems Hgood Hshort Henough Hbudget.
    set (procs := default_procs cpu_count n_proc) in *.
    destruct (yields_split _ _ _ _ _ Hitems) as [Hfirst Hlater].
    pose proof (yields_length _ _ _ _ Hfirst) as Hlen.
    assert (length (firstn req_num
                      (accumulated workerFunc resultsCheckFunc req_num procs
                         k inputs)) = req_num) as Hexact
      by (rewrite length_firstn; lia).
    split; [|exact Hexact].
    unfold parallelComputeGenerator, Pool, pool_map. fold procs.
    destruct (procs <? 1) eqn:Hp; [apply Nat.ltb_lt in Hp; lia|].
    cbn -[accumulate].
    rewrite (next_n_yields generator req_num w _ Hfirst).
    cbn -[accumulate]. rewrite Hlen.
    destruct (length (resultsCheckFunc (map workerFunc (firstn req_num inputs)))
              =? 0) eqn:Hzero.
    { apply Nat.eqb_eq, length_zero_iff_nil in Hzero. contradiction. }
    rewrite (accumulate_rounds k _ _ _ _ _ _ _ _ _ _ (skipn req_num inputs)).
    + cbn [drawn calls invoke]. unfold accumulated in *.
      rewrite <- app_assoc, (firstn_skipn req_num inputs).
      f_equal. f_equal.
      * f_equal. unfold truncate.
        destruct (req_num <? _) eqn:Hlt; [reflexivity|].
        apply Nat.ltb_ge in Hlt. symmetry. now apply firstn_all2.
      * f_equal. lia.
    + destruct k as [|[|k]]; try lia.
      specialize (Hbudget (S k) ltac:(lia)).
      assert (S k * 1 <= S k * procs) by (apply Nat.mul_le_mono_l; lia).
      lia.
    + exact Hlater.
    + intros j Hj. specialize (Hshort j Hj). unfold accumulated in Hshort.
      rewrite length_app in Hshort. exact Hshort.
    + unfold accumulated in Henough. rewrite length_app in Henough.
      exact Henough.
    + intros j Hj. specialize (Hbudget j Hj). lia.
  - intros input_list w1 Hproc Hnext Hall.
    pose proof (next_n_effect _ _ _ _ _ Hnext) as (Hcalls & Hlen & Hdrawn).
    split; [exact Hlen|].
    unfold parallelComputeGenerator, Pool, pool_map.
    destruct (default_procs cpu_count n_proc <? 1) eqn:Hp.
    { apply Nat.ltb_lt in Hp. lia. }
    cbn -[accumulate]. rewrite Hnext. cbn -[accumulate]. rewrite Hall.
    rewrite length_map, Hlen.
    destruct req_num as [|n].
    + destruct input_list; [|discriminate]. simpl.
      unfold invoke. now rewrite Hcalls, Hdrawn.
    + simpl (S n =? 0). cbv iota.
      unfold accumulate. rewrite length_map, Hlen, Nat.ltb_irrefl.
      unfold truncate. rewrite length_map, Hlen, Nat.ltb_irrefl.
      unfold invoke. now rewrite Hcalls, Hdrawn.
Qed.

End Workers.

(** C1.  [domainParallelizer] on the two tuples [("a", 2)] and [("b", 4)]
    with [cores = 1] and a worker that returns the second component: the
    worker is called on both tuples in order, and the call then raises
    [AttributeError] instead of returning [[2; 4]]. *)
Theorem domainParallelizer_one_core_raises :
  domainParallelizer 8 [("a", 2); ("b", 4)] snd (Some 1) (mkProcess 0 [])
  = (Raise AttributeError, mkProcess 0 [("a", 2); ("b", 4)]).
Proof. reflexivity. Qed.

(** The same call on a pool of two processes returns [[2; 4]]. *)
Example domainParallelizer_two_cores :
  domainParallelizer 8 [("a", 2); ("b", 4)] snd (Some 2) (mkProcess 0 [])
  = (Return [2; 4], mkProcess 0 [("a", 2); ("b", 4)]).
Proof. reflexivity. Qed.

Lemma initial_batch_all_bad_aborts_witness :
  parallelComputeGenerator 8 (fun i => Some i) (fun _ : nat => false)
    (List.filter (fun good : bool => good)) 5 (Some 1) None (mkProcess 0 [])
  = Some (Return [], mkProcess 5 [0; 1; 2; 3; 4]).
Proof.
  exact (proj1 (initial_batch_all_bad_aborts 8 (fun i => Some i)
                  (fun _ : nat => false) (List.filter (fun good : bool => good)) 5 (Some 1) None
                  (mkProcess 0 []) (mkProcess 5 []) [0; 1; 2; 3; 4]
                  ltac:(lia) ltac:(simpl; lia) eq_refl eq_refl)).
Defined.

Lemma parallelComputeGenerator_result_length_witness :
  parallelComputeGenerator 8 (fun i => Some i) (fun i => Nat.even i)
    (List.filter (fun good : bool => good)) 3 (Some 2) (Some 5) (mkProcess 0 [])
  = Some (Return [true; true; true], mkProcess 5 [0; 1; 2; 3; 4])
  /\ length [true; true; true] = 3.
Proof.
  apply (proj1 (proj2 (proj2 (parallelComputeGenerator_result_length 8
                  (fun i => Some i) (fun i => Nat.even i)
                  (List.filter (fun good : bool => good)) 3
                  (Some 2) (Some 5) (mkProcess 0 []))))
           1 [0; 1; 2; 3; 4]).
  - simpl. lia.
  - reflexivity.
  - discriminate.
  - intros j Hj. assert (j = 0) as -> by lia. simpl. lia.
  - simpl. lia.
  - intros j Hj. lia.
Defined.

End ParallelizerProofs.

(** ** Parameter sets and channel normalisation *)

Module ParameterProofs.
Import Py GenerateSimulations.

#[local] Open Scope R_scope.

Lemma ln_10_pos : 0 < ln 10.
Proof. rewrite <- ln_1. apply ln_increasing; lra. Qed.

Lemma pow10_log10 (x : R) : 0 < x -> pow10 (log10 x) = x.
Proof.
  intros Hx. unfold pow10, log10, Rpower.
  replace (ln x / ln 10 * ln 10) with (ln x)
    by (field; apply Rgt_not_eq, ln_10_pos).
  now apply exp_ln.
Qed.

Lemma log10_pow10 (y : R) : log10 (pow10 y) = y.
Proof.
  unfold pow10, log10, Rpower. rewrite ln_exp. field.
  apply Rgt_not_eq, ln_10_pos.
Qed.

Lemma log10_increasing (x y : R) : 0 < x -> x < y -> log10 x < log10 y.
Proof.
  intros Hx Hxy. unfold log10.
  apply Rmult_lt_compat_r.
  - apply Rinv_0_lt_compat, ln_10_pos.
  - now apply ln_increasing.
Qed.

Lemma log10_le (x y : R) : 0 < x -> x <= y -> log10 x <= log10 y.
Proof.
  intros Hx [Hlt| ->]; [|lra]. left. now apply log10_increasing.
Qed.

Lemma pow10_increasing (x y : R) : x < y -> pow10 x < pow10 y.
Proof.
  intros Hxy. unfold pow10, Rpower. apply exp_increasing.
  apply Rmult_lt_compat_r; [apply ln_10_pos | exact Hxy].
Qed.

Lemma pow10_le (x y : R) : x <= y -> pow10 x <= pow10 y.
Proof.
  intros [Hlt| ->]; [|lra]. left. now apply pow10_increasing.
Qed.

Lemma pow10_sub_log10 (x y : R) :
  0 < x -> 0 < y -> pow10 (log10 x - log10 y) = x / y.
Proof.
  intros Hx Hy. unfold pow10, log10, Rpower.
  replace ((ln x / ln 10 - ln y / ln 10) * ln 10) with (ln x - ln y)
    by (field; apply Rgt_not_eq, ln_10_pos).
  unfold Rminus. rewrite exp_plus, exp_Ropp, !exp_ln by assumption.
  reflexivity.
Qed.

(** One parameter: denormalising the normalised value gives the value
    back, for the log10 kind and for every other kind. *)
Lemma denormalize_normalize_param (p : MetParam) (v : R) :
  val p = Some v ->
  min p < max p ->
  (method p = "log10"%string -> 0 < min p) ->
  min p <= v ->
  exists val_normed,
    normalize_param p = Return val_normed /\
    denormalize_param p val_normed = v.
Proof.
  intros Hval Hrange Hlog Hv. unfold normalize_param, denormalize_param.
  rewrite Hval. destruct (String.eqb (method p) "log10") eqn:Hm.
  - apply String.eqb_eq in Hm. specialize (Hlog Hm).
    eexists. split; [reflexivity|].
    assert (log10 (min p) < log10 (max p)) by now apply log10_increasing.
    replace ((log10 v - log10 (min p)) / (log10 (max p) - log10 (min p))
             * (log10 (max p) - log10 (min p)))
      with (log10 v - log10 (min p)) by (field; lra).
    rewrite pow10_sub_log10 by lra. field. lra.
  - eexists. split; [reflexivity|]. field. lra.
Qed.

Lemma denormalize_normalize_loop (attrs : gmap string MetParam)
    (names : list string) :
  (forall name, In name names ->
     exists p v, attrs !! name = Some p /\ val p = Some v /\
                 min p <= v <= max p /\ min p < max p /\
                 (method p = "log10"%string -> 0 < min p)) ->
  exists normed vals,
    getNormalizedInputs_loop attrs names = Return normed /\
    length normed = length names /\
    getDenormalizedInputs_loop attrs (combine normed names) = Return vals /\
    getInputs_loop attrs names = Return (map Some vals).
Proof.
  induction names as [|name names IH]; intros Hok.
  - exists [], []. repeat split.
  - destruct (Hok name) as (p & v & Hp & Hval & Hv & Hrange & Hlog);
      [now left|].
    destruct IH as (normed & vals & Hnorm & Hlen & Hdenorm & Hin).
    { intros n Hn. apply Hok. now right. }
    destruct (denormalize_normalize_param p v Hval Hrange Hlog (proj1 Hv))
      as (x & Hx & Hback).
    exists (x :: normed), (v :: vals). simpl. unfold getattr.
    rewrite Hp, Hx, Hnorm, Hdenorm, Hin, Hback, Hval, Hlen.
    repeat split.
Qed.

(** C5.  When every declared parameter holds a value inside its range
    [min, max], with [min < max] and [min > 0] for the log10 kind,
    [getDenormalizedInputs] applied to the result of
    [getNormalizedInputs] returns the parameter values, in order. *)
Theorem denormalize_normalize_inputs (self : PhysicalParameters) :
  (forall name, In name (param_list self) ->
     exists p v, attrs self !! name = Some p /\ val p = Some v /\
                 min p <= v <= max p /\ min p < max p /\
                 (method p = "log10"%string -> 0 < min p)) ->
  exists normed vals,
    getNormalizedInputs self = Return normed /\
    length normed = length (param_list self) /\
    getDenormalizedInputs self normed = Return vals /\
    getInputs self = Return (map Some vals).
Proof.
  intros Hok. unfold getNormalizedInputs, getDenormalizedInputs, getInputs.
  now apply denormalize_normalize_loop.
Qed.

Ltac registry_lookup :=
  cbn [attrs PhysicalParameters_init declare plain linkParam];
  repeat (rewrite lookup_insert_ne by discriminate);
  apply lookup_insert_eq.

Ltac registry_range :=
  cbn [min max val method plain linkParam radians];
  unfold radians; pose proof PI_RGT_0;
  repeat split; try lra; try discriminate.

Lemma denormalize_normalize_inputs_witness :
  exists normed vals,
    getNormalizedInputs (PhysicalParameters_init 2451545 []) = Return normed /\
    length normed = 10%nat /\
    getDenormalizedInputs (PhysicalParameters_init 2451545 []) normed
      = Return vals /\
    getInputs (PhysicalParameters_init 2451545 []) = Return (map Some vals).
Proof.
  apply (denormalize_normalize_inputs (PhysicalParameters_init 2451545 [])).
  intros name Hname. simpl in Hname.
  repeat (destruct Hname as [<-|Hname];
          [eexists _, _; split; [registry_lookup | split; [reflexivity|registry_range]]|]).
  contradiction.
Defined.

(** C10.  For non-degenerate normalisation ranges,
    [denormalizeSimulations] after [normalizeSimulations] gives back the
    time, height and length channels, and sends every magnitude [m] to
    [2 * mag_faintest - m]; the magnitude channel comes back unchanged only
    if all of its samples equal [mag_faintest]. *)
Theorem denormalize_normalize_simulations (phys_params : PhysicalParameters)
    (camera_params : ErosionSimParameters) (v_init : MetParam)
    (time_data ht_data len_data mag_data : list R) :
  attrs phys_params !! "v_init" = Some v_init ->
  max v_init <> 0 ->
  IZR (data_length camera_params) <> 0 ->
  fps camera_params <> 0 ->
  max_duration camera_params <> 0 ->
  ht_max camera_params <> ht_min camera_params ->
  mag_faintest camera_params <> mag_brightest camera_params ->
  exists time_normed ht_normed len_normed mag_normed mag_back,
    normalizeSimulations phys_params camera_params
      time_data ht_data len_data mag_data
    = Return (time_normed, ht_normed, len_normed, mag_normed)
    /\ denormalizeSimulations phys_params camera_params
         time_normed ht_normed len_normed mag_normed
       = Return (time_data, ht_data, len_data, mag_back)
    /\ mag_back = map (fun m => 2 * mag_faintest camera_params - m) mag_data
    /\ (mag_back = mag_data <->
        Forall (fun m => m = mag_faintest camera_params) mag_data).
Proof.
  intros Hv Hvmax Hlen Hfps Hdur Hht Hmag.
  unfold normalizeSimulations, denormalizeSimulations, length_range, getattr.
  rewrite Hv. do 5 eexists. split; [reflexivity|].
  rewrite !map_map. split; [|split; [reflexivity|]].
  - do 2 f_equal; [f_equal; [f_equal|]|].
    + rewrite <- (map_id time_data) at 2. apply map_ext. intros x. now field.
    + rewrite <- (map_id ht_data) at 2. apply map_ext. intros x. field. lra.
    + rewrite <- (map_id len_data) at 2. apply map_ext. intros x. now field.
    + apply map_ext. intros x. field. lra.
  - induction mag_data as [|m mag_data IH]; simpl.
    + split; constructor.
    + split.
      * intros [= Hm Hrest]. constructor; [lra | now apply IH].
      * intros Hall. inversion Hall as [|? ? Hm Hrest]; subst.
        f_equal; [lra | now apply IH].
Qed.

Ltac camera_field :=
  cbv [ErosionSimParametersCAMO_init ErosionSimParametersCAMOWide_init
       ErosionSimParameters_init DATA_LENGTH data_length fps max_duration
       ht_max ht_min mag_faintest mag_brightest];
  lra.

Lemma denormalize_normalize_simulations_witness :
  exists time_normed ht_normed len_normed mag_normed mag_back,
    normalizeSimulations (PhysicalParameters_init 2451545 [])
      ErosionSimParametersCAMO_init [0; 1 / 80] [100000; 99000] [0; 400] [7; 5]
    = Return (time_normed, ht_normed, len_normed, mag_normed)
    /\ denormalizeSimulations (PhysicalParameters_init 2451545 [])
         ErosionSimParametersCAMO_init time_normed ht_normed len_normed mag_normed
       = Return ([0; 1 / 80], [100000; 99000], [0; 400], mag_back)
    /\ mag_back = map (fun m => 2 * mag_faintest ErosionSimParametersCAMO_init - m) [7; 5]
    /\ (mag_back = [7; 5] <->
        Forall (fun m => m = mag_faintest ErosionSimParametersCAMO_init) [7; 5]).
Proof.
  apply (denormalize_normalize_simulations (PhysicalParameters_init 2451545 [])
           ErosionSimParametersCAMO_init (plain 11000 72000 "uniform" 30520)).
  - registry_lookup.
  - cbn [max plain]. lra.
  - camera_field.
  - camera_field.
  - camera_field.
  - camera_field.
  - camera_field.
Defined.

End ParameterProofs.

(** ** Further properties of the parallel drivers *)

Module ParallelizerFacts.
Import Py PyDomainParallelizer ParallelizerProofs.

Section Workers.

Context {A B : Type}.
Variable cpu_count : nat.

Implicit Types (generator : nat -> option A) (workerFunc : A -> B).
Implicit Types (resultsCheckFunc : list B -> list B) (w : Process A).

Lemma next_n_drawn_le generator n w o w' :
  next_n generator n w = (o, w') -> drawn w <= drawn w'.
Proof.
  revert w o w'. induction n as [|n IH]; intros w o w' Hrun; simpl in Hrun.
  - injection Hrun as <- <-. lia.
  - unfold mbind, run_bind, bind, next in Hrun.
    destruct (generator (drawn w)) as [a|].
    + destruct (next_n generator n {| drawn := S (drawn w); calls := calls w |})
        as [[rest|e] w2] eqn:Hrest;
        apply IH in Hrest; simpl in Hrest; injection Hrun as <- <-; lia.
    + injection Hrun as <- <-. lia.
Qed.

(** However the loop ends, the worker has been invoked on whole batches
    only; these inputs are the items the generator yields from position
    [drawn w] on, in that order; and their number is bounded by the
    budget. *)
Lemma accumulate_effect fuel generator workerFunc resultsCheckFunc
    req_num n_proc max_runs results total_runs w o w' :
  accumulate fuel generator workerFunc resultsCheckFunc req_num n_proc
    max_runs results total_runs w = Some (o, w') ->
  exists later,
    calls w' = calls w ++ later /\
    map Some later = map generator (seq (drawn w) (length later)) /\
    length later <= Nat.max total_runs (Nat.pred max_runs) + n_proc - total_runs /\
    drawn w + length later <= drawn w' /\
    (returned o = true -> drawn w' = drawn w + length later) /\
    (forall r, o = Return r -> exists good, r = results ++ good).
Proof.
  revert results total_runs w.
  induction fuel as [|fuel IH]; intros results total_runs w Hrun; simpl in Hrun.
  - destruct (length results <? req_num); [discriminate|].
    injection Hrun as <- <-. exists []. rewrite app_nil_r. simpl.
    repeat split; try lia. intros r [= <-]. exists []. now rewrite app_nil_r.
  - destruct (length results <? req_num).
    2:{ injection Hrun as <- <-. exists []. rewrite app_nil_r. simpl.
        repeat split; try lia. intros r [= <-]. exists [].
        now rewrite app_nil_r. }
    destruct (next_n generator n_proc w) as [[input_list|e] w1] eqn:Hnext.
    2:{ injection Hrun as <- <-.
        pose proof (next_n_drawn_le _ _ _ _ _ Hnext) as Hmono.
        apply next_n_effect in Hnext as [Hcalls _].
        exists []. rewrite app_nil_r. simpl.
        repeat split; try lia; try discriminate. exact Hcalls. }
    pose proof (next_n_values _ _ _ _ _ Hnext) as Hvalues.
    apply next_n_effect in Hnext as (Hcalls & Hlen & Hdrawn).
    destruct (max_runs <=? total_runs + length input_list) eqn:Hcap.
    + injection Hrun as <- <-. exists input_list. simpl.
      rewrite Hcalls, Hlen. repeat split; try lia; try assumption.
      intros r [= <-]. eauto.
    + apply Nat.leb_gt in Hcap.
      apply IH in Hrun as (later & Hlater & Hitems & Hbound & Hpos & Hret & Hres).
      simpl in Hlater, Hitems, Hpos, Hret.
      exists (input_list ++ later).
      rewrite Hlater, Hcalls, app_assoc, length_app, Hlen.
      repeat split; try lia.
      * rewrite seq_app, !map_app, Hvalues, Hitems, <- Hdrawn. reflexivity.
      * intros Ho. specialize (Hret Ho). lia.
      * intros r Hr. destruct (Hres r Hr) as [good ->].
        rewrite <- app_assoc. eauto.
Qed.

(** The inputs of a run.  However [parallelComputeGenerator] ends, the
    worker has been invoked exactly on the items that the generator
    yields from its current position on, each once and in the generator's
    order, and on no more than [max (req_num, budget - 1) + n_proc] of
    them: a budget above [req_num] is overshot by fewer than [n_proc]
    runs, a budget of [req_num] or less does not limit the initial batch.
    When a list is returned, no item was pulled from the generator without
    being run. *)
Theorem parallelComputeGenerator_inputs generator workerFunc resultsCheckFunc
    req_num n_proc max_runs w o w' :
  parallelComputeGenerator cpu_count generator workerFunc resultsCheckFunc
    req_num n_proc max_runs w = Some (o, w') ->
  exists inputs,
    calls w' = calls w ++ inputs /\
    map Some inputs = map generator (seq (drawn w) (length inputs)) /\
    length inputs <=
      Nat.max req_num (Nat.pred (run_budget req_num max_runs))
      + default_procs cpu_count n_proc /\
    (req_num < run_budget req_num max_runs ->
     length inputs
     < run_budget req_num max_runs + default_procs cpu_count n_proc) /\
    (returned o = true -> drawn w' = drawn w + length inputs).
Proof.
  intros Hrun.
  enough (exists inputs,
            calls w' = calls w ++ inputs /\
            map Some inputs = map generator (seq (drawn w) (length inputs)) /\
            length inputs <=
              Nat.max req_num (Nat.pred (run_budget req_num max_runs))
              + default_procs cpu_count n_proc /\
            (returned o = true -> drawn w' = drawn w + length inputs))
    as (inputs & Hcalls & Hitems & Hbound & Hret).
  { exists inputs. repeat split; try assumption. intros Hbudget. lia. }
  revert Hrun. unfold parallelComputeGenerator, Pool, pool_map. intros Hrun.
  destruct (default_procs cpu_count n_proc <? 1); cbn -[accumulate] in Hrun.
  { injection Hrun as <- <-. exists []. rewrite app_nil_r. simpl.
    repeat split; try lia; discriminate. }
  destruct (next_n generator req_num w) as [[input_list|e] w1] eqn:Hnext;
    cbn -[accumulate] in Hrun.
  2:{ injection Hrun as <- <-. apply next_n_effect in Hnext as [Hcalls _].
      exists []. rewrite app_nil_r. simpl.
      repeat split; try lia; try discriminate. exact Hcalls. }
  pose proof (next_n_values _ _ _ _ _ Hnext) as Hvalues.
  apply next_n_effect in Hnext as (Hcalls & Hlen & Hdrawn).
  destruct (length (resultsCheckFunc (map workerFunc input_list)) =? 0).
  { injection Hrun as <- <-. exists input_list. simpl.
    rewrite Hcalls, Hlen. repeat split; try lia; assumption. }
  match type of Hrun with
  | context [accumulate ?f ?g ?wf ?rc ?rn ?np ?mr ?rs ?tr ?w0] =>
      destruct (accumulate f g wf rc rn np mr rs tr w0)
        as [[o3 w3]|] eqn:Hloop
  end; [|discriminate].
  apply accumulate_effect in Hloop
    as (later & Hlater & Hitems & Hbound & Hpos & Hret & _).
  simpl in Hlater, Hitems, Hpos, Hret, Hbound. rewrite Hlen in Hbound.
  assert (w' = w3 /\ returned o = returned o3) as [-> Ho].
  { destruct o3; injection Hrun as <- <-; auto. }
  exists (input_list ++ later).
  rewrite Hlater, Hcalls, app_assoc, length_app, Hlen.
  repeat split; try lia.
  - rewrite seq_app, !map_app, Hvalues, Hitems, <- Hdrawn. reflexivity.
  - rewrite Ho. intros Ho3. specialize (Hret Ho3). lia.
Qed.

(** What the loop hands back, round by round: the results it started
    with followed by the good results of the rounds it ran, each round on
    the next [n_proc] inputs it submitted. *)
Lemma accumulate_result fuel generator workerFunc resultsCheckFunc
    req_num n_proc max_runs results total_runs w r w' :
  accumulate fuel generator workerFunc resultsCheckFunc req_num n_proc
    max_runs results total_runs w = Some (Return r, w') ->
  exists k later,
    calls w' = calls w ++ later /\
    length later = k * n_proc /\
    r = results ++ later_rounds workerFunc resultsCheckFunc n_proc k later.
Proof.
  revert results total_runs w.
  induction fuel as [|fuel IH]; intros results total_runs w Hrun; simpl in Hrun.
  - destruct (length results <? req_num); [discriminate|].
    injection Hrun as <- <-. exists 0, []. now rewrite !app_nil_r.
  - destruct (length results <? req_num).
    2:{ injection Hrun as <- <-. exists 0, []. now rewrite !app_nil_r. }
    destruct (next_n generator n_proc w) as [[input_list|e] w1] eqn:Hnext;
      [|discriminate].
    apply next_n_effect in Hnext as (Hcalls & Hlen & _).
    destruct (max_runs <=? total_runs + length input_list).
    + injection Hrun as <- <-. exists 1, input_list. simpl.
      rewrite Hcalls, app_nil_r, (firstn_all2 input_list) by lia.
      split; [reflexivity|]. split; [lia | reflexivity].
    + apply IH in Hrun as (k & later & Hlater & Hklen & ->).
      simpl in Hlater. exists (S k), (input_list ++ later).
      rewrite Hlater, Hcalls, length_app, Hlen, Hklen, <- !app_assoc.
      split; [reflexivity|]. split; [simpl; lia|]. cbn [later_rounds].
      rewrite firstn_app, skipn_app, Hlen, Nat.sub_diag, firstn_O, skipn_O.
      rewrite (firstn_all2 input_list), (skipn_all2 input_list), app_nil_r by lia. reflexivity.
Qed.

(** The returned list, from the inputs that were run.  When
    [parallelComputeGenerator] returns a list, the worker has been run
    on the initial batch of [req_num] inputs and on some number [k] of
    later rounds of [n_proc] inputs, and the list is the first [req_num]
    entries of the filtered results of the initial batch followed by the
    filtered results of each later round, in the order of the rounds. *)
Theorem parallelComputeGenerator_result_rounds generator workerFunc
    resultsCheckFunc req_num n_proc max_runs w r w' :
  parallelComputeGenerator cpu_count generator workerFunc resultsCheckFunc
    req_num n_proc max_runs w = Some (Return r, w') ->
  exists k inputs,
    calls w' = calls w ++ inputs /\
    length inputs = req_num + k * default_procs cpu_count n_proc /\
    r = firstn req_num
          (accumulated workerFunc resultsCheckFunc req_num
             (default_procs cpu_count n_proc) k inputs).
Proof.
  unfold parallelComputeGenerator, Pool, pool_map. intros Hrun.
  destruct (default_procs cpu_count n_proc <? 1); cbn -[accumulate] in Hrun;
    [discriminate|].
  destruct (next_n generator req_num w) as [[input_list|e] w1] eqn:Hnext;
    cbn -[accumulate] in Hrun; [|discriminate].
  apply next_n_effect in Hnext as (Hcalls & Hlen & _).
  destruct (length (resultsCheckFunc (map workerFunc input_list)) =? 0) eqn:Hgood.
  { injection Hrun as <- <-. apply Nat.eqb_eq, length_zero_iff_nil in Hgood.
    exists 0, input_list. unfold accumulated. simpl.
    rewrite Hcalls, (firstn_all2 input_list), Hgood by lia.
    split; [reflexivity|]. split; [lia|]. now rewrite firstn_nil. }
  match type of Hrun with
  | context [accumulate ?f ?g ?wf ?rc ?rn ?np ?mr ?rs ?tr ?w0] =>
      destruct (accumulate f g wf rc rn np mr rs tr w0)
        as [[[rs'|e] w3]|] eqn:Hloop
  end; try discriminate.
  injection Hrun as <- <-.
  apply accumulate_result in Hloop as (k & later & Hlater & Hklen & ->).
  simpl in Hlater. exists k, (input_list ++ later).
  rewrite Hlater, Hcalls, length_app, Hlen, Hklen, <- app_assoc.
  split; [reflexivity|]. split; [reflexivity|]. unfold accumulated.
  rewrite (firstn_app req_num input_list later),
    (skipn_app req_num input_list later), Hlen, Nat.sub_diag, firstn_O, skipn_O.
  rewrite (firstn_all2 input_list), (skipn_all2 input_list), app_nil_r by lia. simpl.
  unfold truncate. destruct (req_num <? _) eqn:Hlt; [reflexivity|].
  apply Nat.ltb_ge in Hlt. now rewrite firstn_all2.
Qed.

(** A generator that runs dry during the initial batch: the call raises
    [StopIteration] and the worker has not been invoked at all. *)
Theorem parallelComputeGenerator_generator_exhausted generator workerFunc
    resultsCheckFunc req_num n_proc max_runs w k :
  1 <= default_procs cpu_count n_proc ->
  k < req_num ->
  generator (drawn w + k) = None ->
  exists w',
    parallelComputeGenerator cpu_count generator workerFunc resultsCheckFunc
      req_num n_proc max_runs w = Some (Raise StopIteration, w')
    /\ calls w' = calls w.
Proof.
  intros Hproc Hk Hnone. unfold parallelComputeGenerator, Pool.
  destruct (default_procs cpu_count n_proc <? 1) eqn:Hp.
  { apply Nat.ltb_lt in Hp. lia. }
  cbn -[accumulate].
  destruct (next_n generator req_num w) as [[input_list|e] w1] eqn:Hnext.
  - exfalso. pose proof (next_n_values _ _ _ _ _ Hnext) as Hvalues.
    assert (Hnth : nth_error (map generator (seq (drawn w) req_num)) k = Some None).
    { rewrite nth_error_map, nth_error_seq.
      destruct (Nat.ltb_spec k req_num); [|lia]. simpl. now rewrite Hnone. }
    rewrite <- Hvalues, nth_error_map in Hnth.
    destruct (nth_error input_list k); discriminate.
  - apply next_n_effect in Hnext as [Hcalls ->]. eauto.
Qed.

End Workers.

Lemma domainParallelizer_pooled_witness :
  domainParallelizer 8 [("a", 2); ("b", 4); ("c", 6)] snd (Some 3) (mkProcess 0 [])
  = (Return [2; 4; 6], mkProcess 0 [("a", 2); ("b", 4); ("c", 6)]).
Proof.
  exact (domainParallelizer_pooled 8 [("a", 2); ("b", 4); ("c", 6)] snd 3
           (mkProcess 0 []) ltac:(lia)).
Defined.

Lemma parallelComputeGenerator_inputs_witness :
  exists inputs,
    [0; 1; 2; 3; 4] = [] ++ inputs /\
    map Some inputs = map (fun i => Some i) (seq 0 (length inputs)) /\
    length inputs <= Nat.max 3 (Nat.pred (run_budget 3 (Some 5))) + 2 /\
    (3 < run_budget 3 (Some 5) -> length inputs < run_budget 3 (Some 5) + 2) /\
    (true = true -> 5 = 0 + length inputs).
Proof.
  exact (parallelComputeGenerator_inputs 8 (fun i => Some i)
           (fun i => Nat.even i) (List.filter (fun good : bool => good)) 3
           (Some 2) (Some 5) (mkProcess 0 [])
           (Return [true; true; true]) (mkProcess 5 [0; 1; 2; 3; 4])
           eq_refl).
Defined.

Lemma parallelComputeGenerator_result_rounds_witness :
  exists k inputs,
    [0; 1; 2; 3; 4] = [] ++ inputs /\
    length inputs = 3 + k * 2 /\
    [true; true; true]
    = firstn 3 (accumulated (fun i => Nat.even i)
                  (List.filter (fun good : bool => good)) 3 2 k inputs).
Proof.
  exact (parallelComputeGenerator_result_rounds 8 (fun i => Some i)
           (fun i => Nat.even i) (List.filter (fun good : bool => good)) 3
           (Some 2) (Some 5) (mkProcess 0 [])
           [true; true; true] (mkProcess 5 [0; 1; 2; 3; 4]) eq_refl).
Defined.

Lemma parallelComputeGenerator_generator_exhausted_witness :
  exists w',
    parallelComputeGenerator 8 (fun i => if i <? 2 then Some i else None)
      (fun i => Nat.even i) (List.filter (fun good : bool => good)) 3
      (Some 2) None (mkProcess 0 [])
    = Some (Raise StopIteration, w')
    /\ calls w' = [].
Proof.
  exact (parallelComputeGenerator_generator_exhausted 8
           (fun i => if i <? 2 then Some i else None)
           (fun i => Nat.even i) (List.filter (fun good : bool => good)) 3
           (Some 2) None (mkProcess 0 []) 2
           ltac:(simpl; lia) ltac:(lia) eq_refl).
Defined.

End ParallelizerFacts.

(** ** Drawing parameter values *)

Module SamplingProofs.
Import Py GenerateSimulations ParameterShape ParameterProofs.

#[local] Open Scope R_scope.

Lemma same_shape_refl p : same_shape p p.
Proof. repeat split; auto. Qed.

Lemma same_shape_trans p q r : same_shape p q -> same_shape q r -> same_shape p r.
Proof.
  intros (? & ? & ? & ? & ? & ?) (? & ? & ? & ? & ? & ?).
  repeat split; try congruence. auto.
Qed.

Lemma evolves_refl a : evolves a a.
Proof. intros name. destruct (a !! name); [apply same_shape_refl | exact I]. Qed.

Lemma evolves_trans a b c : evolves a b -> evolves b c -> evolves a c.
Proof.
  intros Hab Hbc name. specialize (Hab name). specialize (Hbc name).
  destruct (a !! name), (b !! name), (c !! name); try contradiction; auto.
  eapply same_shape_trans; eassumption.
Qed.

Lemma evolves_insert a name p p' :
  a !! name = Some p -> same_shape p p' -> evolves a (<[name := p']> a).
Proof.
  intros Hp Hshape other. destruct (decide (name = other)) as [<-|Hne].
  - now rewrite Hp, lookup_insert_eq.
  - rewrite lookup_insert_ne by exact Hne.
    destruct (a !! other); [apply same_shape_refl | exact I].
Qed.

Lemma evolves_lookup a a' name p :
  evolves a a' -> a !! name = Some p ->
  exists p', a' !! name = Some p' /\ same_shape p p'.
Proof.
  intros Hev Hp. specialize (Hev name). rewrite Hp in Hev.
  destruct (a' !! name) as [p'|]; [eauto | contradiction].
Qed.

Lemma same_shape_linked p p' : same_shape p p' -> linked p' = linked p.
Proof.
  intros (_ & _ & _ & _ & Hlink & _). unfold linked, link_is. now rewrite Hlink.
Qed.

Lemma well_formed_evolves a a' names :
  evolves a a' -> well_formed a names -> well_formed a' names.
Proof.
  intros Hev Hwf name Hin. destruct (Hwf name Hin) as (p & Hp & Hlink).
  destruct (evolves_lookup _ _ _ _ Hev Hp) as (p' & Hp' & Hshape).
  exists p'. split; [exact Hp'|]. intros Hlinked.
  rewrite (same_shape_linked _ _ Hshape) in Hlinked.
  destruct (Hlink Hlinked) as (target & q & Htarget & Hq & Hval).
  destruct (evolves_lookup _ _ _ _ Hev Hq) as (q' & Hq' & Hqshape).
  exists target, q'. destruct Hshape as (_ & _ & _ & _ & Hl & _).
  rewrite Hl. repeat split; auto. now apply Hqshape.
Qed.

Lemma well_formed_tail a name names :
  well_formed a (name :: names) -> well_formed a names.
Proof. intros Hwf other Hin. apply Hwf. now right. Qed.

(** The bounds of a draw, case by case. *)
Lemma draw_bounds_unlinked a p :
  linked p = false -> draw_bounds a p = Return (min p, max p).
Proof.
  unfold linked, draw_bounds. intros Hl. apply orb_false_iff in Hl as [-> ->].
  reflexivity.
Qed.

Lemma draw_bounds_greater a p target q rv :
  link_method p = (Some "greater"%string, Some target) ->
  a !! target = Some q -> val q = Some rv ->
  draw_bounds a p = Return (Rmax rv (min p), max p).
Proof.
  intros Hlink Hq Hrv. unfold draw_bounds, link_is, linked_val, getattr.
  rewrite Hlink. simpl. now rewrite Hq, Hrv.
Qed.

Lemma draw_bounds_less a p target q rv :
  link_method p = (Some "less"%string, Some target) ->
  a !! target = Some q -> val q = Some rv ->
  draw_bounds a p = Return (min p, Rmin (max p) rv).
Proof.
  intros Hlink Hq Hrv. unfold draw_bounds, link_is, linked_val, getattr.
  rewrite Hlink. simpl. now rewrite Hq, Hrv.
Qed.

Lemma draw_bounds_returns a p :
  (linked p = true ->
     exists target q, snd (link_method p) = Some target /\
                      a !! target = Some q /\ is_Some (val q)) ->
  exists lo hi, draw_bounds a p = Return (lo, hi).
Proof.
  intros Hlink. unfold draw_bounds.
  destruct (link_is "greater" p) eqn:Hg.
  - destruct Hlink as (target & q & Ht & Hq & [rv Hrv]).
    { unfold linked. now rewrite Hg. }
    unfold linked_val, getattr. rewrite Ht, Hq, Hrv. eauto.
  - destruct (link_is "less" p) eqn:Hl; [|eauto].
    destruct Hlink as (target & q & Ht & Hq & [rv Hrv]).
    { unfold linked. now rewrite Hg, Hl. }
    unfold linked_val, getattr. rewrite Ht, Hq, Hrv. eauto.
Qed.

(** *** The fixed mask *)

Lemma with_fixed_twice b b' p : with_fixed b' (with_fixed b p) = with_fixed b' p.
Proof. reflexivity. Qed.

Lemma with_fixed_same p : with_fixed (fixed p) p = p.
Proof. now destruct p. Qed.

(** A mask that covers the declared names sets the flag of each of them
    and leaves everything else alone. *)
Lemma set_fixed_returns names mask self :
  List.NoDup names ->
  (length names <= length mask)%nat ->
  (forall name, In name names -> is_Some (attrs self !! name)) ->
  exists self',
    set_fixed names mask self = Return self' /\
    param_list self' = param_list self /\
    jdt_ref self' = jdt_ref self /\ dens_co self' = dens_co self /\
    P_0M self' = P_0M self /\
    forall name,
      match attrs self !! name with
      | Some p =>
          exists b, attrs self' !! name = Some (with_fixed b p) /\
                    (forall i, nth_error names i = Some name ->
                               nth_error mask i = Some b) /\
                    (~ In name names -> b = fixed p)
      | None => attrs self' !! name = None
      end.
Proof.
  revert mask self.
  induction names as [|n names IH]; intros mask self Hnodup Hlen Hbound.
  - exists self. simpl. repeat split. intros name.
    destruct (attrs self !! name) as [p|] eqn:Hp; [|reflexivity].
    exists (fixed p). rewrite with_fixed_same. repeat split.
    intros i Hi. now destruct i.
  - destruct mask as [|b mask]; [simpl in Hlen; lia|].
    apply List.NoDup_cons_iff in Hnodup as [Hfresh Hnodup].
    destruct (Hbound n) as [q Hq]; [now left|].
    simpl. unfold getattr. rewrite Hq.
    destruct (IH mask (setattr n (with_fixed b q) self) Hnodup)
      as (self' & Hrun & Hlist & Hjd & Hdens & Hp0 & Hattrs).
    { simpl in Hlen. lia. }
    { intros name Hin. simpl. destruct (decide (n = name)) as [->|Hne].
      - rewrite lookup_insert_eq. eauto.
      - rewrite lookup_insert_ne by exact Hne. apply Hbound. now right. }
    exists self'. split; [exact Hrun|]. repeat split; try assumption.
    intros name. specialize (Hattrs name). simpl in Hattrs.
    destruct (decide (n = name)) as [->|Hne].
    + rewrite lookup_insert_eq in Hattrs. rewrite Hq.
      destruct Hattrs as (b' & Hname & _ & Hb').
      specialize (Hb' Hfresh). simpl in Hb'. subst b'.
      exists b. split; [exact Hname|]. split.
      * intros [|i] Hi; [reflexivity|]. simpl in Hi.
        apply nth_error_In in Hi. contradiction.
      * intros Hnot. exfalso. apply Hnot. now left.
    + rewrite lookup_insert_ne in Hattrs by exact Hne.
      destruct (attrs self !! name) as [p|]; [|exact Hattrs].
      destruct Hattrs as (b' & Hname & Hidx & Hb').
      exists b'. split; [exact Hname|]. split.
      * intros [|i] Hi; simpl in Hi; [congruence | now apply Hidx].
      * intros Hnot. apply Hb'. intros Hin. apply Hnot. now right.
Qed.

(** A mask with fewer entries than there are declared names makes the
    loop at lines 456-457 fail with [IndexError]. *)
Lemma set_fixed_short_mask names mask self :
  (length mask < length names)%nat ->
  (forall name, In name names -> is_Some (attrs self !! name)) ->
  set_fixed names mask self = Raise IndexError.
Proof.
  revert mask self.
  induction names as [|n names IH]; intros mask self Hlen Hbound.
  - simpl in Hlen. lia.
  - destruct mask as [|b mask]; [reflexivity|].
    destruct (Hbound n) as [q Hq]; [now left|].
    simpl. unfold getattr. rewrite Hq. apply IH.
    + simpl in Hlen. lia.
    + intros name Hin. simpl. destruct (decide (n = name)) as [->|Hne].
      * rewrite lookup_insert_eq. eauto.
      * rewrite lookup_insert_ne by exact Hne. apply Hbound. now right.
Qed.

(** *** The parameters of [PhysicalParameters.__init__] *)

Lemma registry_param_list jd dens :
  param_list (PhysicalParameters_init jd dens) = registry_names.
Proof. reflexivity. Qed.

Lemma registry_names_nodup : List.NoDup registry_names.
Proof.
  unfold registry_names.
  repeat (apply List.NoDup_cons;
          [simpl; intros Hin;
           repeat (destruct Hin as [Hin|Hin]; [discriminate|]); exact Hin|]).
  apply List.NoDup_nil.
Qed.

(** Reads a binding of the declared parameters off a hypothesis
    [attrs (PhysicalParameters_init _ _) !! name = Some p] at the head of
    the goal. *)
Ltac registry_lookup_in :=
  cbn [attrs PhysicalParameters_init declare plain linkParam];
  repeat (rewrite lookup_insert_ne by discriminate);
  rewrite lookup_insert_eq;
  let H := fresh in intros H; injection H as <-; reflexivity.

Ltac registry_cases H :=
  unfold registry_names in H; simpl in H;
  repeat (destruct H as [<-|H]); [..|contradiction].

(** What is declared: ten parameters, each with a default inside a proper
    range; the two kinds of draw are the only ones used; the log10 ranges
    are positive; and [erosion_mass_max] alone carries a link. *)
Lemma registry_declared jd dens name :
  In name registry_names ->
  exists p,
    attrs (PhysicalParameters_init jd dens) !! name = Some p /\
    fixed p = false /\ min p <= max p /\ drawable p (min p) /\ in_range p /\
    (name <> "erosion_mass_max"%string -> linked p = false).
Proof.
  intros Hin. registry_cases Hin;
    (eexists; split; [registry_lookup|];
     split; [reflexivity|];
     split; [registry_range|];
     split; [first [left; reflexivity | right; split; [reflexivity|registry_range]]|];
     split; [eexists; split; [reflexivity|registry_range]|];
     first [intros _; reflexivity | intros Hne; now contradiction Hne]).
Qed.

Lemma registry_well_formed jd dens :
  well_formed (attrs (PhysicalParameters_init jd dens))
    (param_list (PhysicalParameters_init jd dens)).
Proof.
  intros name Hin. rewrite registry_param_list in Hin.
  destruct (string_dec name "erosion_mass_max") as [->|Hne].
  - eexists. split; [registry_lookup|]. intros _.
    exists "erosion_mass_min"%string. eexists.
    split; [reflexivity|]. split; [registry_lookup|]. simpl. eauto.
  - destruct (registry_declared jd dens name Hin) as (p & Hp & _ & _ & _ & _ & Hl).
    exists p. split; [exact Hp|]. rewrite (Hl Hne). discriminate.
Qed.

Lemma uniform_at_in_bounds u :
  0 <= u <= 1 ->
  forall (st : unit) lo hi, lo <= hi -> lo <= fst (uniform_at u st lo hi) <= hi.
Proof. intros Hu st lo hi Hle. simpl. nra. Qed.

Section Sampling.

Variable RandomState : Type.
Variable seed_state : option Z -> RandomState.
Variable uniform : RandomState -> R -> R -> R * RandomState.

#[local] Abbreviation generateVal := (generateVal RandomState uniform).
#[local] Abbreviation sample_params := (sample_params RandomState uniform).
#[local] Abbreviation getConst := (getConst RandomState seed_state uniform).

Lemma generateVal_shape a p st p' st' :
  generateVal a p st = Return (p', st') -> same_shape p p'.
Proof.
  unfold generateVal. destruct (fixed p).
  { intros [= <- <-]. apply same_shape_refl. }
  destruct (draw_bounds a p) as [[lo hi]|e]; [|discriminate].
  destruct (String.eqb (method p) "uniform").
  { destruct (uniform st lo hi) as [u st1]. intros [= <- <-].
    repeat split; simpl; eauto. }
  destruct (String.eqb (method p) "log10").
  { destruct (uniform st (log10 lo) (log10 hi)) as [u st1]. intros [= <- <-].
    repeat split; simpl; eauto. }
  intros [= <- <-]. apply same_shape_refl.
Qed.

(** A fixed parameter is handed back as it is, and the generator is not
    consulted. *)
Lemma generateVal_fixed a p st :
  fixed p = true -> generateVal a p st = Return (p, st).
Proof. unfold generateVal. now intros ->. Qed.

Lemma generateVal_returns a p st :
  (linked p = true ->
     exists target q, snd (link_method p) = Some target /\
                      a !! target = Some q /\ is_Some (val q)) ->
  exists p' st', generateVal a p st = Return (p', st').
Proof.
  intros Hlink. unfold generateVal. destruct (fixed p); [eauto|].
  destruct (draw_bounds_returns a p Hlink) as (lo & hi & ->).
  destruct (String.eqb (method p) "uniform").
  { destruct (uniform st lo hi). eauto. }
  destruct (String.eqb (method p) "log10"); [|eauto].
  destruct (uniform st (log10 lo) (log10 hi)). eauto.
Qed.

(** One step of the loop of [getConst]. *)
Lemma sample_params_step override name rest self st const p :
  attrs self !! name = Some p ->
  sample_params override (name :: rest) self st const =
    if needs_draw override p then
      match generateVal (attrs self) p st with
      | Raise e => Raise e
      | Return (p', st') =>
          sample_params override rest (setattr name p' self) st'
            (assign name (val p') const)
      end
    else sample_params override rest self st (assign name (val p) const).
Proof.
  intros Hp. simpl. unfold getattr. rewrite Hp.
  destruct (needs_draw override p); [|reflexivity].
  destruct (generateVal (attrs self) p st) as [[p' st']|e]; reflexivity.
Qed.

Lemma sample_params_app override names1 names2 self st const :
  sample_params override (names1 ++ names2) self st const =
    match sample_params override names1 self st const with
    | Raise e => Raise e
    | Return (self1, st1, const1) =>
        sample_params override names2 self1 st1 const1
    end.
Proof.
  revert self st const.
  induction names1 as [|name names1 IH]; intros self st const; [reflexivity|].
  simpl. destruct (getattr (attrs self) name) as [p|e]; [|reflexivity].
  destruct (needs_draw override p); [|apply IH].
  destruct (generateVal (attrs self) p st) as [[p' st']|e]; [apply IH|reflexivity].
Qed.

(** The loop changes values only: names, ranges, kinds, links and the
    other attributes of the object stay as they are. *)
Lemma sample_params_evolves override names self st const self' st' const' :
  sample_params override names self st const = Return (self', st', const') ->
  evolves (attrs self) (attrs self') /\
  param_list self' = param_list self /\
  jdt_ref self' = jdt_ref self /\ dens_co self' = dens_co self /\
  P_0M self' = P_0M self.
Proof.
  revert self st const.
  induction names as [|name names IH]; intros self st const Hrun.
  - injection Hrun as <- <- <-. split; [apply evolves_refl | auto].
  - simpl in Hrun. unfold getattr in Hrun.
    destruct (attrs self !! name) as [p|] eqn:Hp; [|discriminate].
    destruct (needs_draw override p); [|now apply IH in Hrun].
    destruct (generateVal (attrs self) p st) as [[p1 st1]|e] eqn:Hgen;
      [|discriminate].
    apply IH in Hrun as (Hev & Hlist & Hjd & Hdens & Hp0). simpl in *.
    split; [|auto].
    eapply evolves_trans; [|exact Hev].
    eapply evolves_insert; [exact Hp|]. eapply generateVal_shape, Hgen.
Qed.

(** On a well-formed parameter set the loop runs to its end. *)
Lemma sample_params_returns override names self st const :
  well_formed (attrs self) names ->
  exists self' st' const',
    sample_params override names self st const = Return (self', st', const').
Proof.
  revert self st const.
  induction names as [|name names IH]; intros self st const Hwf; [simpl; eauto|].
  destruct (Hwf name) as (p & Hp & Hlink); [now left|].
  rewrite (sample_params_step _ _ _ _ _ _ _ Hp).
  destruct (needs_draw override p).
  - destruct (generateVal_returns (attrs self) p st Hlink) as (p' & st' & Hgen).
    rewrite Hgen. apply IH. simpl.
    eapply well_formed_evolves.
    + eapply evolves_insert; [exact Hp|]. eapply generateVal_shape, Hgen.
    + eapply well_formed_tail, Hwf.
  - apply IH. eapply well_formed_tail, Hwf.
Qed.

(** Names that the loop does not visit keep their parameter and their
    entry in the constants; a visited name ends with its value copied to
    the constants. *)
Lemma sample_params_assigned override names self st const self' st' const' :
  sample_params override names self st const = Return (self', st', const') ->
  forall name,
    (In name names ->
       exists p', attrs self' !! name = Some p' /\
                  assigned const' !! name = Some (val p')) /\
    (~ In name names ->
       attrs self' !! name = attrs self !! name /\
       assigned const' !! name = assigned const !! name).
Proof.
  revert self st const.
  induction names as [|n names IH]; intros self st const Hrun name.
  - injection Hrun as <- <- <-. split; [intros [] | auto].
  - simpl in Hrun. unfold getattr in Hrun.
    destruct (attrs self !! n) as [p|] eqn:Hp; [|discriminate].
    assert (Hstep : exists self1 st1 p1,
               sample_params override names self1 st1
                 (assign n (val p1) const) = Return (self', st', const') /\
               attrs self1 !! n = Some p1 /\
               forall other, other <> n ->
                 attrs self1 !! other = attrs self !! other).
    { destruct (needs_draw override p).
      - destruct (generateVal (attrs self) p st) as [[p1 st1]|e]; [|discriminate].
        exists (setattr n p1 self), st1, p1. simpl.
        split; [exact Hrun|]. split; [apply lookup_insert_eq|].
        intros other Hne. now apply lookup_insert_ne.
      - exists self, st, p. auto. }
    destruct Hstep as (self1 & st1 & p1 & Hrest & Hp1 & Hframe).
    destruct (IH _ _ _ Hrest name) as [Hin Hout].
    destruct (in_dec string_dec name names) as [Hn|Hn].
    + split; [intros _; now apply Hin | intros Hnot; exfalso; apply Hnot; now right].
    + destruct (Hout Hn) as [Hattrs Hassigned]. split.
      * intros [->|Hn']; [|contradiction].
        exists p1. rewrite Hattrs, Hassigned. split; [exact Hp1|].
        simpl. apply lookup_insert_eq.
      * intros Hnot. assert (name <> n) by (intros ->; apply Hnot; now left).
        rewrite Hattrs, Hassigned, Hframe by assumption. split; [reflexivity|].
        simpl. now apply lookup_insert_ne.
Qed.

(** A fixed parameter goes through the loop untouched. *)
Lemma sample_params_fixed override names self st const self' st' const' name p :
  sample_params override names self st const = Return (self', st', const') ->
  attrs self !! name = Some p -> fixed p = true ->
  attrs self' !! name = Some p.
Proof.
  revert self st const.
  induction names as [|n names IH]; intros self st const Hrun Hp Hfixed.
  - now injection Hrun as <- <- <-.
  - simpl in Hrun. unfold getattr in Hrun.
    destruct (attrs self !! n) as [q|] eqn:Hq; [|discriminate].
    destruct (needs_draw override q); [|now apply IH in Hrun].
    destruct (generateVal (attrs self) q st) as [[q1 st1]|e] eqn:Hgen;
      [|discriminate].
    apply IH in Hrun; [exact Hrun| |exact Hfixed]. simpl.
    destruct (decide (n = name)) as [->|Hne].
    + rewrite Hp in Hq. injection Hq as <-.
      rewrite generateVal_fixed in Hgen by exact Hfixed.
      injection Hgen as <- <-. apply lookup_insert_eq.
    + now rewrite lookup_insert_ne.
Qed.

Lemma needs_draw_override p : needs_draw true p = true.
Proof. unfold needs_draw. now destruct (val p). Qed.

Lemma needs_draw_false_iff p : needs_draw false p = false <-> in_range p.
Proof.
  unfold needs_draw, in_range. destruct (val p) as [v|].
  - simpl. rewrite orb_false_iff, !bool_decide_eq_false. split.
    + intros [Hmax Hmin]. exists v. split; [reflexivity | lra].
    + intros (v' & [= <-] & Hv). lra.
  - split; [discriminate | intros (v & Hv & _); discriminate].
Qed.

(** A parameter that is not drawn again was found inside its range. *)
Lemma needs_draw_false_in_range override p :
  needs_draw override p = false -> in_range p.
Proof.
  destruct override; [now rewrite needs_draw_override|].
  apply needs_draw_false_iff.
Qed.

(** From here on the generator is assumed to honour its bounds. *)
Hypothesis uniform_in_bounds :
  forall st lo hi, lo <= hi -> lo <= fst (uniform st lo hi) <= hi.

(** A draw lands between the bounds computed at lines 71-77. *)
Lemma generateVal_in_bounds a p st lo hi :
  fixed p = false ->
  draw_bounds a p = Return (lo, hi) ->
  lo <= hi ->
  drawable p lo ->
  exists v st',
    generateVal a p st = Return (with_val (Some v) p, st') /\ lo <= v <= hi.
Proof using uniform_in_bounds.
  intros Hfixed Hbounds Hle Hdraw. unfold generateVal.
  rewrite Hfixed, Hbounds. destruct Hdraw as [Hm|[Hm Hpos]]; rewrite Hm; simpl.
  - pose proof (uniform_in_bounds st lo hi Hle) as Hu.
    destruct (uniform st lo hi) as [u st']. eauto.
  - pose proof (uniform_in_bounds st (log10 lo) (log10 hi)
                  (log10_le lo hi Hpos Hle)) as Hu.
    destruct (uniform st (log10 lo) (log10 hi)) as [u st']. simpl in Hu.
    exists (pow10 u), st'. split; [reflexivity|].
    split.
    + rewrite <- (pow10_log10 lo) by exact Hpos. apply pow10_le. tauto.
    + rewrite <- (pow10_log10 hi) by lra. apply pow10_le. tauto.
Qed.

(** A parameter without a link that is not fixed ends the loop inside its
    range, if the loop visits it or if it was inside the range before. *)
Lemma sample_params_in_range override names self st const self' st' const' name p :
  sample_params override names self st const = Return (self', st', const') ->
  attrs self !! name = Some p ->
  fixed p = false -> linked p = false ->
  min p <= max p -> drawable p (min p) ->
  In name names \/ in_range p ->
  exists p', attrs self' !! name = Some p' /\ same_shape p p' /\ in_range p'.
Proof using uniform_in_bounds.
  revert self st const p.
  induction names as [|n names IH];
    intros self st const p Hrun Hp Hfixed Hlinked Hle Hdraw Hcase.
  - injection Hrun as <- <- <-. destruct Hcase as [[]|Hrange].
    exists p. split; [exact Hp|]. split; [apply same_shape_refl | exact Hrange].
  - destruct (decide (n = name)) as [->|Hne].
    + rewrite (sample_params_step _ _ _ _ _ _ _ Hp) in Hrun.
      destruct (needs_draw override p) eqn:Hneeds.
      * destruct (generateVal_in_bounds (attrs self) p st (min p) (max p)
                    Hfixed (draw_bounds_unlinked _ _ Hlinked) Hle Hdraw)
          as (v & st1 & Hgen & Hv).
        rewrite Hgen in Hrun.
        destruct (IH _ _ _ (with_val (Some v) p) Hrun) as (p' & Hp' & Hshape & Hr);
          try assumption.
        { simpl. apply lookup_insert_eq. }
        { right. exists v. simpl. auto. }
        exists p'. split; [exact Hp'|]. split; [|exact Hr].
        eapply same_shape_trans; [|exact Hshape].
        repeat split; simpl; eauto.
      * apply (IH _ _ _ p Hrun); try assumption.
        right. eapply needs_draw_false_in_range, Hneeds.
    + simpl in Hrun. unfold getattr in Hrun.
      destruct (attrs self !! n) as [q|] eqn:Hq; [|discriminate].
      assert (Hcase' : In name names \/ in_range p).
      { destruct Hcase as [[->|Hin]|Hr]; [contradiction | now left | now right]. }
      destruct (needs_draw override q).
      * destruct (generateVal (attrs self) q st) as [[q1 st1]|e]; [|discriminate].
        apply (IH _ _ _ p Hrun); try assumption.
        simpl. now rewrite lookup_insert_ne.
      * now apply (IH _ _ _ p Hrun).
Qed.

(** The referenced parameter is settled when the linked one is reached:
    it is fixed at a value inside its range, or it is free, has no link of
    its own and has been visited. *)
Lemma sample_params_settled override pre self st const self1 st1 const1 target t :
  sample_params override pre self st const = Return (self1, st1, const1) ->
  attrs self !! target = Some t ->
  (fixed t = true /\ in_range t) \/
  (fixed t = false /\ linked t = false /\ min t <= max t /\
   drawable t (min t) /\ In target pre) ->
  exists t1 rv,
    attrs self1 !! target = Some t1 /\ val t1 = Some rv /\
    min t <= rv <= max t.
Proof using uniform_in_bounds.
  intros Hrun Ht [[Hfixed (rv & Hrv & Hrange)]|(Hfree & Hlinked & Hle & Hdraw & Hin)].
  - exists t, rv. split; [|auto].
    eapply sample_params_fixed; eassumption.
  - destruct (sample_params_in_range _ _ _ _ _ _ _ _ target t Hrun Ht
                Hfree Hlinked Hle Hdraw (or_introl Hin))
      as (t1 & Ht1 & (Hmin & Hmax & _) & rv & Hrv & Hrange).
    exists t1, rv. rewrite Hmin, Hmax in Hrange. auto.
Qed.

(** The link of a parameter that is drawn again.  The referenced
    parameter is settled before [name] is reached and is not visited
    afterwards, [name] is free, and the ranges are compatible.  Then the
    loop ends with the relation in force. *)
Lemma sample_params_link pre name post self st const p t target relation :
  well_formed (attrs self) (pre ++ name :: post) ->
  attrs self !! name = Some p ->
  attrs self !! target = Some t ->
  fixed p = false ->
  link_method p = (Some relation, Some target) ->
  (fixed t = true /\ in_range t) \/
  (fixed t = false /\ linked t = false /\ min t <= max t /\
   drawable t (min t) /\ In target pre) ->
  ~ In target (name :: post) -> ~ In name post ->
  min p <= max p -> drawable p (min p) ->
  (relation = "greater"%string /\ max t <= max p) \/
  (relation = "less"%string /\ min p <= min t) ->
  exists self' st' const' p' t' v rv,
    sample_params true (pre ++ name :: post) self st const
      = Return (self', st', const') /\
    attrs self' !! name = Some p' /\ val p' = Some v /\
    attrs self' !! target = Some t' /\ val t' = Some rv /\
    min t <= rv <= max t /\ min p <= v <= max p /\
    (relation = "greater"%string -> rv <= v) /\
    (relation = "less"%string -> v <= rv).
Proof using uniform_in_bounds.
  intros Hwf Hp Ht Hpfixed Hlink Hsettled Hnotin Hname Hple Hpdraw Hrel.
  destruct (sample_params_returns true _ self st const Hwf)
    as (self' & st' & const' & Hrun).
  exists self', st', const'. rewrite Hrun.
  rewrite sample_params_app in Hrun.
  destruct (sample_params true pre self st const)
    as [[[self1 st1] const1]|e] eqn:Hrun1; [|discriminate].
  (* the referenced parameter after the first part *)
  destruct (sample_params_settled _ _ _ _ _ _ _ _ target t Hrun1 Ht Hsettled)
    as (t1 & rv & Ht1 & Hrv & Hrange).
  (* the linked parameter at the time of its draw *)
  destruct (sample_params_evolves _ _ _ _ _ _ _ _ Hrun1) as (Hev & _).
  destruct (evolves_lookup _ _ _ _ Hev Hp)
    as (p1 & Hp1 & Hmin_p & Hmax_p & Hfix_p & Hmeth_p & Hlink_p & _).
  rewrite (sample_params_step _ _ _ _ _ _ _ Hp1), needs_draw_override in Hrun.
  assert (Hbounds : exists lo hi,
             draw_bounds (attrs self1) p1 = Return (lo, hi) /\ lo <= hi /\
             min p <= lo /\ hi <= max p /\
             (relation = "greater"%string -> rv <= lo) /\
             (relation = "less"%string -> hi <= rv)).
  { destruct Hrel as [[-> Hmax]|[-> Hmin]].
    - exists (Rmax rv (min p1)), (max p1). split.
      + apply (draw_bounds_greater _ _ target t1 rv);
          [congruence | exact Ht1 | exact Hrv].
      + rewrite Hmin_p, Hmax_p. unfold Rmax.
        destruct (Rle_dec rv (min p)); repeat split; try lra; discriminate.
    - exists (min p1), (Rmin (max p1) rv). split.
      + apply (draw_bounds_less _ _ target t1 rv);
          [congruence | exact Ht1 | exact Hrv].
      + rewrite Hmin_p, Hmax_p. unfold Rmin.
        destruct (Rle_dec (max p) rv); repeat split; try lra; discriminate. }
  destruct Hbounds as (lo & hi & Hbounds & Hle & Hlo & Hhi & Hgreater & Hless).
  assert (Hdraw1 : drawable p1 lo).
  { unfold drawable in *. rewrite Hmeth_p.
    destruct Hpdraw as [Hm|[Hm Hpos]]; [now left | right; split; [exact Hm | lra]]. }
  destruct (generateVal_in_bounds (attrs self1) p1 st1 lo hi
              ltac:(congruence) Hbounds Hle Hdraw1) as (v & st2 & Hgen & Hv).
  rewrite Hgen in Hrun.
  destruct (sample_params_assigned _ _ _ _ _ _ _ _ Hrun name) as [_ Hkeep_p].
  destruct (sample_params_assigned _ _ _ _ _ _ _ _ Hrun target) as [_ Hkeep_t].
  destruct (Hkeep_p Hname) as [Hp' _].
  destruct Hkeep_t as [Ht' _]; [intros Hin; apply Hnotin; now right|].
  simpl in Hp', Ht'. rewrite lookup_insert_eq in Hp'.
  rewrite lookup_insert_ne in Ht' by (intros ->; apply Hnotin; now left).
  exists (with_val (Some v) p1), t1, v, rv.
  split; [reflexivity|]. split; [exact Hp'|]. split; [reflexivity|].
  split; [congruence|]. split; [exact Hrv|].
  split; [exact Hrange|]. split; [lra|].
  split; intros Hr; [specialize (Hgreater Hr) | specialize (Hless Hr)]; lra.
Qed.

Lemma sample_params_constants override names self st const self' st' const' :
  sample_params override names self st const = Return (self', st', const') ->
  const_dens_co const' = const_dens_co const /\
  const_P_0m const' = const_P_0m const /\
  lum_eff_type const' = lum_eff_type const /\
  erosion_on const' = erosion_on const /\
  erosion_height_change const' = erosion_height_change const /\
  disruption_on const' = disruption_on const.
Proof.
  revert self st const.
  induction names as [|n names IH]; intros self st const Hrun.
  - injection Hrun as <- <- <-. repeat split.
  - simpl in Hrun. destruct (getattr (attrs self) n) as [p|e]; [|discriminate].
    destruct (needs_draw override p); [|now apply IH in Hrun].
    destruct (generateVal (attrs self) p st) as [[p1 st1]|e]; [|discriminate].
    now apply IH in Hrun.
Qed.

Lemma sample_params_keeps names self st const :
  (forall name, In name names ->
     exists p, attrs self !! name = Some p /\ in_range p) ->
  exists const',
    sample_params false names self st const = Return (self, st, const').
Proof.
  revert const. induction names as [|n names IH]; intros const Hok.
  - simpl. eauto.
  - destruct (Hok n) as (p & Hp & Hrange); [now left|].
    rewrite (sample_params_step _ _ _ _ _ _ _ Hp).
    apply needs_draw_false_iff in Hrange. rewrite Hrange.
    apply IH. intros name Hin. apply Hok. now right.
Qed.

(** [getConst] on a well-formed parameter set returns, and returns the
    object with the same declared names, ranges, kinds, fixed flags and
    links: only values have changed, and no value has been lost. *)
Theorem getConst_changes_values_only self random_seed override erosion :
  well_formed (attrs self) (param_list self) ->
  exists self' const',
    getConst self random_seed override erosion = Return (self', const') /\
    param_list self' = param_list self /\
    jdt_ref self' = jdt_ref self /\ dens_co self' = dens_co self /\
    P_0M self' = P_0M self /\
    evolves (attrs self) (attrs self').
Proof.
  intros Hwf. unfold GenerateSimulations.getConst.
  destruct (sample_params_returns override _ self (seed_state random_seed)
              (new_constants self erosion) Hwf) as (self' & st' & const' & Hrun).
  rewrite Hrun. exists self', const'.
  apply sample_params_evolves in Hrun. tauto.
Qed.

(** A fixed parameter comes out of [getConst] as it went in, whatever
    [override] says, and its value is the one handed to the simulator. *)
Theorem getConst_keeps_fixed self random_seed override erosion :
  well_formed (attrs self) (param_list self) ->
  exists self' const',
    getConst self random_seed override erosion = Return (self', const') /\
    forall name p,
      attrs self !! name = Some p -> fixed p = true ->
      attrs self' !! name = Some p /\
      (In name (param_list self) -> assigned const' !! name = Some (val p)).
Proof.
  intros Hwf. unfold GenerateSimulations.getConst.
  destruct (sample_params_returns override _ self (seed_state random_seed)
              (new_constants self erosion) Hwf) as (self' & st' & const' & Hrun).
  rewrite Hrun. exists self', const'. split; [reflexivity|].
  intros name p Hp Hfixed.
  pose proof (sample_params_fixed _ _ _ _ _ _ _ _ _ _ Hrun Hp Hfixed) as Hp'.
  split; [exact Hp'|]. intros Hin.
  destruct (sample_params_assigned _ _ _ _ _ _ _ _ Hrun name) as [Hvisited _].
  destruct (Hvisited Hin) as (p' & Hp'' & Hassigned). congruence.
Qed.

(** The constants that [getConst] returns carry, under each declared name,
    the value that the parameter holds when the call ends; the other
    settings are those of lines 216-228. *)
Theorem getConst_constants_match self random_seed override erosion :
  well_formed (attrs self) (param_list self) ->
  exists self' const',
    getConst self random_seed override erosion = Return (self', const') /\
    (forall name, In name (param_list self) ->
       exists p', attrs self' !! name = Some p' /\
                  assigned const' !! name = Some (val p')) /\
    (forall name, ~ In name (param_list self) ->
       assigned const' !! name = None) /\
    const_dens_co const' = dens_co self /\ const_P_0m const' = P_0M self /\
    lum_eff_type const' = 0%Z /\ erosion_on const' = erosion /\
    erosion_height_change const' = 0 /\ disruption_on const' = false.
Proof.
  intros Hwf. unfold GenerateSimulations.getConst.
  destruct (sample_params_returns override _ self (seed_state random_seed)
              (new_constants self erosion) Hwf) as (self' & st' & const' & Hrun).
  rewrite Hrun. exists self', const'. split; [reflexivity|].
  pose proof (sample_params_assigned _ _ _ _ _ _ _ _ Hrun) as Hassigned.
  pose proof (sample_params_constants _ _ _ _ _ _ _ _ Hrun) as Hconst.
  split; [intros name Hin; now apply Hassigned|].
  split; [|exact Hconst].
  intros name Hout. destruct (Hassigned name) as [_ Hkeep].
  destruct (Hkeep Hout) as [_ ->]. apply lookup_empty.
Qed.

(** Without [override], a parameter set whose values all lie inside their
    ranges is returned unchanged: nothing is drawn. *)
Theorem getConst_keeps_valid self random_seed erosion :
  (forall name, In name (param_list self) ->
     exists p, attrs self !! name = Some p /\ in_range p) ->
  exists const',
    getConst self random_seed false erosion = Return (self, const') /\
    forall name p, In name (param_list self) -> attrs self !! name = Some p ->
      assigned const' !! name = Some (val p).
Proof.
  intros Hok. unfold GenerateSimulations.getConst.
  destruct (sample_params_keeps _ self (seed_state random_seed)
              (new_constants self erosion) Hok) as (const' & Hrun).
  rewrite Hrun. exists const'. split; [reflexivity|].
  intros name p Hin Hp.
  destruct (sample_params_assigned _ _ _ _ _ _ _ _ Hrun name) as [Hvisited _].
  destruct (Hvisited Hin) as (p' & Hp' & Hassigned). congruence.
Qed.

(** After [getConst], a declared parameter that is free and has no link
    holds a value inside its range, whether it was drawn or kept. *)
Theorem getConst_in_range self random_seed override erosion :
  well_formed (attrs self) (param_list self) ->
  exists self' const',
    getConst self random_seed override erosion = Return (self', const') /\
    forall name p,
      In name (param_list self) -> attrs self !! name = Some p ->
      fixed p = false -> linked p = false ->
      min p <= max p -> drawable p (min p) ->
      exists p' v, attrs self' !! name = Some p' /\ val p' = Some v /\
                   min p <= v <= max p.
Proof using uniform_in_bounds.
  intros Hwf. unfold GenerateSimulations.getConst.
  destruct (sample_params_returns override _ self (seed_state random_seed)
              (new_constants self erosion) Hwf) as (self' & st' & const' & Hrun).
  rewrite Hrun. exists self', const'. split; [reflexivity|].
  intros name p Hin Hp Hfixed Hlinked Hle Hdraw.
  destruct (sample_params_in_range _ _ _ _ _ _ _ _ name p Hrun Hp
              Hfixed Hlinked Hle Hdraw (or_introl Hin))
    as (p' & Hp' & (Hmin & Hmax & _) & v & Hv & Hrange).
  exists p', v. rewrite Hmin, Hmax in Hrange. auto.
Qed.

(** After [getConst] with [override], a free parameter that is linked to
    an earlier one is greater than or equal to it (relation "greater"), or
    less than or equal to it (relation "less"). *)
Theorem getConst_link_in_force self random_seed erosion
    pre name post p t target relation :
  param_list self = pre ++ name :: post ->
  well_formed (attrs self) (param_list self) ->
  attrs self !! name = Some p ->
  attrs self !! target = Some t ->
  fixed p = false ->
  link_method p = (Some relation, Some target) ->
  (fixed t = true /\ in_range t) \/
  (fixed t = false /\ linked t = false /\ min t <= max t /\
   drawable t (min t) /\ In target pre) ->
  ~ In target (name :: post) -> ~ In name post ->
  min p <= max p -> drawable p (min p) ->
  (relation = "greater"%string /\ max t <= max p) \/
  (relation = "less"%string /\ min p <= min t) ->
  exists self' const' p' t' v rv,
    getConst self random_seed true erosion = Return (self', const') /\
    attrs self' !! name = Some p' /\ val p' = Some v /\
    attrs self' !! target = Some t' /\ val t' = Some rv /\
    min p <= v <= max p /\
    (relation = "greater"%string -> rv <= v) /\
    (relation = "less"%string -> v <= rv).
Proof using uniform_in_bounds.
  intros Hlist Hwf Hp Ht Hfixed Hlink Hsettled Hnotin Hname Hle Hdraw Hrel.
  unfold GenerateSimulations.getConst. rewrite Hlist in *.
  destruct (sample_params_link pre name post self (seed_state random_seed)
              (new_constants self erosion) p t target relation
              Hwf Hp Ht Hfixed Hlink Hsettled Hnotin Hname Hle Hdraw Hrel)
    as (self' & st' & const' & p' & t' & v & rv & Hrun & Hrest).
  rewrite Hrun. exists self', const', p', t', v, rv. tauto.
Qed.

(** *** A fresh container *)

#[local] Abbreviation ErosionSimContainer_init :=
  (ErosionSimContainer_init RandomState seed_state uniform).

(** [getConst] with [override] on the declared parameters, some of them
    fixed. *)
Lemma getConst_masked jd dens params0 random_seed erosion :
  param_list params0 = registry_names ->
  (forall name, In name registry_names ->
     exists p b, attrs (PhysicalParameters_init jd dens) !! name = Some p /\
                 attrs params0 !! name = Some (with_fixed b p)) ->
  exists params const,
    getConst params0 random_seed true erosion = Return (params, const) /\
    param_list params = registry_names /\
    (forall name, In name registry_names ->
       exists p v, attrs params !! name = Some p /\ val p = Some v /\
                   min p <= v <= max p /\
                   assigned const !! name = Some (Some v)) /\
    (forall name p0, attrs params0 !! name = Some p0 -> fixed p0 = true ->
       attrs params !! name = Some p0) /\
    (forall pmin pmax vmin vmax,
       attrs params !! "erosion_mass_min" = Some pmin -> val pmin = Some vmin ->
       attrs params !! "erosion_mass_max" = Some pmax -> val pmax = Some vmax ->
       fixed pmax = false -> vmin <= vmax).
Proof using uniform_in_bounds.
  intros Hlist Hmasked.
  assert (Hwf : well_formed (attrs params0) (param_list params0)).
  { rewrite Hlist. intros name Hin.
    destruct (Hmasked name Hin) as (p & b & Hp & Hp0).
    exists (with_fixed b p). split; [exact Hp0|]. intros Hlinked.
    destruct (string_dec name "erosion_mass_max") as [->|Hne].
    - destruct (Hmasked "erosion_mass_min"%string) as (q & b' & Hq & Hq0).
      { unfold registry_names. simpl. tauto. }
      exists "erosion_mass_min"%string, (with_fixed b' q).
      split; [|split; [exact Hq0|]].
      + assert (Hp' : attrs (PhysicalParameters_init jd dens)
                        !! "erosion_mass_max" = Some p) by exact Hp.
        clear -Hp'. revert Hp'. registry_lookup_in.
      + assert (Hin' : In "erosion_mass_min"%string registry_names)
          by (unfold registry_names; simpl; tauto).
        destruct (registry_declared jd dens _ Hin')
          as (q' & Hq' & _ & _ & _ & (v & Hv & _) & _).
        rewrite Hq in Hq'. injection Hq' as <-. simpl. rewrite Hv. eauto.
    - destruct (registry_declared jd dens name Hin) as (p' & Hp' & _ & _ & _ & _ & Hl).
      rewrite Hp in Hp'. injection Hp' as <-.
      specialize (Hl Hne). unfold linked, link_is in *. simpl in Hlinked.
      congruence. }
  destruct (getConst_constants_match params0 random_seed true erosion Hwf)
    as (params & const & Hrun & Hassigned & _).
  destruct (getConst_changes_values_only params0 random_seed true erosion Hwf)
    as (params1 & const1 & Hrun1 & Hlist1 & _ & _ & _ & Hev).
  rewrite Hrun in Hrun1. injection Hrun1 as <- <-.
  destruct (getConst_keeps_fixed params0 random_seed true erosion Hwf)
    as (params2 & const2 & Hrun2 & Hfixed).
  rewrite Hrun in Hrun2. injection Hrun2 as <- <-.
  destruct (getConst_in_range params0 random_seed true erosion Hwf)
    as (params3 & const3 & Hrun3 & Hrange).
  rewrite Hrun in Hrun3. injection Hrun3 as <- <-.
  rewrite Hlist in *.
  (* the linked parameter, when it is free *)
  assert (Hlink : forall pmax0, attrs params0 !! "erosion_mass_max" = Some pmax0 ->
            fixed pmax0 = false ->
            exists p' t' v rv,
              attrs params !! "erosion_mass_max" = Some p' /\ val p' = Some v /\
              attrs params !! "erosion_mass_min" = Some t' /\ val t' = Some rv /\
              min pmax0 <= v <= max pmax0 /\ rv <= v).
  { intros pmax0 Hpmax0 Hfree.
    destruct (Hmasked "erosion_mass_max"%string) as (p & b & Hp & Hp0);
      [unfold registry_names; simpl; tauto|].
    destruct (Hmasked "erosion_mass_min"%string) as (t & b' & Ht & Ht0);
      [unfold registry_names; simpl; tauto|].
    rewrite Hpmax0 in Hp0. injection Hp0 as ->.
    assert (Hp_eq : p = linkParam "erosion_mass_min" (Some "greater"%string)
                          (plain (1 / 10^11) (1 / 10^7) "log10" (1 / 10^10))).
    { revert Hp. registry_lookup_in. }
    assert (Ht_eq : t = plain (1 / 10^12) (1 / 10^9) "log10" (1 / 10^12)).
    { revert Ht. registry_lookup_in. }
    destruct (getConst_link_in_force params0 random_seed erosion
                ["m_init"; "v_init"; "zenith_angle"; "rho"; "sigma";
                 "erosion_height_start"; "erosion_coeff"; "erosion_mass_index";
                 "erosion_mass_min"]%string
                "erosion_mass_max"%string [] (with_fixed b p) (with_fixed b' t)
                "erosion_mass_min"%string "greater"%string)
      as (params4 & const4 & p' & t' & v & rv & Hrun4 & Hp' & Hv & Ht' & Hrv
          & Hvr & Hgreater & _); try assumption.
    - rewrite Hlist. exact Hwf.
    - subst p. reflexivity.
    - subst t. destruct b'.
      + left. split; [reflexivity|]. exists (1 / 10^12). simpl. split; [reflexivity|lra].
      + right. split; [reflexivity|]. split; [reflexivity|].
        split; [simpl; lra|]. split; [right; split; [reflexivity|simpl; lra]|].
        simpl. tauto.
    - simpl. intros [Hc|[]]. discriminate.
    - simpl. tauto.
    - subst p. simpl. lra.
    - subst p. right. split; [reflexivity|]. simpl. lra.
    - left. split; [reflexivity|]. subst p t. simpl. lra.
    - rewrite Hrun in Hrun4. injection Hrun4 as <- <-.
      exists p', t', v, rv.
      repeat split; first [tauto | now apply Hgreater]. }
  exists params, const. split; [exact Hrun|]. split; [exact Hlist1|].
  split; [|split].
  - intros name Hin.
    destruct (Hassigned name Hin) as (p' & Hp' & Hconst).
    destruct (Hmasked name Hin) as (p & b & Hp & Hp0).
    destruct (registry_declared jd dens name Hin)
      as (q & Hq & _ & Hle & Hdraw & (d & Hd & Hdr) & Hunlinked).
    rewrite Hp in Hq. injection Hq as <-.
    assert (Hgoal : exists v, val p' = Some v /\ min p' <= v <= max p').
    { destruct b.
      - (* fixed: the default stays *)
        destruct (Hfixed name (with_fixed true p) Hp0 eq_refl) as [Hkeep _].
        rewrite Hp' in Hkeep. injection Hkeep as ->. exists d. simpl. auto.
      - destruct (string_dec name "erosion_mass_max") as [->|Hne].
        + destruct (Hlink (with_fixed false p) Hp0 eq_refl)
            as (p'' & t' & v & rv & Hp'' & Hv & _ & _ & Hvr & _).
          rewrite Hp' in Hp''. injection Hp'' as <-.
          destruct (evolves_lookup _ _ _ _ Hev Hp0) as (p3 & Hp3 & Hmin & Hmax & _).
          rewrite Hp' in Hp3. injection Hp3 as <-.
          exists v. rewrite Hmin, Hmax. auto.
        + destruct (Hrange name (with_fixed false p) Hin Hp0 eq_refl)
            as (p'' & v & Hp'' & Hv & Hvr); try assumption.
          { specialize (Hunlinked Hne). exact Hunlinked. }
          rewrite Hp' in Hp''. injection Hp'' as <-.
          destruct (evolves_lookup _ _ _ _ Hev Hp0) as (p3 & Hp3 & Hmin & Hmax & _).
          rewrite Hp' in Hp3. injection Hp3 as <-.
          exists v. rewrite Hmin, Hmax. auto. }
    destruct Hgoal as (v & Hv & Hvr). exists p', v.
    rewrite Hconst, Hv. auto.
  - intros name p0 Hp0 Hfix. now apply Hfixed.
  - intros pmin pmax vmin vmax Hpmin Hvmin Hpmax Hvmax Hfree.
    destruct (Hmasked "erosion_mass_max"%string) as (p & b & Hp & Hp0);
      [unfold registry_names; simpl; tauto|].
    destruct (evolves_lookup _ _ _ _ Hev Hp0) as (p3 & Hp3 & _ & _ & Hfix3 & _).
    rewrite Hpmax in Hp3. injection Hp3 as <-.
    destruct (Hlink (with_fixed b p) Hp0 ltac:(congruence))
      as (p' & t' & v & rv & Hp' & Hv & Ht' & Hrv & _ & Hle).
    congruence || (rewrite Hpmax in Hp'; injection Hp' as <-;
                   rewrite Hpmin in Ht'; injection Ht' as <-;
                   rewrite Hvmax in Hv; injection Hv as <-;
                   rewrite Hvmin in Hrv; injection Hrv as <-; exact Hle).
Qed.

(** A fresh container.  For every seed and every mask of at least ten
    flags (or none), [ErosionSimContainer.__init__] succeeds; every
    declared parameter then holds a value inside its range, and that value
    is the one passed to the simulator; a parameter whose flag is set
    keeps its default; and [erosion_mass_max], unless it is fixed, is at
    least [erosion_mass_min]. *)
Theorem ErosionSimContainer_init_valid jd dens random_seed fixed_mask :
  match fixed_mask with
  | Some mask => (10 <= length mask)%nat
  | None => True
  end ->
  exists params const,
    ErosionSimContainer_init jd dens random_seed fixed_mask
      = Return (params, const) /\
    param_list params = registry_names /\
    (forall name, In name registry_names ->
       exists p v, attrs params !! name = Some p /\ val p = Some v /\
                   min p <= v <= max p /\
                   assigned const !! name = Some (Some v)) /\
    (forall mask i name p0,
       fixed_mask = Some mask ->
       nth_error registry_names i = Some name ->
       nth_error mask i = Some true ->
       attrs (PhysicalParameters_init jd dens) !! name = Some p0 ->
       exists p, attrs params !! name = Some p /\ val p = val p0 /\
                 fixed p = true) /\
    (forall pmin pmax vmin vmax,
       attrs params !! "erosion_mass_min" = Some pmin -> val pmin = Some vmin ->
       attrs params !! "erosion_mass_max" = Some pmax -> val pmax = Some vmax ->
       fixed pmax = false -> vmin <= vmax).
Proof using uniform_in_bounds.
  intros Hmask. unfold GenerateSimulations.ErosionSimContainer_init.
  assert (Hparams0 : exists params0,
             match fixed_mask with
             | Some mask =>
                 set_fixed (param_list (PhysicalParameters_init jd dens)) mask
                   (PhysicalParameters_init jd dens)
             | None => Return (PhysicalParameters_init jd dens)
             end = Return params0 /\
             param_list params0 = registry_names /\
             forall name, In name registry_names ->
               exists p b,
                 attrs (PhysicalParameters_init jd dens) !! name = Some p /\
                 attrs params0 !! name = Some (with_fixed b p) /\
                 forall mask i, fixed_mask = Some mask ->
                   nth_error registry_names i = Some name ->
                   nth_error mask i = Some b).
  { destruct fixed_mask as [mask|].
    - destruct (set_fixed_returns registry_names mask
                  (PhysicalParameters_init jd dens) registry_names_nodup Hmask)
        as (params0 & Hrun & Hlist & _ & _ & _ & Hattrs).
      { intros name Hin.
        destruct (registry_declared jd dens name Hin) as (p & -> & _). eauto. }
      exists params0. rewrite registry_param_list. split; [exact Hrun|].
      split; [exact Hlist|]. intros name Hin.
      destruct (registry_declared jd dens name Hin) as (p & Hp & _).
      specialize (Hattrs name). rewrite Hp in Hattrs.
      destruct Hattrs as (b & Hb & Hidx & _).
      exists p, b. split; [exact Hp|]. split; [exact Hb|].
      intros mask' i [= <-]. apply Hidx.
    - exists (PhysicalParameters_init jd dens). split; [reflexivity|].
      split; [reflexivity|]. intros name Hin.
      destruct (registry_declared jd dens name Hin) as (p & Hp & Hfree & _).
      exists p, false. rewrite <- Hfree, with_fixed_same.
      split; [exact Hp|]. split; [exact Hp|]. discriminate. }
  destruct Hparams0 as (params0 & -> & Hlist & Hmasked).
  destruct (getConst_masked jd dens params0 random_seed true Hlist)
    as (params & const & Hrun & Hlist' & Hvalues & Hfixed & Hlink).
  { intros name Hin. destruct (Hmasked name Hin) as (p & b & Hp & Hp0 & _).
    eauto. }
  exists params, const. split; [exact Hrun|]. split; [exact Hlist'|].
  split; [exact Hvalues|]. split; [|exact Hlink].
  intros mask i name p0 Hm Hname Hflag Hp0.
  destruct (Hmasked name) as (p & b & Hp & Hb & Hidx).
  { eapply nth_error_In, Hname. }
  rewrite Hp0 in Hp. injection Hp as <-.
  rewrite (Hidx mask i Hm Hname) in Hflag. injection Hflag as ->.
  exists (with_fixed true p0). split; [|split; reflexivity].
  now apply Hfixed.
Qed.

(** A mask of fewer than ten flags: [ErosionSimContainer.__init__] raises
    [IndexError] before anything is drawn. *)
Theorem ErosionSimContainer_init_short_mask jd dens random_seed mask :
  (length mask < 10)%nat ->
  ErosionSimContainer_init jd dens random_seed (Some mask) = Raise IndexError.
Proof.
  intros Hlen. unfold GenerateSimulations.ErosionSimContainer_init.
  rewrite set_fixed_short_mask; [reflexivity | exact Hlen |].
  intros name Hin. rewrite registry_param_list in Hin.
  destruct (registry_declared jd dens name Hin) as (p & -> & _). eauto.
Qed.

End Sampling.

(** *** Instances: the declared parameters, and a generator whose unit
    sample is always one half *)

Lemma getConst_changes_values_only_witness :
  exists self' const',
    getConst unit (fun _ => tt) (uniform_at (1 / 2))
      (PhysicalParameters_init 2451545 []) (Some 7%Z) true true
    = Return (self', const') /\
    param_list self' = registry_names /\
    evolves (attrs (PhysicalParameters_init 2451545 [])) (attrs self').
Proof.
  destruct (getConst_changes_values_only unit (fun _ => tt) (uniform_at (1 / 2))
              (PhysicalParameters_init 2451545 []) (Some 7%Z) true true
              (registry_well_formed 2451545 []))
    as (self' & const' & Hrun & Hlist & _ & _ & _ & Hev).
  exists self', const'. auto.
Defined.

Lemma well_formed_with_fixed a names n p b :
  well_formed a names -> a !! n = Some p ->
  well_formed (<[n := with_fixed b p]> a) names.
Proof.
  intros Hwf Hp name Hin. destruct (Hwf name Hin) as (q & Hq & Hlink).
  assert (Hq' : exists q', (<[n := with_fixed b p]> a) !! name = Some q' /\
                           link_method q' = link_method q).
  { destruct (decide (n = name)) as [->|Hne].
    - rewrite lookup_insert_eq. rewrite Hp in Hq. injection Hq as <-. eauto.
    - rewrite lookup_insert_ne by exact Hne. eauto. }
  destruct Hq' as (q' & Hq' & Hl). exists q'. split; [exact Hq'|].
  unfold linked, link_is. rewrite Hl. intros Hlinked.
  destruct (Hlink Hlinked) as (target & t & Htarget & Ht & Hval).
  exists target. destruct (decide (n = target)) as [->|Hne].
  - exists (with_fixed b p). rewrite lookup_insert_eq.
    rewrite Hp in Ht. injection Ht as <-. auto.
  - exists t. rewrite lookup_insert_ne by exact Hne. auto.
Qed.

Lemma getConst_keeps_fixed_witness :
  exists self' const',
    getConst unit (fun _ => tt) (uniform_at (1 / 2))
      (setattr "rho" (with_fixed true (plain 100 3500 "uniform" 2000))
         (PhysicalParameters_init 2451545 []))
      (Some 7%Z) true true
    = Return (self', const') /\
    attrs self' !! "rho"
      = Some (with_fixed true (plain 100 3500 "uniform" 2000)) /\
    assigned const' !! "rho" = Some (Some 2000).
Proof.
  destruct (getConst_keeps_fixed unit (fun _ => tt) (uniform_at (1 / 2))
              (setattr "rho" (with_fixed true (plain 100 3500 "uniform" 2000))
                 (PhysicalParameters_init 2451545 []))
              (Some 7%Z) true true)
    as (self' & const' & Hrun & Hfixed).
  - apply well_formed_with_fixed; [apply registry_well_formed | registry_lookup].
  - exists self', const'. split; [exact Hrun|].
    destruct (Hfixed "rho"%string
                (with_fixed true (plain 100 3500 "uniform" 2000)))
      as [Hkeep Hconst].
    + apply lookup_insert_eq.
    + reflexivity.
    + split; [exact Hkeep|]. apply Hconst. simpl. tauto.
Defined.

Lemma getConst_constants_match_witness :
  exists self' const',
    getConst unit (fun _ => tt) (uniform_at (1 / 2))
      (PhysicalParameters_init 2451545 []) (Some 7%Z) true false
    = Return (self', const') /\
    erosion_on const' = false /\
    exists p', attrs self' !! "rho" = Some p' /\
               assigned const' !! "rho" = Some (val p').
Proof.
  destruct (getConst_constants_match unit (fun _ => tt) (uniform_at (1 / 2))
              (PhysicalParameters_init 2451545 []) (Some 7%Z) true false
              (registry_well_formed 2451545 []))
    as (self' & const' & Hrun & Hassigned & _ & _ & _ & _ & Heros & _).
  exists self', const'. split; [exact Hrun|]. split; [exact Heros|].
  apply Hassigned. simpl. tauto.
Defined.

Lemma getConst_keeps_valid_witness :
  exists const',
    getConst unit (fun _ => tt) (uniform_at (1 / 2))
      (PhysicalParameters_init 2451545 []) None false true
    = Return (PhysicalParameters_init 2451545 [], const').
Proof.
  destruct (getConst_keeps_valid unit (fun _ => tt) (uniform_at (1 / 2))
              (PhysicalParameters_init 2451545 []) None true)
    as (const' & Hrun & _).
  - intros name Hin. rewrite registry_param_list in Hin.
    destruct (registry_declared 2451545 [] name Hin) as (p & Hp & _ & _ & _ & Hr & _).
    eauto.
  - exists const'. exact Hrun.
Defined.

Lemma getConst_in_range_witness :
  exists self' const' p' v,
    getConst unit (fun _ => tt) (uniform_at (1 / 2))
      (PhysicalParameters_init 2451545 []) (Some 7%Z) true true
    = Return (self', const') /\
    attrs self' !! "v_init" = Some p' /\ val p' = Some v /\
    11000 <= v <= 72000.
Proof.
  destruct (getConst_in_range unit (fun _ => tt) (uniform_at (1 / 2))
              (uniform_at_in_bounds (1 / 2) ltac:(lra))
              (PhysicalParameters_init 2451545 []) (Some 7%Z) true true
              (registry_well_formed 2451545 []))
    as (self' & const' & Hrun & Hrange).
  destruct (Hrange "v_init"%string (plain 11000 72000 "uniform" 30520))
    as (p' & v & Hp' & Hv & Hvr).
  - simpl. tauto.
  - registry_lookup.
  - reflexivity.
  - reflexivity.
  - simpl. lra.
  - left. reflexivity.
  - exists self', const', p', v. auto.
Defined.

Lemma getConst_link_in_force_witness :
  exists self' const' p' t' v rv,
    getConst unit (fun _ => tt) (uniform_at (1 / 2))
      (PhysicalParameters_init 2451545 []) (Some 7%Z) true true
    = Return (self', const') /\
    attrs self' !! "erosion_mass_max" = Some p' /\ val p' = Some v /\
    attrs self' !! "erosion_mass_min" = Some t' /\ val t' = Some rv /\
    rv <= v.
Proof.
  destruct (getConst_link_in_force unit (fun _ => tt) (uniform_at (1 / 2))
              (uniform_at_in_bounds (1 / 2) ltac:(lra))
              (PhysicalParameters_init 2451545 []) (Some 7%Z) true
              ["m_init"; "v_init"; "zenith_angle"; "rho"; "sigma";
               "erosion_height_start"; "erosion_coeff"; "erosion_mass_index";
               "erosion_mass_min"]%string
              "erosion_mass_max"%string []
              (linkParam "erosion_mass_min" (Some "greater"%string)
                 (plain (1 / 10^11) (1 / 10^7) "log10" (1 / 10^10)))
              (plain (1 / 10^12) (1 / 10^9) "log10" (1 / 10^12))
              "erosion_mass_min"%string "greater"%string)
    as (self' & const' & p' & t' & v & rv & Hrun & Hp' & Hv & Ht' & Hrv & _
        & Hgreater & _).
  - reflexivity.
  - apply registry_well_formed.
  - registry_lookup.
  - registry_lookup.
  - reflexivity.
  - reflexivity.
  - right. split; [reflexivity|]. split; [reflexivity|].
    split; [simpl; lra|]. split; [right; split; [reflexivity | simpl; lra]|].
    simpl. tauto.
  - simpl. intros [Hc|[]]. discriminate.
  - simpl. tauto.
  - simpl. lra.
  - right. split; [reflexivity | simpl; lra].
  - left. split; [reflexivity | simpl; lra].
  - exists self', const', p', t', v, rv. repeat split; auto.
Defined.

Lemma ErosionSimContainer_init_valid_witness :
  exists params const,
    ErosionSimContainer_init unit (fun _ => tt) (uniform_at (1 / 2))
      2451545 [] (Some 7%Z)
      (Some [false; true; false; false; false; false; false; false; false; true])
    = Return (params, const) /\
    param_list params = registry_names.
Proof.
  destruct (ErosionSimContainer_init_valid unit (fun _ => tt) (uniform_at (1 / 2))
              (uniform_at_in_bounds (1 / 2) ltac:(lra)) 2451545 [] (Some 7%Z)
              (Some [false; true; false; false; false; false; false; false;
                     false; true]))
    as (params & const & Hrun & Hlist & _).
  - simpl. lia.
  - exists params, const. auto.
Defined.

Lemma ErosionSimContainer_init_short_mask_witness :
  ErosionSimContainer_init unit (fun _ => tt) (uniform_at (1 / 2))
    2451545 [] (Some 7%Z) (Some [true; false; true])
  = Raise IndexError.
Proof.
  apply (ErosionSimContainer_init_short_mask unit (fun _ => tt)
           (uniform_at (1 / 2)) 2451545 [] (Some 7%Z) [true; false; true]).
  simpl. lia.
Defined.

End SamplingProofs.

(** ** Normalised parameter vectors *)

Module NormalisationProofs.
Import Py GenerateSimulations ParameterShape ParameterProofs.

#[local] Open Scope R_scope.

Lemma pow10_pos (y : R) : 0 < pow10 y.
Proof. unfold pow10, Rpower. apply exp_pos. Qed.

Lemma log10_mult (x y : R) : 0 < x -> 0 < y -> log10 (x * y) = log10 x + log10 y.
Proof.
  intros Hx Hy. unfold log10. rewrite ln_mult by assumption. field.
  apply Rgt_not_eq, ln_10_pos.
Qed.

(** One parameter inside its range is normalised into the unit interval,
    the ends of the range going to 0 and 1. *)
Lemma normalize_param_unit (p : MetParam) (v : R) :
  val p = Some v ->
  min p < max p ->
  (method p = "log10"%string -> 0 < min p) ->
  min p <= v <= max p ->
  exists val_normed,
    normalize_param p = Return val_normed /\
    0 <= val_normed <= 1 /\
    (val_normed = 0 <-> v = min p) /\
    (val_normed = 1 <-> v = max p).
Proof.
  intros Hval Hrange Hlog Hv. unfold normalize_param. rewrite Hval.
  assert (Hunit : forall a lo hi, lo < hi -> lo <= a <= hi ->
            0 <= (a - lo) / (hi - lo) <= 1 /\
            ((a - lo) / (hi - lo) = 0 <-> a = lo) /\
            ((a - lo) / (hi - lo) = 1 <-> a = hi)).
  { intros a lo hi Hlt Ha.
    assert (Hinv : 0 < / (hi - lo)) by (apply Rinv_0_lt_compat; lra).
    assert (Hone : (hi - lo) * / (hi - lo) = 1) by (field; lra).
    unfold Rdiv. repeat split; nra. }
  destruct (String.eqb (method p) "log10") eqn:Hm.
  - apply String.eqb_eq in Hm. specialize (Hlog Hm).
    eexists. split; [reflexivity|].
    assert (Hl : log10 (min p) < log10 (max p)) by now apply log10_increasing.
    assert (Hlv : log10 (min p) <= log10 v <= log10 (max p)).
    { split; apply log10_le; lra. }
    destruct (Hunit (log10 v) (log10 (min p)) (log10 (max p)) Hl Hlv)
      as (H01 & H0 & H1).
    split; [exact H01|]. split.
    + rewrite H0. split; [|now intros ->].
      intros Heq. rewrite <- (pow10_log10 v), <- (pow10_log10 (min p)) by lra.
      now rewrite Heq.
    + rewrite H1. split; [|now intros ->].
      intros Heq. rewrite <- (pow10_log10 v), <- (pow10_log10 (max p)) by lra.
      now rewrite Heq.
  - eexists. split; [reflexivity|]. now apply Hunit.
Qed.

(** Every entry of the vector returned by [getNormalizedInputs] lies in
    the unit interval when every declared parameter holds a value inside
    its range. *)
Theorem getNormalizedInputs_unit (self : PhysicalParameters) :
  (forall name, In name (param_list self) ->
     exists p v, attrs self !! name = Some p /\ val p = Some v /\
                 min p <= v <= max p /\ min p < max p /\
                 (method p = "log10"%string -> 0 < min p)) ->
  exists normalized_values,
    getNormalizedInputs self = Return normalized_values /\
    length normalized_values = length (param_list self) /\
    Forall (fun x => 0 <= x <= 1) normalized_values.
Proof.
  unfold getNormalizedInputs. generalize (param_list self) as names.
  induction names as [|name names IH]; intros Hok.
  - exists []. repeat split. constructor.
  - destruct (Hok name) as (p & v & Hp & Hval & Hv & Hrange & Hlog); [now left|].
    destruct IH as (rest & Hrest & Hlen & Hall).
    { intros n Hn. apply Hok. now right. }
    destruct (normalize_param_unit p v Hval Hrange Hlog Hv) as (x & Hx & Hx01 & _).
    exists (x :: rest). simpl. unfold getattr. rewrite Hp, Hx, Hrest, Hlen.
    repeat split. now constructor.
Qed.

(** Denormalising and normalising again gives the normalised value
    back. *)
Lemma normalize_denormalize_param (p : MetParam) (norm_val : R) :
  min p < max p ->
  (method p = "log10"%string -> 0 < min p) ->
  normalize_param (with_val (Some (denormalize_param p norm_val)) p)
    = Return norm_val.
Proof.
  intros Hrange Hlog. unfold normalize_param, denormalize_param. simpl.
  destruct (String.eqb (method p) "log10") eqn:Hm.
  - apply String.eqb_eq in Hm. specialize (Hlog Hm).
    assert (log10 (min p) < log10 (max p)) by now apply log10_increasing.
    rewrite log10_mult, log10_pow10 by (try apply pow10_pos; lra).
    f_equal. field. lra.
  - f_equal. field. lra.
Qed.

(** [setParamValues] binds the values to the declared names, position by
    position, and touches nothing else. *)
Lemma setParamValues_loop_sets (names : list string) (vals : list R)
    (self : PhysicalParameters) :
  List.NoDup names ->
  length vals = length names ->
  (forall name, In name names -> is_Some (attrs self !! name)) ->
  exists self',
    setParamValues_loop (combine vals names) self = Return self' /\
    param_list self' = param_list self /\
    (forall i name v,
       nth_error names i = Some name -> nth_error vals i = Some v ->
       exists p, attrs self !! name = Some p /\
                 attrs self' !! name = Some (with_val (Some v) p)) /\
    (forall name, ~ In name names -> attrs self' !! name = attrs self !! name).
Proof.
  revert vals self.
  induction names as [|n names IH]; intros vals self Hnodup Hlen Hbound.
  - destruct vals; [|discriminate]. exists self. simpl.
    repeat split; auto. intros [|i] ? ? Hi; discriminate.
  - destruct vals as [|v vals]; [discriminate|].
    apply List.NoDup_cons_iff in Hnodup as [Hfresh Hnodup].
    destruct (Hbound n) as [q Hq]; [now left|].
    simpl. unfold getattr. rewrite Hq.
    destruct (IH vals (setattr n (with_val (Some v) q) self) Hnodup)
      as (self' & Hrun & Hlist & Hset & Hkeep).
    { simpl in Hlen. lia. }
    { intros name Hin. simpl. destruct (decide (n = name)) as [->|Hne].
      - rewrite lookup_insert_eq. eauto.
      - rewrite lookup_insert_ne by exact Hne. apply Hbound. now right. }
    exists self'. split; [exact Hrun|]. split; [exact Hlist|]. split.
    + intros [|i] name w Hi Hw; simpl in Hi, Hw.
      * injection Hi as <-. injection Hw as <-.
        exists q. split; [exact Hq|].
        rewrite (Hkeep n Hfresh). simpl. apply lookup_insert_eq.
      * destruct (Hset i name w Hi Hw) as (p & Hp & Hp').
        simpl in Hp. rewrite lookup_insert_ne in Hp; [eauto|].
        intros ->. apply Hfresh. eapply nth_error_In, Hi.
    + intros name Hnot. rewrite Hkeep by (intros Hin; apply Hnot; now right).
      simpl. apply lookup_insert_ne. intros ->. apply Hnot. now left.
Qed.

(** [setParamValues] followed by [getInputs] returns the values that were
    set. *)
Theorem getInputs_setParamValues (self : PhysicalParameters) (vals : list R) :
  List.NoDup (param_list self) ->
  length vals = length (param_list self) ->
  (forall name, In name (param_list self) -> is_Some (attrs self !! name)) ->
  exists self',
    setParamValues vals self = Return self' /\
    param_list self' = param_list self /\
    getInputs self' = Return (map Some vals).
Proof.
  intros Hnodup Hlen Hbound. unfold setParamValues, getInputs.
  destruct (setParamValues_loop_sets _ vals self Hnodup Hlen Hbound)
    as (self' & Hrun & Hlist & Hset & _).
  exists self'. split; [exact Hrun|]. split; [exact Hlist|]. rewrite Hlist.
  clear Hrun Hlist Hnodup Hbound. revert vals Hlen Hset.
  generalize (attrs self) as a. generalize (attrs self') as a'.
  induction (param_list self) as [|n names IH]; intros a' a vals Hlen Hset.
  - destruct vals; [reflexivity | discriminate].
  - destruct vals as [|v vals]; [discriminate|].
    destruct (Hset 0%nat n v eq_refl eq_refl) as (p & _ & Hp').
    simpl. unfold getattr. rewrite Hp'.
    rewrite (IH a' a vals); [reflexivity | simpl in Hlen; lia |].
    intros i name w Hi Hw. exact (Hset (S i) name w Hi Hw).
Qed.

Lemma normalize_after_set (a a' : gmap string MetParam) (names : list string)
    (norm vals : list R) :
  length norm = length names ->
  length vals = length names ->
  (forall name, In name names ->
     exists p, a !! name = Some p /\ min p < max p /\
               (method p = "log10"%string -> 0 < min p)) ->
  (forall i name x v,
     nth_error names i = Some name -> nth_error norm i = Some x ->
     nth_error vals i = Some v ->
     exists p, a !! name = Some p /\ v = denormalize_param p x) ->
  (forall i name v,
     nth_error names i = Some name -> nth_error vals i = Some v ->
     exists p, a !! name = Some p /\ a' !! name = Some (with_val (Some v) p)) ->
  getNormalizedInputs_loop a' names = Return norm.
Proof.
  revert norm vals.
  induction names as [|n names IH]; intros norm vals Hlen Hvlen Hok Hvals Hbind.
  - destruct norm; [reflexivity | discriminate].
  - destruct norm as [|x norm]; [discriminate|].
    destruct vals as [|v vals]; [discriminate|].
    destruct (Hvals 0%nat n x v eq_refl eq_refl eq_refl) as (p & Hp & ->).
    destruct (Hbind 0%nat n (denormalize_param p x) eq_refl eq_refl)
      as (p0 & Hp0 & Hp').
    rewrite Hp in Hp0. injection Hp0 as <-.
    destruct (Hok n) as (q & Hq & Hrange & Hlog); [now left|].
    rewrite Hp in Hq. injection Hq as <-.
    simpl. unfold getattr. rewrite Hp'.
    rewrite (normalize_denormalize_param p x Hrange Hlog).
    rewrite (IH norm vals); [reflexivity | simpl in *; lia | simpl in *; lia | | |].
    + intros name Hin. apply Hok. now right.
    + intros i name y w Hi Hy Hw. exact (Hvals (S i) name y w Hi Hy Hw).
    + intros i name w Hi Hw. exact (Hbind (S i) name w Hi Hw).
Qed.

(** A normalised vector, denormalised, stored with [setParamValues] and
    normalised again, comes back unchanged. *)
Theorem normalize_denormalize_inputs (self : PhysicalParameters)
    (norm_val_list : list R) :
  List.NoDup (param_list self) ->
  length norm_val_list = length (param_list self) ->
  (forall name, In name (param_list self) ->
     exists p, attrs self !! name = Some p /\ min p < max p /\
               (method p = "log10"%string -> 0 < min p)) ->
  exists vals self',
    getDenormalizedInputs self norm_val_list = Return vals /\
    setParamValues vals self = Return self' /\
    getNormalizedInputs self' = Return norm_val_list.
Proof.
  intros Hnodup Hlen Hok.
  assert (Hden : exists vals,
             getDenormalizedInputs self norm_val_list = Return vals /\
             length vals = length (param_list self) /\
             forall i name x v,
               nth_error (param_list self) i = Some name ->
               nth_error norm_val_list i = Some x ->
               nth_error vals i = Some v ->
               exists p, attrs self !! name = Some p /\
                         v = denormalize_param p x).
  { unfold getDenormalizedInputs. clear Hnodup.
    revert norm_val_list Hlen Hok. generalize (attrs self) as a.
    induction (param_list self) as [|n names IH]; intros a norm Hlen Hok.
    - destruct norm; [|discriminate]. exists []. repeat split.
      intros [|i] ? ? ? Hi; discriminate.
    - destruct norm as [|x norm]; [discriminate|].
      destruct (Hok n) as (p & Hp & _); [now left|].
      destruct (IH a norm) as (vals & Hrun & Hl & Hspec).
      { simpl in Hlen. lia. }
      { intros name Hin. apply Hok. now right. }
      exists (denormalize_param p x :: vals). simpl. unfold getattr.
      rewrite Hp, Hrun, Hl. repeat split.
      intros [|i] name y v Hi Hy Hv; simpl in Hi, Hy, Hv.
      + injection Hi as <-. injection Hy as <-. injection Hv as <-. eauto.
      + eapply Hspec; eassumption. }
  destruct Hden as (vals & Hrun & Hvlen & Hvals).
  destruct (setParamValues_loop_sets (param_list self) vals self Hnodup Hvlen)
    as (self' & Hset & Hlist & Hbind & _).
  { intros name Hin. destruct (Hok name Hin) as (p & -> & _). eauto. }
  exists vals, self'. split; [exact Hrun|]. split; [exact Hset|].
  unfold getNormalizedInputs. rewrite Hlist.
  eapply normalize_after_set; eassumption.
Qed.

Lemma Forall_map_impl {X Y : Type} (P : X -> Prop) (Q : Y -> Prop)
    (f : X -> Y) (l : list X) :
  Forall P l -> (forall x, P x -> Q (f x)) -> Forall Q (map f l).
Proof.
  intros Hall Himpl. induction Hall as [|x l Hx _ IH]; simpl; constructor; auto.
Qed.

(** [normalizeSimulations] maps samples inside the calibration ranges into
    the unit interval, channel by channel, and turns the magnitude scale
    around: of two samples the brighter one (smaller magnitude) gets the
    larger normalised value. *)
Theorem normalizeSimulations_unit (phys_params : PhysicalParameters)
    (camera_params : ErosionSimParameters) (v_init : MetParam)
    (time_data ht_data len_data mag_data : list R) :
  attrs phys_params !! "v_init" = Some v_init ->
  0 < max v_init -> 0 < IZR (data_length camera_params) ->
  0 < fps camera_params -> 0 < max_duration camera_params ->
  ht_min camera_params < ht_max camera_params ->
  mag_brightest camera_params < mag_faintest camera_params ->
  Forall (fun t => 0 <= t <= max_duration camera_params) time_data ->
  Forall (fun h => ht_min camera_params <= h <= ht_max camera_params) ht_data ->
  Forall (fun l => 0 <= l <= max v_init * IZR (data_length camera_params)
                               / fps camera_params) len_data ->
  Forall (fun m => mag_brightest camera_params <= m
                   <= mag_faintest camera_params) mag_data ->
  exists time_normed ht_normed len_normed mag_normed,
    normalizeSimulations phys_params camera_params
      time_data ht_data len_data mag_data
    = Return (time_normed, ht_normed, len_normed, mag_normed) /\
    Forall (fun x => 0 <= x <= 1) time_normed /\
    Forall (fun x => 0 <= x <= 1) ht_normed /\
    Forall (fun x => 0 <= x <= 1) len_normed /\
    Forall (fun x => 0 <= x <= 1) mag_normed /\
    (forall i j m1 m2 n1 n2,
       nth_error mag_data i = Some m1 -> nth_error mag_data j = Some m2 ->
       nth_error mag_normed i = Some n1 -> nth_error mag_normed j = Some n2 ->
       m1 < m2 -> n2 < n1).
Proof.
  intros Hv Hvmax Hlen Hfps Hdur Hht Hmag Htime Hhts Hlens Hmags.
  unfold normalizeSimulations, length_range, getattr. rewrite Hv.
  do 4 eexists. split; [reflexivity|].
  assert (Hunit : forall a lo hi, lo < hi -> lo <= a <= hi ->
            0 <= (a - lo) / (hi - lo) <= 1).
  { intros a lo hi Hlt Ha.
    assert (Hinv : 0 < / (hi - lo)) by (apply Rinv_0_lt_compat; lra).
    assert (Hone : (hi - lo) * / (hi - lo) = 1) by (field; lra).
    unfold Rdiv. split; nra. }
  assert (Hlmax : 0 < max v_init * IZR (data_length camera_params)
                      / fps camera_params).
  { apply Rdiv_lt_0_compat; [now apply Rmult_lt_0_compat | exact Hfps]. }
  repeat split.
  - apply (Forall_map_impl _ _ _ _ Htime). intros t Ht.
    replace (t / max_duration camera_params)
      with ((t - 0) / (max_duration camera_params - 0)) by (field; lra).
    apply Hunit; lra.
  - apply (Forall_map_impl _ _ _ _ Hhts). intros h Hh.
    now apply Hunit.
  - apply (Forall_map_impl _ _ _ _ Hlens). intros l Hl.
    now apply Hunit.
  - apply (Forall_map_impl _ _ _ _ Hmags). intros m Hm.
    assert (Hinv : 0 < / (mag_faintest camera_params - mag_brightest camera_params))
      by (apply Rinv_0_lt_compat; lra).
    assert (Hone : (mag_faintest camera_params - mag_brightest camera_params)
                   * / (mag_faintest camera_params - mag_brightest camera_params) = 1)
      by (field; lra).
    unfold Rdiv. split; nra.
  - intros i j m1 m2 n1 n2 Hm1 Hm2 Hn1 Hn2 Hlt.
    rewrite nth_error_map, Hm1 in Hn1. rewrite nth_error_map, Hm2 in Hn2.
    injection Hn1 as <-. injection Hn2 as <-.
    apply Rmult_lt_compat_r; [apply Rinv_0_lt_compat|]; lra.
Qed.

(** The other composition: normalising what [denormalizeSimulations]
    returns gives back the time, height and length channels and the
    negated magnitude channel. *)
Theorem normalize_denormalize_simulations (phys_params : PhysicalParameters)
    (camera_params : ErosionSimParameters) (v_init : MetParam)
    (time_data ht_data len_data mag_data : list R) :
  attrs phys_params !! "v_init" = Some v_init ->
  max v_init <> 0 ->
  IZR (data_length camera_params) <> 0 ->
  fps camera_params <> 0 ->
  max_duration camera_params <> 0 ->
  ht_max camera_params <> ht_min camera_params ->
  mag_faintest camera_params <> mag_brightest camera_params ->
  exists time_real ht_real len_real mag_real,
    denormalizeSimulations phys_params camera_params
      time_data ht_data len_data mag_data
    = Return (time_real, ht_real, len_real, mag_real)
    /\ normalizeSimulations phys_params camera_params
         time_real ht_real len_real mag_real
       = Return (time_data, ht_data, len_data, map Ropp mag_data).
Proof.
  intros Hv Hvmax Hlen Hfps Hdur Hht Hmag.
  unfold normalizeSimulations, denormalizeSimulations, length_range, getattr.
  rewrite Hv. do 4 eexists. split; [reflexivity|].
  rewrite !map_map. do 2 f_equal; [f_equal; [f_equal|]|].
  - rewrite <- (map_id time_data) at 2. apply map_ext. intros x. now field.
  - rewrite <- (map_id ht_data) at 2. apply map_ext. intros x. field. lra.
  - rewrite <- (map_id len_data) at 2. apply map_ext. intros x. now field.
  - apply map_ext. intros x. field. lra.
Qed.

Lemma getNormalizedInputs_unit_witness :
  exists normalized_values,
    getNormalizedInputs (PhysicalParameters_init 2451545 [])
      = Return normalized_values /\
    length normalized_values = 10%nat /\
    Forall (fun x => 0 <= x <= 1) normalized_values.
Proof.
  apply (getNormalizedInputs_unit (PhysicalParameters_init 2451545 [])).
  intros name Hname. simpl in Hname.
  repeat (destruct Hname as [<-|Hname];
          [eexists _, _; split; [registry_lookup | split; [reflexivity|registry_range]]|]).
  contradiction.
Defined.

Lemma registry_bound jd dens name :
  In name (param_list (PhysicalParameters_init jd dens)) ->
  is_Some (attrs (PhysicalParameters_init jd dens) !! name).
Proof.
  intros Hname. simpl in Hname.
  repeat (destruct Hname as [<-|Hname]; [eexists; registry_lookup|]).
  contradiction.
Qed.

Lemma registry_proper jd dens name :
  In name (param_list (PhysicalParameters_init jd dens)) ->
  exists p, attrs (PhysicalParameters_init jd dens) !! name = Some p /\
            min p < max p /\ (method p = "log10"%string -> 0 < min p).
Proof.
  intros Hname. simpl in Hname.
  repeat (destruct Hname as [<-|Hname];
          [eexists; split; [registry_lookup | registry_range]|]).
  contradiction.
Qed.

Lemma getInputs_setParamValues_witness :
  exists self',
    setParamValues [1 / 10^5; 20000; 1; 1500; 1 / 10^7; 100000; 0; 2;
                    1 / 10^11; 1 / 10^9]
      (PhysicalParameters_init 2451545 []) = Return self' /\
    param_list self' = param_list (PhysicalParameters_init 2451545 []) /\
    getInputs self'
      = Return (map Some [1 / 10^5; 20000; 1; 1500; 1 / 10^7; 100000; 0; 2;
                          1 / 10^11; 1 / 10^9]).
Proof.
  apply (getInputs_setParamValues (PhysicalParameters_init 2451545 [])).
  - apply SamplingProofs.registry_names_nodup.
  - reflexivity.
  - apply registry_bound.
Defined.

Lemma normalize_denormalize_inputs_witness :
  exists vals self',
    getDenormalizedInputs (PhysicalParameters_init 2451545 [])
      [0; 1; 1 / 2; 1 / 4; 1 / 3; 1; 0; 1 / 2; 1 / 10; 9 / 10] = Return vals /\
    setParamValues vals (PhysicalParameters_init 2451545 []) = Return self' /\
    getNormalizedInputs self'
      = Return [0; 1; 1 / 2; 1 / 4; 1 / 3; 1; 0; 1 / 2; 1 / 10; 9 / 10].
Proof.
  apply (normalize_denormalize_inputs (PhysicalParameters_init 2451545 [])).
  - apply SamplingProofs.registry_names_nodup.
  - reflexivity.
  - apply registry_proper.
Defined.

Lemma normalizeSimulations_unit_witness :
  exists time_normed ht_normed len_normed mag_normed,
    normalizeSimulations (PhysicalParameters_init 2451545 [])
      ErosionSimParametersCAMO_init [0; 1 / 80] [100000; 99000] [0; 400] [7; 5]
    = Return (time_normed, ht_normed, len_normed, mag_normed) /\
    Forall (fun x => 0 <= x <= 1) mag_normed.
Proof.
  destruct (normalizeSimulations_unit (PhysicalParameters_init 2451545 [])
              ErosionSimParametersCAMO_init (plain 11000 72000 "uniform" 30520)
              [0; 1 / 80] [100000; 99000] [0; 400] [7; 5])
    as (tn & hn & ln & mn & Hrun & _ & _ & _ & Hmag & _).
  - registry_lookup.
  - cbn [max plain]. lra.
  - camera_field.
  - camera_field.
  - camera_field.
  - camera_field.
  - camera_field.
  - repeat constructor; camera_field.
  - repeat constructor; camera_field.
  - repeat constructor;
      cbv [ErosionSimParametersCAMO_init DATA_LENGTH data_length fps max plain];
      lra.
  - repeat constructor; camera_field.
  - exists tn, hn, ln, mn. auto.
Defined.

Lemma normalize_denormalize_simulations_witness :
  exists time_real ht_real len_real mag_real,
    denormalizeSimulations (PhysicalParameters_init 2451545 [])
      ErosionSimParametersCAMO_init [0; 1 / 2] [0; 1] [1 / 4] [1 / 10; 1]
    = Return (time_real, ht_real, len_real, mag_real)
    /\ normalizeSimulations (PhysicalParameters_init 2451545 [])
         ErosionSimParametersCAMO_init time_real ht_real len_real mag_real
       = Return ([0; 1 / 2], [0; 1], [1 / 4], map Ropp [1 / 10; 1]).
Proof.
  apply (normalize_denormalize_simulations (PhysicalParameters_init 2451545 [])
           ErosionSimParametersCAMO_init (plain 11000 72000 "uniform" 30520)).
  - registry_lookup.
  - cbn [max plain]. lra.
  - camera_field.
  - camera_field.
  - camera_field.
  - camera_field.
  - camera_field.
Defined.

End NormalisationProofs.

(** ** Arrays *)

Module NpProofs.
Import Py Np.

Lemma le_refl x : isnan x = false -> le x x = true.
Proof.
  destruct x; simpl; try reflexivity; try discriminate.
  intros _. apply Qle_bool_iff, Qle_refl.
Qed.

Lemma le_trans x y z : le x y = true -> le y z = true -> le x z = true.
Proof.
  destruct x, y, z; simpl; try reflexivity; try discriminate.
  rewrite !Qle_bool_iff. apply Qle_trans.
Qed.

Lemma le_total x y :
  isnan x = false -> isnan y = false -> le x y = true \/ le y x = true.
Proof.
  destruct x, y; simpl; try discriminate; auto.
  intros _ _. rewrite !Qle_bool_iff.
  destruct (Qlt_le_dec q q0) as [Hlt|Hle]; [left; now apply Qlt_le_weak | now right].
Qed.

Lemma le_not_nan x y : le x y = true -> isnan x = false /\ isnan y = false.
Proof. destruct x, y; simpl; try discriminate; auto. Qed.

Lemma lt_le x y : lt x y = true -> le x y = true.
Proof.
  intros Hlt. assert (Hx : isnan x = false /\ isnan y = false).
  { destruct x, y; simpl in *; try discriminate; auto. }
  destruct Hx as [Hx Hy]. destruct (le_total x y Hx Hy) as [H|H]; [exact H|].
  destruct x, y; simpl in *; try discriminate; rewrite H in Hlt; discriminate.
Qed.

Lemma lt_iff x y :
  lt x y = true <-> le y x = false /\ isnan x = false /\ isnan y = false.
Proof.
  destruct x, y; simpl; split; try tauto; try (intros (? & ? & ?); discriminate);
    try (intros H; discriminate H);
    try (intros H; apply negb_true_iff in H; auto);
    try (intros (H & _ & _); now rewrite H).
Qed.

Lemma lt_le_trans x y z : lt x y = true -> le y z = true -> lt x z = true.
Proof.
  rewrite !lt_iff. intros (Hyx & Hx & Hy) Hyz.
  destruct (le_not_nan _ _ Hyz) as [_ Hz]. repeat split; try assumption.
  destruct (le z x) eqn:Hzx; [|reflexivity].
  rewrite (le_trans _ _ _ Hyz Hzx) in Hyx. discriminate.
Qed.

Lemma le_lt_trans x y z : le x y = true -> lt y z = true -> lt x z = true.
Proof.
  rewrite !lt_iff. intros Hxy (Hzy & Hy & Hz).
  destruct (le_not_nan _ _ Hxy) as [Hx _]. repeat split; try assumption.
  destruct (le z x) eqn:Hzx; [|reflexivity].
  rewrite (le_trans _ _ _ Hzx Hxy) in Hzy. discriminate.
Qed.

(** Python's [min] of two numbers is below both. *)
Lemma py_min_le x y :
  isnan x = false -> isnan y = false ->
  le (py_min x y) x = true /\ le (py_min x y) y = true /\
  isnan (py_min x y) = false.
Proof.
  intros Hx Hy. unfold py_min. destruct (lt y x) eqn:Hlt.
  - split; [now apply lt_le|]. split; [now apply le_refl | exact Hy].
  - split; [now apply le_refl|]. split; [|exact Hx].
    destruct (le_total x y Hx Hy) as [H|H]; [exact H|].
    destruct (le x y) eqn:Hxy; [reflexivity|].
    assert (lt y x = true) by (apply lt_iff; auto). congruence.
Qed.

(** *** The running maximum that ignores NaN *)

Lemma fmax_nan_iff x y : isnan (fmax x y) = true <-> isnan x = true /\ isnan y = true.
Proof.
  destruct x, y; simpl; try tauto;
    try (destruct (Qle_bool q q0)); simpl; intuition discriminate.
Qed.

Lemma fmax_upper x y :
  (isnan x = false -> le x (fmax x y) = true) /\
  (isnan y = false -> le y (fmax x y) = true).
Proof.
  destruct (isnan x) eqn:Hx, (isnan y) eqn:Hy.
  - split; discriminate.
  - destruct x; try discriminate. simpl. split; [discriminate|].
    intros _. now apply le_refl.
  - destruct y; try discriminate.
    replace (fmax x NaN) with x by now destruct x.
    split; [intros _; now apply le_refl | discriminate].
  - assert (Hf : fmax x y = if le x y then y else x)
      by (destruct x, y; try discriminate; reflexivity).
    rewrite Hf. destruct (le x y) eqn:Hle.
    + split; intros _; [exact Hle | now apply le_refl].
    + split; intros _; [now apply le_refl|].
      destruct (le_total x y Hx Hy); congruence.
Qed.

Lemma fmax_choice x y : fmax x y = x \/ fmax x y = y.
Proof. destruct x, y; simpl; auto; destruct (Qle_bool q q0); auto. Qed.

Lemma fold_fmax rest x :
  let m := fold_left fmax rest x in
  In m (x :: rest) /\
  (isnan m = true <-> Forall (fun y => isnan y = true) (x :: rest)) /\
  (forall y, In y (x :: rest) -> isnan y = false -> le y m = true).
Proof.
  revert x. induction rest as [|z rest IH]; intros x; simpl.
  - split; [now left|]. split.
    + split; [intros H; now repeat constructor | intros H; now inversion H].
    + intros y [<-|[]] Hy. now apply le_refl.
  - destruct (IH (fmax x z)) as (Hin & Hnan & Hupper). simpl in *.
    split; [|split].
    + destruct Hin as [Hin|Hin]; [|auto].
      destruct (fmax_choice x z) as [H|H]; [left | right; left]; congruence.
    + rewrite Hnan. split.
      * intros H. inversion H as [|? ? Hxz Hrest]; subst.
        apply fmax_nan_iff in Hxz as [Hx Hz]. now repeat constructor.
      * intros H. inversion H as [|? ? Hx H']; subst.
        inversion H' as [|? ? Hz Hrest]; subst.
        constructor; [now apply fmax_nan_iff | exact Hrest].
    + intros y Hy Hynan.
      assert (Hm : isnan (fmax x z) = false -> le (fmax x z)
                     (fold_left fmax rest (fmax x z)) = true).
      { intros H. apply Hupper; auto. }
      destruct (fmax_upper x z) as [Hx Hz].
      destruct Hy as [<-|[<-|Hy]].
      * eapply le_trans; [now apply Hx|]. apply Hm.
        destruct (isnan (fmax x z)) eqn:E; [|reflexivity].
        apply fmax_nan_iff in E as [E _]. congruence.
      * eapply le_trans; [now apply Hz|]. apply Hm.
        destruct (isnan (fmax x z)) eqn:E; [|reflexivity].
        apply fmax_nan_iff in E as [_ E]. congruence.
      * apply Hupper; auto.
Qed.

(** *** Boolean arrays *)

Lemma first_true_some b k :
  first_true b = Some k ->
  nth_error b k = Some true /\ forall j, (j < k)%nat -> nth_error b j = Some false.
Proof.
  revert k. induction b as [|x b IH]; intros k Hk; [discriminate|].
  destruct x; simpl in Hk.
  - injection Hk as <-. split; [reflexivity | intros j Hj; lia].
  - destruct (first_true b) as [k'|]; [|discriminate].
    injection Hk as <-. destruct (IH k' eq_refl) as [Hat Hbefore].
    split; [exact Hat|]. intros [|j] Hj; [reflexivity|]. apply Hbefore. lia.
Qed.

Lemma first_true_none b : first_true b = None <-> existsb (fun x => x) b = false.
Proof.
  induction b as [|x b IH]; simpl; [tauto|].
  destruct x; simpl; [split; discriminate|].
  rewrite <- IH. destruct (first_true b); simpl; split; congruence.
Qed.

Lemma nth_error_clear_to k a i x :
  nth_error a i = Some x ->
  nth_error (clear_to k a) i = Some (if (i <? k)%nat then false else x).
Proof.
  intros Hx. assert (Hi : (i < length a)%nat) by (apply nth_error_Some; congruence).
  unfold clear_to. destruct (Nat.ltb_spec i k).
  - rewrite nth_error_app1 by (rewrite repeat_length; lia).
    apply nth_error_repeat. lia.
  - rewrite nth_error_app2 by (rewrite repeat_length; lia).
    rewrite repeat_length, nth_error_skipn.
    replace (k + (i - Nat.min k (length a)))%nat with i by lia. exact Hx.
Qed.

Lemma nth_error_clear_from_end k a i x :
  nth_error a i = Some x ->
  nth_error (clear_from_end k a) i
    = Some (if (k =? 0)%nat || (length a - k <=? i)%nat then false else x).
Proof.
  intros Hx. assert (Hi : (i < length a)%nat) by (apply nth_error_Some; congruence).
  unfold clear_from_end. destruct (Nat.eqb_spec k 0) as [->|Hk]; simpl.
  - rewrite Nat.sub_0_r. apply nth_error_repeat. exact Hi.
  - destruct (Nat.leb_spec (length a - k) i).
    + rewrite nth_error_app2 by (rewrite length_firstn; lia).
      apply nth_error_repeat. rewrite length_firstn. lia.
    + rewrite nth_error_app1 by (rewrite length_firstn; lia).
      rewrite nth_error_firstn. destruct (Nat.ltb_spec i (length a - k)); [exact Hx | lia].
Qed.

Lemma nth_error_combine {X Y : Type} (l : list X) (l' : list Y) i x y :
  nth_error l i = Some x -> nth_error l' i = Some y ->
  nth_error (combine l l') i = Some (x, y).
Proof.
  revert l' i. induction l as [|a l IH]; intros [|b l'] [|i] Hx Hy;
    try discriminate; simpl in *.
  - congruence.
  - now apply IH.
Qed.

Lemma clear_where_returns cond a :
  length cond = length a ->
  exists a',
    clear_where cond a = Return a' /\ length a' = length a /\
    forall i c x, nth_error cond i = Some c -> nth_error a i = Some x ->
      nth_error a' i = Some (if c then false else x).
Proof.
  intros Hlen. unfold clear_where. rewrite Hlen, Nat.eqb_refl.
  eexists. split; [reflexivity|]. split.
  - rewrite length_map, length_combine. lia.
  - intros i c x Hc Hx. rewrite nth_error_map.
    erewrite nth_error_combine by eassumption. reflexivity.
Qed.

End NpProofs.

(** ** The visible samples of a simulation *)

Module VisibilityProofs.
Import Py Np Visibility NpProofs.

(** Line 707.  On an empty array the statement raises.  Otherwise every
    NaN entry is overwritten with [np.nanmax] of the array and every other
    entry, the infinities included, is left alone.  [np.nanmax] is an entry
    of the array and bounds the entries that are not NaN; it is NaN only
    when all entries are, so that one entry that is not NaN is enough to
    leave no NaN behind. *)
Theorem fix_nan_replaces (abs_magnitude : list float64) :
  match abs_magnitude with
  | [] => fix_nan abs_magnitude = Raise ValueError
  | _ :: _ =>
      exists m fixed,
        nanmax abs_magnitude = Return m /\
        fix_nan abs_magnitude = Return fixed /\
        length fixed = length abs_magnitude /\
        (forall i x, nth_error abs_magnitude i = Some x ->
           nth_error fixed i = Some (if isnan x then m else x)) /\
        In m abs_magnitude /\
        (forall x, In x abs_magnitude -> isnan x = false -> le x m = true) /\
        (isnan m = true <-> Forall (fun x => isnan x = true) abs_magnitude) /\
        (isnan m = false -> Forall (fun x => isnan x = false) fixed)
  end.
Proof.
  destruct abs_magnitude as [|x rest]; [reflexivity|].
  destruct (fold_fmax rest x) as (Hin & Hnan & Hupper).
  exists (fold_left fmax rest x). eexists.
  split; [reflexivity|]. split; [reflexivity|].
  split; [apply length_map|]. split; [|split; [exact Hin|split; [exact Hupper|]]].
  - intros i y Hy. now rewrite nth_error_map, Hy.
  - split; [exact Hnan|]. intros Hm.
    generalize (x :: rest). intros l. induction l as [|y l IH]; simpl; constructor.
    + destruct (isnan y) eqn:Hy; [exact Hm | exact Hy].
    + exact IH.
Qed.

Lemma existsb_map {X Y : Type} (f : Y -> bool) (g : X -> Y) (l : list X) :
  existsb f (map g l) = existsb (fun x => f (g x)) l.
Proof. induction l as [|x l IH]; simpl; [reflexivity | now rewrite IH]. Qed.

(** Clearing up to the first [true]: an entry survives if a [true] occurs
    at or before it, or if there is no [true] at all. *)
Lemma first_true_prefix (b : list bool) (i : nat) :
  negb (i <? match first_true b with Some k => k | None => O end)%nat
  = existsb (fun x => x) (firstn (S i) b) || negb (existsb (fun x => x) b).
Proof.
  revert i. induction b as [|x b IH]; intros i; [reflexivity|].
  destruct x; [reflexivity|]. simpl first_true.
  destruct i as [|i].
  - simpl. destruct (first_true b) as [k|] eqn:Hk; simpl.
    + destruct (existsb (fun x => x) b) eqn:He; [reflexivity|].
      apply first_true_none in He. congruence.
    + apply first_true_none in Hk. now rewrite Hk.
  - specialize (IH i). simpl firstn in *. simpl existsb.
    rewrite <- IH. now destruct (first_true b).
Qed.

(** Clearing from the last [true] on, counted from the end. *)
Lemma first_true_suffix (b : list bool) (i : nat) :
  (i < length b)%nat ->
  existsb (fun x => x) (skipn i b)
  = match first_true (rev b) with
    | Some k => (i <? length b - k)%nat
    | None => false
    end.
Proof.
  revert i. induction b as [|x b IH] using rev_ind; intros i Hi; [simpl in Hi; lia|].
  rewrite rev_app_distr, length_app. simpl rev. simpl length. simpl app.
  destruct x; simpl first_true.
  - rewrite skipn_app, existsb_app.
    rewrite length_app in Hi. simpl in Hi.
    replace (i - length b)%nat with O by lia. simpl.
    rewrite orb_true_r. symmetry. apply Nat.ltb_lt. lia.
  - rewrite length_app in Hi. simpl in Hi.
    rewrite skipn_app, existsb_app.
    assert (Htail : existsb (fun x => x) (skipn (i - length b) [false]) = false).
    { destruct (i - length b)%nat as [|[|n]]; reflexivity. }
    rewrite Htail, orb_false_r.
    destruct (Nat.eq_dec i (length b)) as [->|Hne].
    + rewrite skipn_all. simpl. destruct (first_true (rev b)) as [k|]; simpl; auto.
      symmetry. apply Nat.ltb_ge. lia.
    + rewrite IH by lia. destruct (first_true (rev b)) as [k|]; simpl; auto.
      destruct (Nat.ltb_spec i (length b - k)), (Nat.ltb_spec i (length b + 1 - S k));
        auto; lia.
Qed.

Lemma last_item_rev {X : Type} (a : list X) final :
  last_item a = Return final -> exists body, a = body ++ [final].
Proof.
  unfold last_item. destruct (rev a) as [|x r] eqn:Hrev; [discriminate|].
  intros [= ->]. exists (rev r).
  rewrite <- (rev_involutive a), Hrev. reflexivity.
Qed.

(** Lines 717-725: the magnitude part of the mask. *)
Lemma magnitude_mask_spec (abs_magnitude : list float64)
    (starting_lim_mag ending_lim_mag final : float64) :
  last_item abs_magnitude = Return final ->
  exists mask,
    magnitude_mask abs_magnitude starting_lim_mag ending_lim_mag = Return mask /\
    length mask = length abs_magnitude /\
    forall i m,
      nth_error abs_magnitude i = Some m ->
      nth_error mask i
      = Some ((existsb (fun x => le x starting_lim_mag) (firstn (S i) abs_magnitude)
               || negb (existsb (fun x => le x starting_lim_mag) abs_magnitude))
              && (negb (gt final ending_lim_mag)
                  || existsb (fun x => le x ending_lim_mag) (skipn i abs_magnitude))
              && negb (ge m (py_min starting_lim_mag ending_lim_mag))).
Proof.
  intros Hlast.
  destruct (last_item_rev _ _ Hlast) as (body & Hbody).
  assert (Hne : abs_magnitude <> []) by (rewrite Hbody; now destruct body).
  unfold magnitude_mask, trim_start, trim_end. rewrite Hlast.
  set (n := length abs_magnitude).
  set (ks := match first_true (map (fun m => le m starting_lim_mag) abs_magnitude)
             with Some k => k | None => O end).
  assert (Hargs : argmax (map (fun m => le m starting_lim_mag) abs_magnitude)
                  = Return ks).
  { destruct abs_magnitude; [contradiction | reflexivity]. }
  rewrite Hargs.
  set (ke := match first_true (map (fun m => le m ending_lim_mag) (rev abs_magnitude))
             with Some k => k | None => O end).
  assert (Harge : argmax (map (fun m => le m ending_lim_mag) (rev abs_magnitude))
                  = Return ke).
  { destruct (rev abs_magnitude) eqn:Hrev; [|reflexivity].
    apply (f_equal (@rev _)) in Hrev. rewrite rev_involutive in Hrev.
    contradiction. }
  set (mask1 := clear_to ks (repeat true n)).
  assert (Hlen1 : length mask1 = n).
  { unfold mask1, clear_to. rewrite length_app, repeat_length, length_skipn,
      repeat_length. lia. }
  set (mask2 := if gt final ending_lim_mag then clear_from_end ke mask1 else mask1).
  assert (Hlen2 : length mask2 = n).
  { unfold mask2. destruct (gt final ending_lim_mag); [|exact Hlen1].
    unfold clear_from_end. rewrite length_app, length_firstn, repeat_length.
    destruct (ke =? 0)%nat; lia. }
  rewrite Harge.
  replace (if gt final ending_lim_mag
           then Return (clear_from_end ke mask1) else Return mask1)
    with (Return (X := list bool) mask2)
    by (unfold mask2; now destruct (gt final ending_lim_mag)).
  destruct (clear_where_returns
              (map (fun m => ge m (py_min starting_lim_mag ending_lim_mag))
                 abs_magnitude) mask2) as (mask3 & -> & Hlen3 & Hmask3).
  { now rewrite length_map. }
  exists mask3. split; [reflexivity|]. split; [lia|].
  intros i m Hm.
  assert (Hi : (i < n)%nat) by (apply nth_error_Some; congruence).
  (* the start *)
  assert (H1 : nth_error mask1 i
               = Some (existsb (fun x => le x starting_lim_mag)
                         (firstn (S i) abs_magnitude)
                       || negb (existsb (fun x => le x starting_lim_mag)
                                  abs_magnitude))).
  { unfold mask1. rewrite (nth_error_clear_to ks _ i true)
      by (apply nth_error_repeat; exact Hi).
    f_equal. pose proof (first_true_prefix
                           (map (fun m => le m starting_lim_mag) abs_magnitude) i)
      as Hpre.
    rewrite firstn_map, !existsb_map in Hpre. fold ks in Hpre.
    rewrite <- Hpre. now destruct (i <? ks)%nat. }
  (* the end *)
  assert (H2 : nth_error mask2 i
               = Some ((existsb (fun x => le x starting_lim_mag)
                          (firstn (S i) abs_magnitude)
                        || negb (existsb (fun x => le x starting_lim_mag)
                                   abs_magnitude))
                       && (negb (gt final ending_lim_mag)
                           || existsb (fun x => le x ending_lim_mag)
                                (skipn i abs_magnitude)))).
  { unfold mask2. destruct (gt final ending_lim_mag) eqn:Hguard; simpl.
    2:{ rewrite H1. now rewrite andb_true_r. }
    rewrite (nth_error_clear_from_end ke mask1 i _ H1). f_equal.
    pose proof (first_true_suffix
                  (map (fun m => le m ending_lim_mag) abs_magnitude) i) as Hsuf.
    rewrite length_map, skipn_map, existsb_map, <- map_rev in Hsuf.
    specialize (Hsuf Hi). rewrite Hsuf, Hlen1. unfold ke. fold n.
    destruct (first_true (map (fun m => le m ending_lim_mag) (rev abs_magnitude)))
      as [k|] eqn:Hk.
    - assert (Hk0 : k <> O).
      { intros ->. apply first_true_some in Hk as [Hk _].
        rewrite Hbody, rev_app_distr in Hk. simpl in Hk. injection Hk as Hk.
        unfold gt in Hguard. apply lt_iff in Hguard as [Hle _]. congruence. }
      destruct (Nat.eqb_spec k 0); [contradiction|]. simpl.
      destruct (Nat.leb_spec (n - k) i), (Nat.ltb_spec i (n - k)); try lia;
        simpl; now rewrite ?andb_true_r, ?andb_false_r.
    - simpl. now rewrite andb_false_r. }
  rewrite (Hmask3 i (ge m (py_min starting_lim_mag ending_lim_mag)) _
             ltac:(now rewrite nth_error_map, Hm) H2).
  f_equal. destruct (ge m (py_min starting_lim_mag ending_lim_mag)); simpl;
    now rewrite ?andb_true_r, ?andb_false_r.
Qed.

(** Lines 717-729.  The mask has one flag per magnitude sample.  Sample
    [i] is visible exactly if
    - a sample at or before [i] is at or below the starting limiting
      magnitude, or no sample of the run is;
    - the last sample is not fainter than the ending limiting magnitude,
      or a sample at or after [i] is at or below it;
    - the magnitude of [i] is not at or above the smaller of the two
      limiting magnitudes;
    - the height of [i] is neither above [ht_max] nor below [ht_min]. *)
Theorem indices_visible_spec (abs_magnitude brightest_height_arr : list float64)
    (starting_lim_mag ending_lim_mag ht_min ht_max final : float64) :
  last_item abs_magnitude = Return final ->
  length brightest_height_arr = length abs_magnitude ->
  exists mask,
    indices_visible abs_magnitude brightest_height_arr
      starting_lim_mag ending_lim_mag ht_min ht_max = Return mask /\
    length mask = length abs_magnitude /\
    forall i m h,
      nth_error abs_magnitude i = Some m ->
      nth_error brightest_height_arr i = Some h ->
      nth_error mask i
      = Some ((existsb (fun x => le x starting_lim_mag) (firstn (S i) abs_magnitude)
               || negb (existsb (fun x => le x starting_lim_mag) abs_magnitude))
              && (negb (gt final ending_lim_mag)
                  || existsb (fun x => le x ending_lim_mag) (skipn i abs_magnitude))
              && negb (ge m (py_min starting_lim_mag ending_lim_mag))
              && negb (gt h ht_max || lt h ht_min)).
Proof.
  intros Hlast Hlen. unfold indices_visible.
  destruct (magnitude_mask_spec abs_magnitude starting_lim_mag ending_lim_mag
              final Hlast) as (mask3 & -> & Hlen3 & Hmask3).
  destruct (clear_where_returns
              (map (fun h => gt h ht_max || lt h ht_min) brightest_height_arr)
              mask3) as (mask4 & -> & Hlen4 & Hmask4).
  { rewrite length_map. lia. }
  exists mask4. split; [reflexivity|]. split; [lia|].
  intros i m h Hm Hh.
  rewrite (Hmask4 i (gt h ht_max || lt h ht_min) _
             ltac:(now rewrite nth_error_map, Hh) (Hmask3 i m Hm)).
  f_equal. destruct (gt h ht_max || lt h ht_min); simpl;
    now rewrite ?andb_true_r, ?andb_false_r.
Qed.

(** The mask is computed only for a run that has samples, with one height
    per magnitude. *)
Lemma indices_visible_shape (abs_magnitude brightest_height_arr : list float64)
    (starting_lim_mag ending_lim_mag ht_min ht_max : float64) mask :
  indices_visible abs_magnitude brightest_height_arr
    starting_lim_mag ending_lim_mag ht_min ht_max = Return mask ->
  (exists final, last_item abs_magnitude = Return final) /\
  length brightest_height_arr = length abs_magnitude.
Proof.
  intros Hrun.
  destruct (last_item abs_magnitude) as [final|e] eqn:Hlast.
  - split; [eauto|]. unfold indices_visible in Hrun.
    destruct (magnitude_mask_spec abs_magnitude starting_lim_mag ending_lim_mag
                final Hlast) as (mask3 & Hm3 & Hlen3 & _).
    rewrite Hm3 in Hrun. unfold clear_where in Hrun.
    rewrite length_map in Hrun.
    destruct (Nat.eqb_spec (length brightest_height_arr) (length mask3));
      [lia | discriminate].
  - exfalso. unfold indices_visible, magnitude_mask, trim_start, trim_end in Hrun.
    rewrite Hlast in Hrun.
    destruct (argmax (map (fun m => le m starting_lim_mag) abs_magnitude));
      discriminate.
Qed.

(** Selection by a mask keeps the entries whose flag is set, in order. *)
Lemma select_spec {X : Type} (mask : list bool) (a : list X) :
  length mask = length a ->
  exists l,
    select mask a = Return l /\
    length l = length (List.filter (fun b => b) mask) /\
    forall P : X -> Prop,
      (forall i x, nth_error mask i = Some true -> nth_error a i = Some x -> P x) ->
      Forall P l.
Proof.
  intros Hlen. unfold select. rewrite Hlen, Nat.eqb_refl.
  eexists. split; [reflexivity|].
  revert a Hlen. induction mask as [|b mask IH]; intros [|x a] Hlen;
    try discriminate; simpl.
  - split; [reflexivity | constructor].
  - destruct (IH a ltac:(simpl in Hlen; lia)) as [Hl Hall].
    destruct b; simpl.
    + split; [now rewrite Hl|]. intros P HP. constructor.
      * exact (HP 0%nat x eq_refl eq_refl).
      * apply Hall. intros i y Hi Hy. exact (HP (S i) y Hi Hy).
    + split; [exact Hl|]. intros P HP. apply Hall.
      intros i y Hi Hy. exact (HP (S i) y Hi Hy).
Qed.

Lemma select_shape {X : Type} (mask : list bool) (a l : list X) :
  select mask a = Return l -> length mask = length a.
Proof.
  unfold select. destruct (Nat.eqb_spec (length mask) (length a)); [auto|discriminate].
Qed.

Lemma any_filter (mask : list bool) :
  any mask = true -> List.filter (fun b => b) mask <> [].
Proof.
  unfold any. induction mask as [|b mask IH]; simpl; [discriminate|].
  destruct b; simpl; [discriminate | exact IH].
Qed.

(** A height that line 727 does not mask is inside the bounds, unless a
    NaN is involved. *)
Lemma not_masked_inside (h ht_min ht_max : float64) :
  gt h ht_max = false -> lt h ht_min = false ->
  isnan h = false -> isnan ht_min = false -> isnan ht_max = false ->
  le ht_min h = true /\ le h ht_max = true.
Proof.
  unfold gt, lt. intros Hmax Hmin Hh Hlo Hhi.
  destruct h; try discriminate; destruct ht_min; try discriminate;
    destruct ht_max; try discriminate;
    apply negb_false_iff in Hmax; apply negb_false_iff in Hmin; auto.
Qed.

(** What [extractSimData] lets through.  When lines 706-755 end with a
    visible segment, the four selected arrays have the same, non-zero,
    number of samples; every selected magnitude is strictly below both
    limiting magnitudes, unless it is NaN; and no selected height is
    above [ht_max] or below [ht_min]: it is inside [ht_min, ht_max]
    unless it is NaN (both comparisons of line 727 fail for a NaN height,
    which is kept) or a bound is NaN. *)
Theorem visible_samples_sound (sim_results : SimulationResults)
    (starting_lim_mag ending_lim_mag peak_mag_faintest ht_min ht_max
       visibility_time_min : float64)
    (time_visible mag_visible ht_visible len_visible : list float64) :
  isnan starting_lim_mag = false ->
  isnan ending_lim_mag = false ->
  visible_samples sim_results starting_lim_mag ending_lim_mag
    peak_mag_faintest ht_min ht_max visibility_time_min
  = Return (Some (time_visible, mag_visible, ht_visible, len_visible)) ->
  mag_visible <> [] /\
  length time_visible = length mag_visible /\
  length ht_visible = length mag_visible /\
  length len_visible = length mag_visible /\
  Forall (fun m => isnan m = true \/
                   (lt m starting_lim_mag = true /\ lt m ending_lim_mag = true))
    mag_visible /\
  Forall (fun h => gt h ht_max = false /\ lt h ht_min = false /\
                   (isnan h = false -> isnan ht_min = false ->
                    isnan ht_max = false ->
                    le ht_min h = true /\ le h ht_max = true))
    ht_visible.
Proof.
  intros Hstart Hend Hrun. unfold visible_samples in Hrun.
  destruct (fix_nan (abs_magnitude sim_results)) as [mag|e]; [|discriminate].
  destruct (never_bright mag peak_mag_faintest) as [[|]|e]; try discriminate.
  destruct (indices_visible mag (brightest_height_arr sim_results)
              starting_lim_mag ending_lim_mag ht_min ht_max) as [mask|e] eqn:Hmask;
    [|discriminate].
  destruct (any mask) eqn:Hany; [|discriminate]. simpl in Hrun.
  destruct (too_short (time_arr sim_results) mask visibility_time_min)
    as [[|]|e]; try discriminate.
  destruct (select mask (time_arr sim_results)) as [tv|e] eqn:Htv; [|discriminate].
  destruct (select mask mag) as [mv|e] eqn:Hmv;
    [|destruct (select mask (brightest_height_arr sim_results));
      destruct (select mask (brightest_length_arr sim_results)); discriminate].
  destruct (select mask (brightest_height_arr sim_results)) as [hv|e] eqn:Hhv;
    [|destruct (select mask (brightest_length_arr sim_results)); discriminate].
  destruct (select mask (brightest_length_arr sim_results)) as [lv|e] eqn:Hlv;
    [|discriminate].
  injection Hrun as <- <- <- <-.
  destruct (indices_visible_shape _ _ _ _ _ _ _ Hmask) as [[final Hlast] Hlen].
  destruct (indices_visible_spec mag (brightest_height_arr sim_results)
              starting_lim_mag ending_lim_mag ht_min ht_max final Hlast Hlen)
    as (mask' & Hmask' & Hmlen & Hspec).
  rewrite Hmask in Hmask'. injection Hmask' as <-.
  destruct (select_spec mask (time_arr sim_results) (select_shape _ _ _ Htv))
    as (tv' & Htv' & Htlen & _).
  destruct (select_spec mask mag (select_shape _ _ _ Hmv))
    as (mv' & Hmv' & Hmvlen & Hmall).
  destruct (select_spec mask (brightest_height_arr sim_results)
              (select_shape _ _ _ Hhv)) as (hv' & Hhv' & Hhlen & Hhall).
  destruct (select_spec mask (brightest_length_arr sim_results)
              (select_shape _ _ _ Hlv)) as (lv' & Hlv' & Hllen & _).
  rewrite Htv in Htv'. rewrite Hmv in Hmv'. rewrite Hhv in Hhv'.
  rewrite Hlv in Hlv'.
  injection Htv' as <-. injection Hmv' as <-. injection Hhv' as <-.
  injection Hlv' as <-.
  split.
  { intros ->. apply (any_filter mask Hany).
    destruct (List.filter (fun b => b) mask); [reflexivity | discriminate]. }
  split; [congruence|]. split; [congruence|]. split; [congruence|].
  destruct (py_min_le starting_lim_mag ending_lim_mag Hstart Hend)
    as (Hle_s & Hle_e & Hpm).
  split.
  - apply Hmall. intros i m Hi Hm.
    assert (Hh : exists h, nth_error (brightest_height_arr sim_results) i = Some h).
    { destruct (nth_error (brightest_height_arr sim_results) i) eqn:E; [eauto|].
      apply nth_error_None in E.
      assert ((i < length mag)%nat) by (apply nth_error_Some; congruence). lia. }
    destruct Hh as [h Hh]. rewrite (Hspec i m h Hm Hh) in Hi.
    injection Hi as Hi. apply andb_true_iff in Hi as [Hi _].
    apply andb_true_iff in Hi as [_ Hi]. apply negb_true_iff in Hi.
    unfold ge in Hi. destruct (isnan m) eqn:Hnan; [now left | right].
    assert (Hlt : lt m (py_min starting_lim_mag ending_lim_mag) = true)
      by (apply lt_iff; auto).
    split; eapply lt_le_trans; eassumption.
  - apply (List.Forall_impl
             (P := fun h => gt h ht_max = false /\ lt h ht_min = false)).
    { intros h [Hmax Hmin]. split; [exact Hmax|]. split; [exact Hmin|].
      now apply not_masked_inside. }
    apply Hhall. intros i h Hi Hh.
    assert (Hm : exists m, nth_error mag i = Some m).
    { destruct (nth_error mag i) eqn:E; [eauto|].
      apply nth_error_None in E.
      assert ((i < length (brightest_height_arr sim_results))%nat)
        by (apply nth_error_Some; congruence). lia. }
    destruct Hm as [m Hm]. rewrite (Hspec i m h Hm Hh) in Hi.
    injection Hi as Hi. apply andb_true_iff in Hi as [_ Hi].
    apply negb_true_iff in Hi. now apply orb_false_iff in Hi.
Qed.

(** A run that never gets as bright as the starting limiting magnitude is
    rejected: if every magnitude sample is above the starting limiting
    magnitude, [extractSimData] returns [None], whatever the other
    settings are. *)
Theorem visible_samples_never_detected (sim_results : SimulationResults)
    (starting_lim_mag ending_lim_mag peak_mag_faintest ht_min ht_max
       visibility_time_min : float64) :
  abs_magnitude sim_results <> [] ->
  length (brightest_height_arr sim_results) = length (abs_magnitude sim_results) ->
  isnan ending_lim_mag = false ->
  Forall (fun m => gt m starting_lim_mag = true) (abs_magnitude sim_results) ->
  visible_samples sim_results starting_lim_mag ending_lim_mag
    peak_mag_faintest ht_min ht_max visibility_time_min
  = Return None.
Proof.
  intros Hne Hlen Hend Hfaint. unfold visible_samples.
  pose proof (fix_nan_replaces (abs_magnitude sim_results)) as Hfix.
  destruct (abs_magnitude sim_results) as [|m0 rest] eqn:Hmag; [contradiction|].
  destruct Hfix as (mx & mag & _ & -> & Hflen & Hfixed & _).
  assert (Hsame : mag = m0 :: rest).
  { apply nth_error_ext. intros i.
    destruct (nth_error (m0 :: rest) i) as [x|] eqn:Hx.
    - rewrite (Hfixed i x Hx).
      assert (Hg : gt x starting_lim_mag = true).
      { apply nth_error_In in Hx.
        apply (proj1 (List.Forall_forall _ _) Hfaint). exact Hx. }
      unfold gt in Hg. apply lt_iff in Hg as (_ & _ & Hnan). now rewrite Hnan.
    - apply nth_error_None. apply nth_error_None in Hx. lia. }
  subst mag.
  assert (Hstart : isnan starting_lim_mag = false).
  { inversion Hfaint as [|? ? Hg _]; subst. unfold gt in Hg.
    now apply lt_iff in Hg. }
  destruct (never_bright (m0 :: rest) peak_mag_faintest) as [[|]|e] eqn:Hnb;
    [reflexivity | | discriminate Hnb].
  assert (Hlast : exists final, last_item (m0 :: rest) = Return final).
  { unfold last_item. destruct (rev (m0 :: rest)) eqn:Hrev; [|eauto].
    apply (f_equal (@rev _)) in Hrev. rewrite rev_involutive in Hrev.
    discriminate. }
  destruct Hlast as [final Hlast].
  destruct (indices_visible_spec (m0 :: rest) (brightest_height_arr sim_results)
              starting_lim_mag ending_lim_mag ht_min ht_max final Hlast Hlen)
    as (mask & -> & Hmlen & Hspec).
  assert (Hnone : any mask = false).
  { unfold any. apply not_true_is_false. intros Hex.
    apply existsb_exists in Hex as (b & Hin & ->).
    apply In_nth_error in Hin as [i Hi].
    assert (Hil : (i < length mask)%nat) by (apply nth_error_Some; congruence).
    destruct (nth_error (m0 :: rest) i) as [m|] eqn:Hm;
      [|apply nth_error_None in Hm; lia].
    destruct (nth_error (brightest_height_arr sim_results) i) as [h|] eqn:Hh;
      [|apply nth_error_None in Hh; lia].
    rewrite (Hspec i m h Hm Hh) in Hi. injection Hi as Hi.
    apply andb_true_iff in Hi as [Hi _]. apply andb_true_iff in Hi as [_ Hi].
    apply negb_true_iff in Hi. unfold ge in Hi.
    assert (Hg : gt m starting_lim_mag = true).
    { apply nth_error_In in Hm.
      apply (proj1 (List.Forall_forall _ _) Hfaint). exact Hm. }
    unfold gt in Hg.
    destruct (py_min_le starting_lim_mag ending_lim_mag Hstart Hend)
      as (Hle_s & _ & _).
    pose proof (lt_le _ _ (le_lt_trans _ _ _ Hle_s Hg)). congruence. }
  now rewrite Hnone.
Qed.

Lemma select_all {X : Type} (mask : list bool) (a : list X) :
  length mask = length a ->
  Forall (fun b => b = true) mask ->
  select mask a = Return a.
Proof.
  intros Hlen Hall. unfold select. rewrite Hlen, Nat.eqb_refl. f_equal.
  revert a Hlen. induction Hall as [|b mask -> _ IH]; intros [|x a] Hlen;
    try discriminate; simpl; [reflexivity|].
  f_equal. apply IH. simpl in Hlen. lia.
Qed.

(** A light curve without a single number.  When all magnitudes are NaN,
    line 707 changes nothing and none of the magnitude tests fires: if the
    heights are in range and the time span is long enough, every sample of
    the run is passed on as visible. *)
Theorem visible_samples_all_nan (sim_results : SimulationResults)
    (starting_lim_mag ending_lim_mag peak_mag_faintest ht_min ht_max
       visibility_time_min : float64) :
  abs_magnitude sim_results <> [] ->
  Forall (fun m => isnan m = true) (abs_magnitude sim_results) ->
  length (brightest_height_arr sim_results) = length (abs_magnitude sim_results) ->
  length (time_arr sim_results) = length (abs_magnitude sim_results) ->
  length (brightest_length_arr sim_results) = length (abs_magnitude sim_results) ->
  Forall (fun h => gt h ht_max = false /\ lt h ht_min = false)
    (brightest_height_arr sim_results) ->
  too_short (time_arr sim_results)
    (repeat true (length (abs_magnitude sim_results))) visibility_time_min
  = Return false ->
  visible_samples sim_results starting_lim_mag ending_lim_mag
    peak_mag_faintest ht_min ht_max visibility_time_min
  = Return (Some (time_arr sim_results, abs_magnitude sim_results,
                  brightest_height_arr sim_results,
                  brightest_length_arr sim_results)).
Proof.
  intros Hne Hnan Hhlen Htlen Hllen Hhts Hshort. unfold visible_samples.
  pose proof (fix_nan_replaces (abs_magnitude sim_results)) as Hfix.
  destruct (abs_magnitude sim_results) as [|m0 rest] eqn:Hmag; [contradiction|].
  destruct Hfix as (mx & mag & _ & -> & Hflen & Hfixed & _ & _ & Hmx & _).
  apply Hmx in Hnan as Hmxnan.
  assert (Hsame : mag = m0 :: rest).
  { apply nth_error_ext. intros i.
    destruct (nth_error (m0 :: rest) i) as [x|] eqn:Hx.
    - rewrite (Hfixed i x Hx).
      assert (Hxn : isnan x = true).
      { apply nth_error_In in Hx.
        apply (proj1 (List.Forall_forall _ _) Hnan). exact Hx. }
      rewrite Hxn. destruct mx, x; try discriminate; reflexivity.
    - apply nth_error_None. apply nth_error_None in Hx. lia. }
  subst mag.
  assert (Hall_nan : forall x, In x (m0 :: rest) -> x = NaN).
  { intros x Hx. apply (proj1 (List.Forall_forall _ _) Hnan) in Hx.
    now destruct x. }
  assert (Hnb : never_bright (m0 :: rest) peak_mag_faintest = Return false).
  { unfold never_bright, amin, reduce.
    assert (Hfold : forall l x, x = NaN -> fold_left minimum l x = NaN).
    { induction l as [|y l IH]; intros x ->; [reflexivity|]. now apply IH. }
    rewrite Hfold by (apply Hall_nan; now left).
    now destruct peak_mag_faintest. }
  rewrite Hnb.
  assert (Hlast : exists final, last_item (m0 :: rest) = Return final).
  { unfold last_item. destruct (rev (m0 :: rest)) eqn:Hrev; [|eauto].
    apply (f_equal (@rev _)) in Hrev. rewrite rev_involutive in Hrev.
    discriminate. }
  destruct Hlast as [final Hlast].
  assert (Hfinal : final = NaN).
  { apply Hall_nan. destruct (last_item_rev _ _ Hlast) as (body & ->).
    apply in_or_app. right. now left. }
  destruct (indices_visible_spec (m0 :: rest) (brightest_height_arr sim_results)
              starting_lim_mag ending_lim_mag ht_min ht_max final Hlast Hhlen)
    as (mask & -> & Hmlen & Hspec).
  assert (Hmask : mask = repeat true (length (m0 :: rest))).
  { apply nth_error_ext. intros i.
    destruct (Nat.ltb_spec i (length (m0 :: rest))) as [Hi|Hi].
    - rewrite (nth_error_repeat true Hi).
      destruct (nth_error (m0 :: rest) i) as [m|] eqn:Hm;
        [|apply nth_error_None in Hm; lia].
      destruct (nth_error (brightest_height_arr sim_results) i) as [h|] eqn:Hh;
        [|apply nth_error_None in Hh; lia].
      rewrite (Hspec i m h Hm Hh). f_equal.
      assert (Hex : forall thr l, (forall x, In x l -> x = NaN) ->
                      existsb (fun x => le x thr) l = false).
      { intros thr l Hl. apply not_true_is_false. intros Hex.
        apply existsb_exists in Hex as (x & Hx & Hle).
        rewrite (Hl x Hx) in Hle. discriminate. }
      rewrite (Hex starting_lim_mag (m0 :: rest) Hall_nan).
      rewrite Hfinal. rewrite (Hall_nan m (nth_error_In _ _ Hm)).
      apply nth_error_In in Hh.
      destruct (proj1 (List.Forall_forall _ _) Hhts h Hh) as [-> ->].
      assert (Hle_nan : forall y, le y NaN = false) by (now intros []).
      assert (Hlt_nan : forall y, lt y NaN = false) by (now intros []).
      unfold gt, ge. rewrite Hle_nan, Hlt_nan. simpl. now rewrite orb_true_r.
    - transitivity (@None bool); [|symmetry]; apply nth_error_None;
        rewrite ?repeat_length; lia. }
  rewrite Hmask. simpl any. simpl negb. cbv iota.
  rewrite Hshort.
  assert (Hsel : forall a : list float64, length a = length (m0 :: rest) ->
            select (repeat true (length (m0 :: rest))) a = Return a).
  { intros a Ha. apply select_all; [rewrite repeat_length; lia|].
    apply List.Forall_forall. intros b Hb. now apply repeat_spec in Hb. }
  now rewrite !Hsel by auto.
Qed.

Lemma indices_visible_spec_witness :
  exists mask,
    indices_visible (abs_magnitude example_run) (brightest_height_arr example_run)
      (Finite 8) (Finite 8) (Finite 70000) (Finite 130000) = Return mask /\
    mask = [false; true; true; true; false].
Proof.
  destruct (indices_visible_spec (abs_magnitude example_run)
              (brightest_height_arr example_run) (Finite 8) (Finite 8)
              (Finite 70000) (Finite 130000) (Finite 9) eq_refl eq_refl)
    as (mask & Hrun & Hlen & Hspec).
  exists mask. split; [exact Hrun|].
  pose proof (Hspec 0%nat _ _ eq_refl eq_refl) as H0.
  pose proof (Hspec 1%nat _ _ eq_refl eq_refl) as H1.
  pose proof (Hspec 2%nat _ _ eq_refl eq_refl) as H2.
  pose proof (Hspec 3%nat _ _ eq_refl eq_refl) as H3.
  pose proof (Hspec 4%nat _ _ eq_refl eq_refl) as H4.
  destruct mask as [|b0 [|b1 [|b2 [|b3 [|b4 [|b5 mask]]]]]]; try discriminate.
  vm_compute in H0, H1, H2, H3, H4. congruence.
Defined.

Lemma visible_samples_sound_witness :
  [Finite 7; Finite 5; Finite 7] <> [] /\
  Forall (fun m => isnan m = true \/
                   (lt m (Finite 8) = true /\ lt m (Finite 8) = true))
    [Finite 7; Finite 5; Finite 7].
Proof.
  destruct (visible_samples_sound example_run (Finite 8) (Finite 8) (Finite 6)
              (Finite 70000) (Finite 130000) (Finite (2 # 10))
              [Finite (1 # 10); Finite (2 # 10); Finite (3 # 10)]
              [Finite 7; Finite 5; Finite 7]
              [Finite 105000; Finite 100000; Finite 95000]
              [Finite 5000; Finite 10000; Finite 15000]
              eq_refl eq_refl eq_refl)
    as (Hne & _ & _ & _ & Hmag & _).
  split; assumption.
Defined.

Lemma visible_samples_never_detected_witness :
  visible_samples example_run (Finite 4) (Finite 8) (Finite 6)
    (Finite 70000) (Finite 130000) (Finite (2 # 10))
  = Return None.
Proof.
  apply visible_samples_never_detected.
  - discriminate.
  - reflexivity.
  - reflexivity.
  - repeat constructor.
Defined.

Lemma visible_samples_all_nan_witness :
  visible_samples
    {| time_arr := [Finite 0; Finite (3 # 10)];
       abs_magnitude := [NaN; NaN];
       brightest_height_arr := [Finite 100000; Finite 99000];
       brightest_length_arr := [Finite 0; Finite 9000] |}
    (Finite 8) (Finite 8) (Finite 6) (Finite 70000) (Finite 130000)
    (Finite (2 # 10))
  = Return (Some ([Finite 0; Finite (3 # 10)], [NaN; NaN],
                  [Finite 100000; Finite 99000], [Finite 0; Finite 9000])).
Proof.
  apply (visible_samples_all_nan
           {| time_arr := [Finite 0; Finite (3 # 10)];
              abs_magnitude := [NaN; NaN];
              brightest_height_arr := [Finite 100000; Finite 99000];
              brightest_length_arr := [Finite 0; Finite 9000] |}).
  - discriminate.
  - repeat constructor.
  - reflexivity.
  - reflexivity.
  - reflexivity.
  - repeat constructor.
  - reflexivity.
Defined.

End VisibilityProofs.

(** ** The tracking delay *)

Module ResamplingProofs.
Import Py GenerateSimulations Resampling NpProofs.

#[local] Open Scope R_scope.












End ResamplingProofs.

(** ** The file name and the folders *)

Module FileNameProofs.
Import FileNames.
Import Lqa.

#[local] Open Scope string_scope.

(** *** Alphabets *)

#[local] Abbreviation DIGITS := "0123456789".
#[local] Abbreviation NUMERIC := "0123456789.-".

Lemma all_in_app (chars s t : string) :
  all_in chars (s +:+ t) = all_in chars s && all_in chars t.
Proof.
  induction s as [|c s IH]; simpl; [reflexivity|].
  rewrite IH. apply andb_assoc.
Qed.

Lemma all_in_weaken (small large s : string) :
  (forall c, in_chars small c = true -> in_chars large c = true) ->
  all_in small s = true -> all_in large s = true.
Proof.
  intros Hsub. induction s as [|c s IH]; cbn; [reflexivity|].
  intros [Hc Hs]%andb_true_iff. rewrite (Hsub c Hc), (IH Hs). reflexivity.
Qed.

Lemma in_chars_sep (chars : string) (c sep : ascii) :
  in_chars chars c = true -> in_chars chars sep = false -> Ascii.eqb c sep = false.
Proof.
  intros Hc Hsep. destruct (Ascii.eqb c sep) eqn:E; [|reflexivity].
  apply Ascii.eqb_eq in E. congruence.
Qed.

Lemma digit_in (n : N) : in_chars DIGITS (digit n) = true.
Proof.
  unfold digit. pose proof (N.mod_upper_bound n 10 ltac:(lia)) as Hlt.
  revert Hlt. generalize (n mod 10)%N. intros d Hlt.
  assert (d = 0 \/ d = 1 \/ d = 2 \/ d = 3 \/ d = 4 \/ d = 5 \/ d = 6
          \/ d = 7 \/ d = 8 \/ d = 9)%N as Hd by lia.
  repeat (destruct Hd as [-> | Hd]; [reflexivity|]). rewrite Hd. reflexivity.
Qed.

Lemma digit_value_digit (n : N) : digit_value (digit n) = Some (n mod 10)%N.
Proof.
  unfold digit. pose proof (N.mod_upper_bound n 10 ltac:(lia)) as Hlt.
  revert Hlt. generalize (n mod 10)%N. intros d Hlt.
  assert (d = 0 \/ d = 1 \/ d = 2 \/ d = 3 \/ d = 4 \/ d = 5 \/ d = 6
          \/ d = 7 \/ d = 8 \/ d = 9)%N as Hd by lia.
  repeat (destruct Hd as [-> | Hd]; [reflexivity|]). rewrite Hd. reflexivity.
Qed.

Lemma decimal_digits_in (fuel : nat) (n : N) :
  all_in DIGITS (decimal_digits fuel n) = true.
Proof.
  revert n. induction fuel as [|fuel IH]; intros n; [reflexivity|].
  cbn [decimal_digits]. destruct (n <? 10)%N.
  - cbn [all_in]. rewrite digit_in. reflexivity.
  - rewrite all_in_app, IH. cbn [all_in]. rewrite digit_in. reflexivity.
Qed.

Lemma decimal_in (n : N) : all_in DIGITS (decimal n) = true.
Proof. apply decimal_digits_in. Qed.

Lemma append_not_empty (s : string) (c : ascii) : s +:+ String c "" <> "".
Proof. destruct s; discriminate. Qed.

Lemma decimal_not_empty (n : N) : decimal n <> "".
Proof.
  unfold decimal. cbn [decimal_digits]. destruct (n <? 10)%N; [discriminate|].
  apply append_not_empty.
Qed.

Lemma fixed_digits_in (width : nat) (n : N) :
  all_in DIGITS (fixed_digits width n) = true.
Proof.
  revert n. induction width as [|width IH]; intros n; [reflexivity|].
  cbn [fixed_digits]. rewrite all_in_app, IH. cbn [all_in].
  rewrite digit_in. reflexivity.
Qed.

Lemma zeros_in (n : nat) : all_in DIGITS (zeros n) = true.
Proof. induction n as [|n IH]; [reflexivity|]. cbn. exact IH. Qed.

Lemma zfill_in (chars : string) (width : nat) (s : string) :
  in_chars chars "0" = true -> all_in chars s = true ->
  all_in chars (zfill width s) = true.
Proof.
  intros H0 Hs. unfold zfill. rewrite all_in_app, Hs, andb_true_r.
  induction (width - String.length s)%nat as [|k IH]; [reflexivity|].
  cbn. rewrite H0. exact IH.
Qed.

Lemma digits_numeric (c : ascii) :
  in_chars DIGITS c = true -> in_chars NUMERIC c = true.
Proof.
  destruct c as [[] [] [] [] [] [] [] []]; vm_compute; congruence.
Qed.

Lemma point_text_in (prec : nat) (scaled : N) :
  all_in NUMERIC (point_text prec scaled) = true.
Proof.
  unfold point_text. rewrite all_in_app. cbn [all_in].
  rewrite (all_in_weaken DIGITS NUMERIC _ digits_numeric (decimal_in _)).
  rewrite (all_in_weaken DIGITS NUMERIC _ digits_numeric (fixed_digits_in _ _)).
  reflexivity.
Qed.

Lemma decimal_numeric (n : N) : all_in NUMERIC (decimal n) = true.
Proof. exact (all_in_weaken DIGITS NUMERIC _ digits_numeric (decimal_in n)). Qed.

Lemma format_d_in (width : nat) (n : Z) :
  all_in NUMERIC (format_d width n) = true.
Proof.
  unfold format_d. destruct (n <? 0)%Z; cbn [all_in];
    rewrite zfill_in; first [reflexivity | apply decimal_numeric].
Qed.

Lemma format_f_in (width prec : nat) (x : Q) :
  all_in NUMERIC (format_f width prec x) = true.
Proof.
  unfold format_f. rewrite all_in_app, zfill_in; auto using point_text_in.
  unfold sign_text. destruct (Qle_bool 0 x); reflexivity.
Qed.

#[local] Abbreviation SCIENTIFIC := "0123456789.-+e".

Lemma numeric_scientific (c : ascii) :
  in_chars NUMERIC c = true -> in_chars SCIENTIFIC c = true.
Proof.
  destruct c as [[] [] [] [] [] [] [] []]; vm_compute; congruence.
Qed.

Lemma format_e_in (prec : nat) (x : Q) :
  all_in SCIENTIFIC (format_e prec x) = true.
Proof.
  unfold format_e.
  destruct (if Qeq_bool x 0 then _ else _) as [scaled e].
  rewrite !all_in_app. cbn [all_in].
  rewrite (all_in_weaken NUMERIC SCIENTIFIC _ numeric_scientific (point_text_in _ _)).
  rewrite zfill_in;
    [| reflexivity
     | apply (all_in_weaken DIGITS SCIENTIFIC);
       [intros c Hc; apply numeric_scientific, digits_numeric, Hc
       | apply decimal_in]].
  assert (all_in SCIENTIFIC (sign_text x) = true) as ->
    by (unfold sign_text; destruct (Qle_bool 0 x); reflexivity).
  destruct (e <? 0)%Z; reflexivity.
Qed.


(** *** Splitting and stripping *)

Lemma split_field (chars : string) (sep : ascii) (field rest : string) :
  all_in chars field = true -> in_chars chars sep = false ->
  split sep (field +:+ String sep rest) = field :: split sep rest.
Proof.
  intros Hfield Hsep. induction field as [|c field IH]; simpl.
  - rewrite Ascii.eqb_refl. reflexivity.
  - simpl in Hfield. apply andb_true_iff in Hfield as [Hc Hfield].
    rewrite (in_chars_sep chars c sep Hc Hsep), (IH Hfield). reflexivity.
Qed.

Lemma split_one (chars : string) (sep : ascii) (field : string) :
  all_in chars field = true -> in_chars chars sep = false ->
  split sep field = [field].
Proof.
  intros Hfield Hsep. induction field as [|c field IH]; simpl; [reflexivity|].
  simpl in Hfield. apply andb_true_iff in Hfield as [Hc Hfield].
  rewrite (in_chars_sep chars c sep Hc Hsep), (IH Hfield). reflexivity.
Qed.

Lemma lstrip_none (kept chars s : string) :
  (forall c, in_chars kept c = true -> in_chars chars c = false) ->
  all_in kept s = true -> lstrip chars s = s.
Proof.
  intros Hdisjoint Hs. destruct s as [|c s]; [reflexivity|].
  simpl in Hs. apply andb_true_iff in Hs as [Hc _].
  simpl. rewrite (Hdisjoint c Hc). reflexivity.
Qed.

Lemma rstrip_none (kept chars s : string) :
  (forall c, in_chars kept c = true -> in_chars chars c = false) ->
  all_in kept s = true -> rstrip chars s = s.
Proof.
  intros Hdisjoint. induction s as [|c s IH]; [reflexivity|].
  simpl. intros [Hc Hs]%andb_true_iff.
  rewrite (IH Hs), (Hdisjoint c Hc). destruct s; reflexivity.
Qed.

Lemma numeric_not_v (c : ascii) :
  in_chars NUMERIC c = true -> in_chars "v" c = false.
Proof.
  destruct c as [[] [] [] [] [] [] [] []]; vm_compute; congruence.
Qed.

Lemma numeric_not_rho (c : ascii) :
  in_chars NUMERIC c = true -> in_chars "rho" c = false.
Proof.
  destruct c as [[] [] [] [] [] [] [] []]; vm_compute; congruence.
Qed.

Lemma strip_v (text : string) :
  all_in NUMERIC text = true -> strip "v" ("v" +:+ text) = text.
Proof.
  intros Htext. unfold strip. simpl lstrip.
  change (in_chars "v" "v") with true. cbv iota.
  change ("" +:+ text) with text.
  rewrite (lstrip_none NUMERIC "v" text numeric_not_v Htext).
  apply (rstrip_none NUMERIC "v" text numeric_not_v Htext).
Qed.

Lemma strip_rho (text : string) :
  all_in NUMERIC text = true -> strip "rho" ("rho" +:+ text) = text.
Proof.
  intros Htext. unfold strip. simpl lstrip.
  change (in_chars "rho" "r") with true.
  change (in_chars "rho" "h") with true.
  change (in_chars "rho" "o") with true. cbv iota.
  change ("" +:+ text) with text.
  rewrite (lstrip_none NUMERIC "rho" text numeric_not_rho Htext).
  apply (rstrip_none NUMERIC "rho" text numeric_not_rho Htext).
Qed.

(** *** Reading digits back *)

Lemma list_ascii_of_string_app (s t : string) :
  list_ascii_of_string (s +:+ t)
  = (list_ascii_of_string s ++ list_ascii_of_string t)%list.
Proof. induction s as [|c s IH]; simpl; [reflexivity|]. rewrite IH. reflexivity. Qed.

Lemma length_app (s t : string) :
  String.length (s +:+ t) = (String.length s + String.length t)%nat.
Proof. induction s as [|c s IH]; simpl; [reflexivity|]. rewrite IH. reflexivity. Qed.

Lemma digits_value_snoc (s : string) (n : N) :
  digits_value (s +:+ String (digit n) "")
  = (a ← digits_value s; Some (10 * a + n mod 10)%N).
Proof.
  unfold digits_value. rewrite list_ascii_of_string_app, fold_left_app.
  simpl. destruct (fold_left _ _ _) as [a|]; simpl; [|reflexivity].
  rewrite digit_value_digit. reflexivity.
Qed.

Lemma digits_value_decimal_digits (fuel : nat) (n : N) :
  (n < 2 ^ N.of_nat fuel)%N -> digits_value (decimal_digits fuel n) = Some n.
Proof.
  revert n. induction fuel as [|fuel IH]; intros n Hn.
  - simpl in Hn. assert (n = 0%N) as -> by lia. reflexivity.
  - cbn [decimal_digits]. destruct (n <? 10)%N eqn:Hsmall.
    + apply N.ltb_lt in Hsmall.
      change (String (digit n) "") with ("" +:+ String (digit n) "").
      rewrite digits_value_snoc. simpl. rewrite N.mod_small by exact Hsmall.
      reflexivity.
    + apply N.ltb_ge in Hsmall. rewrite digits_value_snoc, IH.
      * simpl. f_equal. pose proof (N.div_mod n 10 ltac:(lia)). lia.
      * rewrite Nat2N.inj_succ, N.pow_succ_r' in Hn.
        pose proof (N.div_mod n 10 ltac:(lia)) as Hdiv.
        pose proof (N.mod_upper_bound n 10 ltac:(lia)) as Hmod.
        revert Hn Hdiv Hmod Hsmall.
        generalize (n / 10)%N (n mod 10)%N (2 ^ N.of_nat fuel)%N. lia.
Qed.

Lemma digits_value_decimal (n : N) : digits_value (decimal n) = Some n.
Proof.
  apply digits_value_decimal_digits.
  rewrite Nat2N.inj_succ, N2Nat.id, N.pow_succ_r'.
  pose proof (N.size_gt n). lia.
Qed.

Lemma digits_value_fixed_digits (width : nat) (n : N) :
  digits_value (fixed_digits width n) = Some (n mod 10 ^ N.of_nat width)%N.
Proof.
  revert n. induction width as [|width IH]; intros n.
  - simpl. rewrite N.mod_1_r. reflexivity.
  - cbn [fixed_digits]. rewrite digits_value_snoc, IH. simpl. f_equal.
    rewrite Nat2N.inj_succ, N.pow_succ_r'.
    rewrite (N.Div0.mod_mul_r n 10 (10 ^ N.of_nat width)). lia.
Qed.

Lemma length_fixed_digits (width : nat) (n : N) :
  String.length (fixed_digits width n) = width.
Proof.
  revert n. induction width as [|width IH]; intros n; [reflexivity|].
  cbn [fixed_digits]. rewrite length_app, IH. simpl. lia.
Qed.

Lemma digits_value_zeros (k : nat) (s : string) :
  digits_value (zeros k +:+ s) = digits_value s.
Proof. induction k as [|k IH]; [reflexivity|]. exact IH. Qed.

Lemma digits_value_zfill (width : nat) (s : string) :
  digits_value (zfill width s) = digits_value s.
Proof. apply digits_value_zeros. Qed.



Lemma digit_not_sign (c : ascii) :
  in_chars DIGITS c = true -> Ascii.eqb c "-" = false /\ Ascii.eqb c "+" = false.
Proof.
  destruct c as [[] [] [] [] [] [] [] []]; vm_compute; intuition congruence.
Qed.


(** *** Floors and rounding *)

Lemma Qfloor_eq (x : Q) (n : Z) :
  (inject_Z n <= x)%Q -> (x < inject_Z (n + 1))%Q -> Qfloor x = n.
Proof.
  intros Hlow Hhigh.
  pose proof (Qfloor_le x) as Hle. pose proof (Qlt_floor x) as Hlt.
  assert (n < Qfloor x + 1)%Z
    by (rewrite Zlt_Qlt; eapply Qle_lt_trans; eassumption).
  assert (Qfloor x < n + 1)%Z
    by (rewrite Zlt_Qlt; eapply Qle_lt_trans; eassumption).
  lia.
Qed.

Lemma Qfloor_nonneg (x : Q) : (0 <= x)%Q -> (0 <= Qfloor x)%Z.
Proof. intros Hx. apply (Qfloor_resp_le 0 x Hx). Qed.

Lemma int_of_float_nonneg (x : Q) : (0 <= x)%Q -> int_of_float x = Qfloor x.
Proof.
  intros Hx. unfold int_of_float.
  destruct (Qle_bool 0 x) eqn:E; [reflexivity|].
  apply Qle_bool_iff in Hx. congruence.
Qed.

Lemma absolute_nonneg (x : Q) : (0 <= x)%Q -> absolute x = x.
Proof.
  intros Hx. unfold absolute.
  destruct (Qle_bool 0 x) eqn:E; [reflexivity|].
  apply Qle_bool_iff in Hx. congruence.
Qed.

Lemma sign_text_nonneg (x : Q) : (0 <= x)%Q -> sign_text x = "".
Proof.
  intros Hx. unfold sign_text.
  destruct (Qle_bool 0 x) eqn:E; [reflexivity|].
  apply Qle_bool_iff in Hx. congruence.
Qed.

Lemma round_half_even_cases (y : Q) :
  let f := Qfloor y in
  (round_half_even y = f /\ (y < inject_Z f + (1 # 2))%Q)
  \/ (round_half_even y = (f + 1)%Z /\ (inject_Z f + (1 # 2) < y)%Q)
  \/ (y == inject_Z f + (1 # 2))%Q
     /\ ((round_half_even y = f /\ exists m, f = (2 * m)%Z)
         \/ (round_half_even y = (f + 1)%Z /\ exists m, f = (2 * m + 1)%Z)).
Proof.
  intros f. unfold round_half_even. fold f.
  destruct (Qcompare_spec (y - inject_Z f) (1 # 2)) as [Heq | Hlt | Hgt].
  - right. right. split; [lra|].
    destruct (Z.even f) eqn:Heven.
    + left. split; [reflexivity|]. apply Z.even_spec in Heven. exact Heven.
    + right. split; [reflexivity|].
      assert (Z.odd f = true) as Hodd by (rewrite <- Z.negb_even, Heven; reflexivity).
      apply Z.odd_spec in Hodd. exact Hodd.
  - left. split; [reflexivity | lra].
  - right. left. split; [reflexivity | lra].
Qed.

Lemma round_half_even_nonneg (y : Q) : (0 <= y)%Q -> (0 <= round_half_even y)%Z.
Proof.
  intros Hy. pose proof (Qfloor_nonneg y Hy).
  destruct (round_half_even_cases y) as [[-> _] | [[-> _] | [_ [[-> _] | [-> _]]]]]; lia.
Qed.


Lemma inject_Z_le (a b : Z) : (a <= b)%Z -> (inject_Z a <= inject_Z b)%Q.
Proof. intros H. rewrite <- Zle_Qle. exact H. Qed.

#[local] Ltac in_Q H :=
  apply inject_Z_le in H;
  rewrite ?inject_Z_plus, ?inject_Z_mult in H;
  change (inject_Z 100) with (100 # 1)%Q in H;
  change (inject_Z 99) with (99 # 1)%Q in H;
  change (inject_Z 98) with (98 # 1)%Q in H;
  change (inject_Z 1) with (1 # 1)%Q in H.

(** Rounding to the nearest integer, ties to even, and dropping the last
    two digits is taking the floor of [(y + 1/2) / 100]. *)
Lemma round_half_even_hundreds (y : Q) :
  (round_half_even y / 100)%Z = Qfloor ((y + (1 # 2)) / 100)%Q.
Proof.
  symmetry. set (c := round_half_even y). set (k := (c / 100)%Z).
  pose proof (Z.div_mod c 100 ltac:(lia)) as Hdiv. fold k in Hdiv.
  pose proof (Z.mod_pos_bound c 100 ltac:(lia)) as Hmod.
  assert (100 * k <= c)%Z as Hlow by lia.
  assert (c <= 100 * k + 99)%Z as Hhigh by lia.
  clear Hdiv Hmod.
  pose proof (Qfloor_le y) as Hfloor. pose proof (Qlt_floor y) as Hceil.
  rewrite inject_Z_plus in Hceil. change (inject_Z 1) with (1 # 1)%Q in Hceil.
  apply Qfloor_eq; rewrite ?inject_Z_plus; change (inject_Z 1) with (1 # 1)%Q;
    unfold Qdiv; change (/ 100)%Q with (1 # 100)%Q;
    destruct (round_half_even_cases y)
      as [[Hc Hy] | [[Hc Hy] | [Hy [[Hc [m Hm]] | [Hc [m Hm]]]]]];
    fold c in Hc.
  - rewrite Hc in Hlow. in_Q Hlow. lra.
  - rewrite Hc in Hlow. in_Q Hlow. lra.
  - rewrite Hc in Hlow. in_Q Hlow. lra.
  - rewrite Hc in Hlow. in_Q Hlow. lra.
  - rewrite Hc in Hhigh. in_Q Hhigh. lra.
  - rewrite Hc in Hhigh. in_Q Hhigh. lra.
  - assert (Qfloor y <= 100 * k + 98)%Z as Heven by lia. in_Q Heven. lra.
  - rewrite Hc in Hhigh. in_Q Hhigh. lra.
Qed.



Lemma zfill_not_empty (width : nat) (s : string) : s <> "" -> zfill width s <> "".
Proof.
  intros Hs. unfold zfill. destruct (zeros _); [exact Hs | discriminate].
Qed.


(** *** The fields of the file name *)

#[local] Abbreviation NAME := "erosinvmgh0123456789.-+".

Lemma numeric_name (c : ascii) :
  in_chars NUMERIC c = true -> in_chars NAME c = true.
Proof.
  destruct c as [[] [] [] [] [] [] [] []]; vm_compute; congruence.
Qed.

Lemma scientific_name (c : ascii) :
  in_chars SCIENTIFIC c = true -> in_chars NAME c = true.
Proof.
  destruct c as [[] [] [] [] [] [] [] []]; vm_compute; congruence.
Qed.

Lemma append_assoc (a b c : string) : (a +:+ b) +:+ c = a +:+ (b +:+ c).
Proof.
  induction a as [|x a IH]; [reflexivity|].
  change (String x ((a +:+ b) +:+ c) = String x (a +:+ (b +:+ c))).
  rewrite IH. reflexivity.
Qed.


(** *** The float operations *)

Section Doubles.

Variable double : Q -> Q.
Variable degrees : Q -> Q.

(** What the proofs ask of the rounding [double].  Each holds of the
    doubles: rounding keeps the sign; the whole numbers up to [10^12] are
    doubles; and a number up to [10^12] differs from the double nearest
    to it by at most [2^-53] of itself, which is less than a
    thousandth. *)
Hypothesis double_nonneg : forall x, (0 <= x)%Q -> (0 <= double x)%Q.
Hypothesis double_integer :
  forall x n, (0 <= n <= 1000000000000)%Z ->
    (x == inject_Z n)%Q -> (double x == inject_Z n)%Q.
Hypothesis double_near :
  forall x, (0 <= x)%Q -> (x <= 1000000000000)%Q ->
    (x - (1 # 1000) <= double x)%Q /\ (double x <= x + (1 # 1000))%Q.

(** *** Reading numbers back *)

Lemma float_digits (s : string) (n : N) :
  all_in DIGITS s = true -> s <> "" -> digits_value s = Some n ->
  float double s = Some (double (inject_Z (Z.of_N n))).
Proof.
  intros Hs Hne Hvalue. destruct s as [|c r]; [congruence|].
  pose proof Hs as Hc. simpl in Hc. apply andb_true_iff in Hc as [Hc _].
  destruct (digit_not_sign c Hc) as [Hminus Hplus].
  unfold float. rewrite Hminus, Hplus.
  rewrite (split_one DIGITS "." (String c r) Hs eq_refl).
  simpl String.eqb. rewrite Hvalue. reflexivity.
Qed.

Lemma float_point_text (prec : nat) (scaled : N) :
  float double (point_text prec scaled)
  = Some (double (inject_Z (Z.of_N (scaled / 10 ^ N.of_nat prec))
                  + inject_Z (Z.of_N (scaled mod 10 ^ N.of_nat prec))
                    / inject_Z (10 ^ Z.of_nat prec))%Q).
Proof.
  unfold point_text.
  pose proof (decimal_in (scaled / 10 ^ N.of_nat prec)) as Hwhole.
  pose proof (decimal_not_empty (scaled / 10 ^ N.of_nat prec)) as Hne.
  pose proof (digits_value_decimal (scaled / 10 ^ N.of_nat prec)) as Hvalue.
  destruct (decimal (scaled / 10 ^ N.of_nat prec)) as [|c r]; [congruence|].
  pose proof Hwhole as Hc. simpl in Hc. apply andb_true_iff in Hc as [Hc _].
  destruct (digit_not_sign c Hc) as [Hminus Hplus].
  change (String c r +:+ String "." (fixed_digits prec scaled))
    with (String c (r +:+ String "." (fixed_digits prec scaled))).
  unfold float. rewrite Hminus, Hplus.
  change (String c (r +:+ String "." (fixed_digits prec scaled)))
    with (String c r +:+ String "." (fixed_digits prec scaled)).
  rewrite (split_field DIGITS "." (String c r) _ Hwhole eq_refl).
  rewrite (split_one DIGITS "." _ (fixed_digits_in prec scaled) eq_refl).
  simpl String.eqb. simpl andb. cbv iota.
  rewrite Hvalue, digits_value_fixed_digits, length_fixed_digits.
  reflexivity.
Qed.

(** The whole part of a rounded number with two decimals: the rounding
    does not reach the next whole number. *)
Lemma int_of_double (x : Q) (whole hundredths : Z) :
  (0 <= whole <= 1000000000)%Z -> (0 <= hundredths <= 99)%Z ->
  (x == inject_Z whole + inject_Z hundredths * (1 # 100))%Q ->
  int_of_float (double x) = whole.
Proof using double_nonneg double_integer double_near.
  intros [Hw0 Hw1] [Hh0 Hh1] Hx.
  pose proof (inject_Z_le _ _ Hw0) as Qw0. pose proof (inject_Z_le _ _ Hw1) as Qw1.
  pose proof (inject_Z_le _ _ Hh0) as Qh0. pose proof (inject_Z_le _ _ Hh1) as Qh1.
  change (inject_Z 0) with (0 # 1)%Q in Qw0, Qh0.
  change (inject_Z 1000000000) with (1000000000 # 1)%Q in Qw1.
  change (inject_Z 99) with (99 # 1)%Q in Qh1.
  assert (0 <= x)%Q as Hx0 by lra.
  rewrite (int_of_float_nonneg _ (double_nonneg x Hx0)).
  destruct (Z.eq_dec hundredths 0%Z) as [-> | Hpos].
  - assert (double x == inject_Z whole)%Q as Hexact.
    { apply double_integer; [lia|]. rewrite Hx.
      change (inject_Z 0) with (0 # 1)%Q. lra. }
    apply Qfloor_eq; rewrite ?inject_Z_plus; change (inject_Z 1) with (1 # 1)%Q;
      lra.
  - assert (1 <= hundredths)%Z as Hone by lia.
    apply inject_Z_le in Hone. change (inject_Z 1) with (1 # 1)%Q in Hone.
    destruct (double_near x Hx0 ltac:(lra)) as [Hlow Hhigh].
    apply Qfloor_eq; rewrite ?inject_Z_plus; change (inject_Z 1) with (1 # 1)%Q;
      lra.
Qed.

(** *** The two fields that [runSimulation] reads back *)

Lemma velocity_bucket (v_init : Q) :
  (0 <= v_init)%Q -> (v_init <= 1000000000)%Q ->
  exists vel,
    float double (format_f 0 2 (double (v_init / 1000))) = Some vel
    /\ int_of_float vel = Qfloor (double (v_init / 1000) + (1 # 200))%Q.
Proof using double_nonneg double_integer double_near.
  intros Hv0 Hv1.
  assert (0 <= v_init / 1000)%Q as Hkm0
    by (unfold Qdiv; change (/ 1000)%Q with (1 # 1000)%Q; lra).
  assert (v_init / 1000 <= 1000000)%Q as Hkm1
    by (unfold Qdiv; change (/ 1000)%Q with (1 # 1000)%Q; lra).
  pose proof (double_nonneg _ Hkm0) as Hq0.
  destruct (double_near _ Hkm0 ltac:(lra)) as [_ Hq1].
  set (q := double (v_init / 1000)) in *.
  set (y := (q * inject_Z (10 ^ Z.of_nat 2))%Q).
  assert (y == q * 100)%Q as Hy by reflexivity.
  assert (0 <= y)%Q as Hy0 by lra.
  assert (format_f 0 2 q = point_text 2 (Z.to_N (round_half_even y))) as ->.
  { unfold format_f. rewrite (sign_text_nonneg _ Hq0), (absolute_nonneg _ Hq0).
    reflexivity. }
  rewrite float_point_text. eexists. split; [reflexivity|].
  pose proof (round_half_even_nonneg y Hy0) as Hc0.
  assert (round_half_even y <= 100000002)%Z as Hc1.
  { pose proof (Qfloor_le y) as Hfloor.
    assert (Qfloor y <= 100000001)%Z as Hf.
    { rewrite Zle_Qle. change (inject_Z 100000001) with (100000001 # 1)%Q. lra. }
    destruct (round_half_even_cases y)
      as [[-> _] | [[-> _] | [_ [[-> _] | [-> _]]]]]; lia. }
  pose proof (round_half_even_hundreds y) as Hhundreds.
  set (c := round_half_even y) in *.
  change (10 ^ N.of_nat 2)%N with 100%N.
  change (inject_Z (10 ^ Z.of_nat 2)) with (100 # 1)%Q.
  rewrite (int_of_double _ (Z.of_N (Z.to_N c / 100)) (Z.of_N (Z.to_N c mod 100))).
  - rewrite N2Z.inj_div, Z2N.id by exact Hc0. change (Z.of_N 100) with 100%Z.
    rewrite Hhundreds. apply Qfloor_comp. rewrite Hy.
    unfold Qdiv. change (/ 100)%Q with (1 # 100)%Q. lra.
  - rewrite N2Z.inj_div, Z2N.id by exact Hc0. change (Z.of_N 100) with 100%Z.
    pose proof (Z.div_mod c 100 ltac:(lia)).
    pose proof (Z.mod_pos_bound c 100 ltac:(lia)). lia.
  - pose proof (N.mod_upper_bound (Z.to_N c) 100 ltac:(lia)) as Hfrac.
    revert Hfrac. generalize (Z.to_N c mod 100)%N. lia.
  - unfold Qdiv. change (/ (100 # 1))%Q with (1 # 100)%Q. reflexivity.
Qed.

Lemma density_bucket (rho : Q) :
  (0 <= rho)%Q -> (rho <= 1000000000)%Q ->
  exists dens,
    float double (format_d 4 (int_of_float rho)) = Some dens
    /\ int_of_float (double (dens / 100)) = Qfloor (rho / 100)%Q.
Proof using double_nonneg double_integer double_near.
  intros Hrho0 Hrho1. rewrite (int_of_float_nonneg rho Hrho0).
  pose proof (Qfloor_nonneg rho Hrho0) as Hr0.
  pose proof (Qfloor_le rho) as Hfloor. pose proof (Qlt_floor rho) as Hceil.
  rewrite inject_Z_plus in Hceil. change (inject_Z 1) with (1 # 1)%Q in Hceil.
  assert (Qfloor rho <= 1000000000)%Z as Hr1.
  { rewrite Zle_Qle. change (inject_Z 1000000000) with (1000000000 # 1)%Q. lra. }
  set (r := Qfloor rho) in *.
  unfold format_d. destruct (r <? 0)%Z eqn:Hneg; [apply Z.ltb_lt in Hneg; lia|].
  rewrite (float_digits _ (Z.to_N r)).
  2:{ apply zfill_in; [reflexivity | apply decimal_in]. }
  2:{ apply zfill_not_empty, decimal_not_empty. }
  2:{ rewrite digits_value_zfill. apply digits_value_decimal. }
  eexists. split; [reflexivity|]. rewrite Z2N.id by exact Hr0.
  assert (double (inject_Z r) == inject_Z r)%Q as Hdens
    by (apply double_integer; [lia | reflexivity]).
  pose proof (Z.div_mod r 100 ltac:(lia)) as Hdiv.
  pose proof (Z.mod_pos_bound r 100 ltac:(lia)) as Hmod.
  set (k := (r / 100)%Z) in *. set (j := (r mod 100)%Z) in *.
  assert (inject_Z r == inject_Z k * 100 + inject_Z j)%Q as Hr.
  { rewrite Hdiv, inject_Z_plus, inject_Z_mult.
    change (inject_Z 100) with (100 # 1)%Q. lra. }
  rewrite (int_of_double _ k j).
  - symmetry. pose proof (inject_Z_le _ _ (proj1 Hmod)) as Hj0.
    assert (j <= 99)%Z as Hj1 by lia. apply inject_Z_le in Hj1.
    change (inject_Z 0) with (0 # 1)%Q in Hj0.
    change (inject_Z 99) with (99 # 1)%Q in Hj1.
    apply Qfloor_eq; rewrite ?inject_Z_plus; change (inject_Z 1) with (1 # 1)%Q;
      unfold Qdiv; change (/ 100)%Q with (1 # 100)%Q; lra.
  - lia.
  - lia.
  - unfold Qdiv. change (/ 100)%Q with (1 # 100)%Q. rewrite Hdens, Hr. lra.
Qed.

(** *** The fields of the file name *)

Lemma file_name_fields
    (v_init m_init rho zenith_angle sigma erosion_height_start erosion_coeff
       erosion_mass_index : Q) :
  exists fields,
    split "_" (file_name double degrees v_init m_init rho zenith_angle sigma
                 erosion_height_start erosion_coeff erosion_mass_index)
    = "erosion" :: "sim"
      :: ("v" +:+ format_f 0 2 (double (v_init / 1000)))
      :: ("m" +:+ format_e 2 (double (m_init * 1000)) +:+ "g")
      :: ("rho" +:+ format_d 4 (int_of_float rho))
      :: fields.
Proof.
  unfold file_name.
  set (V := format_f 0 2 (double (v_init / 1000))).
  set (M := format_e 2 (double (m_init * 1000))).
  set (R := format_d 4 (int_of_float rho)).
  match goal with
  | |- context [String.append R ?tail] => set (rest := tail)
  end.
  assert (all_in NAME V = true) as HV
    by (apply (all_in_weaken NUMERIC NAME _ numeric_name), format_f_in).
  assert (all_in NAME M = true) as HM
    by (apply (all_in_weaken SCIENTIFIC NAME _ scientific_name), format_e_in).
  assert (all_in NAME R = true) as HR
    by (apply (all_in_weaken NUMERIC NAME _ numeric_name), format_d_in).
  clearbody V M R.
  assert ("erosion_sim_v" +:+ V +:+ "_m" +:+ M +:+ "g_rho" +:+ R +:+ rest
          = "erosion" +:+ String "_"
              ("sim" +:+ String "_"
                 (("v" +:+ V) +:+ String "_"
                    (("m" +:+ M +:+ "g") +:+ String "_"
                       (("rho" +:+ R) +:+ rest)))))
    as ->.
  { rewrite !append_assoc. reflexivity. }
  subst rest. eexists.
  rewrite (split_field NAME "_" "erosion" _ eq_refl eq_refl).
  rewrite (split_field NAME "_" "sim" _ eq_refl eq_refl).
  rewrite (split_field NAME "_" ("v" +:+ V) _); [|simpl; exact HV|reflexivity].
  rewrite (split_field NAME "_" ("m" +:+ M +:+ "g") _);
    [|simpl; rewrite !all_in_app, HM; reflexivity|reflexivity].
  change ("_z" +:+ ?x) with (String "_" ("z" +:+ x)).
  rewrite (split_field NAME "_" ("rho" +:+ R) _); [|simpl; exact HR|reflexivity].
  reflexivity.
Qed.

(** The folders [runSimulation] derives from a file name built by
    [__init__], for a velocity and a density between 0 and [10^9].  The
    velocity folder is numbered [floor(q + 1/200)], where [q] is the
    float quotient [v_init / 1000]: the whole part of the velocity in
    km/s after it was rounded to two decimals for the file name.  This
    number [k] is not the nearest whole number of km/s: [v_init] lies
    between [1000 k - 6] and [1000 k + 996].  The density folder is
    numbered [100 * floor(rho / 100)]. *)
Theorem runSimulation_folders_buckets
    (v_init m_init rho zenith_angle sigma erosion_height_start erosion_coeff
       erosion_mass_index : Q) :
  (0 <= v_init)%Q -> (v_init <= 1000000000)%Q ->
  (0 <= rho)%Q -> (rho <= 1000000000)%Q ->
  runSimulation_folders double
    (file_name double degrees v_init m_init rho zenith_angle sigma
       erosion_height_start erosion_coeff erosion_mass_index)
  = Some ("v" +:+ format_d 2 (Qfloor (double (v_init / 1000) + (1 # 200))%Q),
          "rho" +:+ format_d 4 (100 * Qfloor (rho / 100)%Q))
  /\ (inject_Z (Qfloor (double (v_init / 1000) + (1 # 200))) * 1000 - 6
      <= v_init)%Q
  /\ (v_init
      < inject_Z (Qfloor (double (v_init / 1000) + (1 # 200))) * 1000 + 996)%Q.
Proof using double_nonneg double_integer double_near.
  intros Hv0 Hv1 Hrho0 Hrho1. split.
  - unfold runSimulation_folders.
    destruct (file_name_fields v_init m_init rho zenith_angle sigma
                erosion_height_start erosion_coeff erosion_mass_index)
      as [fields ->].
    destruct (velocity_bucket v_init Hv0 Hv1) as (vel & Hvel & Hbucket).
    destruct (density_bucket rho Hrho0 Hrho1) as (dens & Hdens & Hhundreds).
    cbn [nth_error mbind option_bind].
    rewrite (strip_v _ (format_f_in 0 2 _)), Hvel. cbn [mbind option_bind].
    rewrite (strip_rho _ (format_d_in 4 _)), Hdens. cbn [mbind option_bind].
    rewrite Hbucket, Hhundreds. reflexivity.
  - assert (0 <= v_init / 1000)%Q as Hkm0
      by (unfold Qdiv; change (/ 1000)%Q with (1 # 1000)%Q; lra).
    destruct (double_near (v_init / 1000) Hkm0) as [Hlow Hhigh].
    { unfold Qdiv; change (/ 1000)%Q with (1 # 1000)%Q; lra. }
    pose proof (Qfloor_le (double (v_init / 1000) + (1 # 200))) as Hfloor.
    pose proof (Qlt_floor (double (v_init / 1000) + (1 # 200))) as Hceil.
    rewrite inject_Z_plus in Hceil. change (inject_Z 1) with (1 # 1)%Q in Hceil.
    unfold Qdiv in Hlow, Hhigh.
    change (/ 1000)%Q with (1 # 1000)%Q in Hlow, Hhigh.
    revert Hfloor Hceil Hlow Hhigh. unfold Qdiv.
    change (/ 1000)%Q with (1 # 1000)%Q.
    generalize (double (v_init * (1 # 1000))).
    intros q. generalize (inject_Z (Qfloor (q + (1 # 200)))). intros k. 
    intros. split; lra.
Qed.

End Doubles.

(** *** [binary64] is such a rounding *)

Lemma pow2_pos (e : Z) : (0 < pow2 e)%Q.
Proof.
  unfold pow2. destruct (Z.leb_spec 0 e) as [He | He].
  - change 0%Q with (inject_Z 0). rewrite <- Zlt_Qlt.
    apply Z.pow_pos_nonneg; lia.
  - reflexivity.
Qed.

Lemma Zpos_to_pos_pow2 (n : Z) : (0 <= n)%Z -> Zpos (Z.to_pos (2 ^ n)) = (2 ^ n)%Z.
Proof. intros Hn. apply Z2Pos.id. apply Z.pow_pos_nonneg; lia. Qed.

Lemma pow2_shift (e : Z) : (pow2 (e - 52) * inject_Z (2 ^ 52) == pow2 e)%Q.
Proof.
  unfold pow2.
  destruct (Z.leb_spec 0 (e - 52)) as [Hhigh | Hhigh];
    destruct (Z.leb_spec 0 e) as [He | He]; try lia.
  - rewrite <- inject_Z_mult, <- Z.pow_add_r by lia.
    replace (e - 52 + 52)%Z with e by lia. reflexivity.
  - unfold Qeq, Qmult, inject_Z. cbn [Qnum Qden].
    rewrite Pos2Z.inj_mul, Zpos_to_pos_pow2 by lia.
    replace (2 ^ 52)%Z with (2 ^ e * 2 ^ (- (e - 52)))%Z
      by (rewrite <- Z.pow_add_r by lia; f_equal; lia).
    change (Z.pos 1) with 1%Z. ring.
  - unfold Qeq, Qmult, inject_Z. cbn [Qnum Qden].
    rewrite Pos2Z.inj_mul, !Zpos_to_pos_pow2 by lia.
    replace (2 ^ (- (e - 52)))%Z with (2 ^ 52 * 2 ^ (- e))%Z
      by (rewrite <- Z.pow_add_r by lia; f_equal; lia).
    change (Z.pos 1) with 1%Z. ring.
Qed.

Lemma log2_floor_le (x : Q) : (0 < x)%Q -> (pow2 (log2_floor x) <= x)%Q.
Proof.
  intros Hx. unfold log2_floor.
  destruct (Qle_bool _ x) eqn:Htest; [now apply Qle_bool_iff|]. clear Htest.
  destruct x as [a b]. unfold Qlt in Hx. cbn [Qnum Qden] in *.
  assert (0 < a)%Z as Ha by lia.
  destruct (Z.log2_spec a Ha) as [Hla _].
  destruct (Z.log2_spec (Z.pos b) ltac:(lia)) as [_ Hlb].
  pose proof (Z.log2_nonneg a) as Hla0.
  pose proof (Z.log2_nonneg (Z.pos b)) as Hlb0.
  set (la := Z.log2 a) in *. set (lb := Z.log2 (Z.pos b)) in *.
  unfold pow2. destruct (Z.leb_spec 0 (la - lb - 1)) as [He | He].
  - unfold Qle, inject_Z. cbn [Qnum Qden].
    assert (2 ^ (la - lb - 1) * 2 ^ Z.succ lb = 2 ^ la)%Z as Hsplit
      by (rewrite <- Z.pow_add_r by lia; f_equal; lia).
    assert (0 < 2 ^ (la - lb - 1))%Z by (apply Z.pow_pos_nonneg; lia).
    nia.
  - unfold Qle. cbn [Qnum Qden]. rewrite Zpos_to_pos_pow2 by lia.
    assert (2 ^ la * 2 ^ (- (la - lb - 1)) = 2 ^ Z.succ lb)%Z as Hsplit
      by (rewrite <- Z.pow_add_r by lia; f_equal; lia).
    assert (0 < 2 ^ (- (la - lb - 1)))%Z by (apply Z.pow_pos_nonneg; lia).
    nia.
Qed.

Lemma round_half_even_near (y : Q) :
  (y - (1 # 2) <= inject_Z (round_half_even y))%Q
  /\ (inject_Z (round_half_even y) <= y + (1 # 2))%Q.
Proof.
  pose proof (Qfloor_le y) as Hfloor. pose proof (Qlt_floor y) as Hceil.
  rewrite inject_Z_plus in Hceil. change (inject_Z 1) with (1 # 1)%Q in Hceil.
  destruct (round_half_even_cases y)
    as [[-> Hy] | [[-> Hy] | [Hy [[-> _] | [-> _]]]]];
    rewrite ?inject_Z_plus; change (inject_Z 1) with (1 # 1)%Q; split; lra.
Qed.

Lemma round_half_even_integer (y : Q) (m : Z) :
  (y == inject_Z m)%Q -> round_half_even y = m.
Proof.
  intros Hy. unfold round_half_even.
  assert (Qfloor y = m) as -> by (rewrite Hy; apply Qfloor_Z).
  assert ((y - inject_Z m ?= 1 # 2)%Q = Lt) as ->; [|reflexivity].
  apply Qlt_alt. rewrite Hy. unfold Qminus. rewrite Qplus_opp_r. reflexivity.
Qed.

(** The value of [binary64] on a positive number. *)
Lemma binary64_positive (x : Q) :
  (0 < x)%Q ->
  binary64 x
  = (inject_Z (round_half_even (x / pow2 (log2_floor x - 52)))
     * pow2 (log2_floor x - 52))%Q.
Proof.
  intros Hx. unfold binary64.
  destruct (Qeq_bool x 0) eqn:Hzero.
  { apply Qeq_bool_iff in Hzero. lra. }
  assert (0 <= x)%Q as Hx0 by lra.
  rewrite (absolute_nonneg x Hx0).
  destruct (Qle_bool 0 x) eqn:Hsign; [reflexivity|].
  apply Qle_bool_iff in Hx0. congruence.
Qed.

Lemma binary64_zero (x : Q) : (x == 0)%Q -> binary64 x = 0%Q.
Proof.
  intros Hx. unfold binary64. apply Qeq_bool_iff in Hx. now rewrite Hx.
Qed.

Lemma binary64_nonneg (x : Q) : (0 <= x)%Q -> (0 <= binary64 x)%Q.
Proof.
  intros Hx. destruct (Qeq_dec x 0) as [Hzero | Hpos].
  - rewrite (binary64_zero x Hzero). lra.
  - assert (0 < x)%Q as Hlt by (apply Qle_lteq in Hx as [H | H]; [exact H | symmetry in H; contradiction]).
    rewrite (binary64_positive x Hlt).
    pose proof (pow2_pos (log2_floor x - 52)) as Hulp.
    set (ulp := pow2 (log2_floor x - 52)) in *.
    assert (0 <= x / ulp)%Q as Hy
      by (apply Qle_shift_div_l; [exact Hulp | lra]).
    pose proof (round_half_even_nonneg _ Hy) as Hc.
    apply inject_Z_le in Hc. change (inject_Z 0) with (0 # 1)%Q in Hc.
    nra.
Qed.

Lemma binary64_near (x : Q) :
  (0 <= x)%Q -> (x <= 1000000000000)%Q ->
  (x - (1 # 1000) <= binary64 x)%Q /\ (binary64 x <= x + (1 # 1000))%Q.
Proof.
  intros Hx Hbound. destruct (Qeq_dec x 0) as [Hzero | Hpos].
  - rewrite (binary64_zero x Hzero). split; lra.
  - assert (0 < x)%Q as Hlt by (apply Qle_lteq in Hx as [H | H]; [exact H | symmetry in H; contradiction]).
    rewrite (binary64_positive x Hlt).
    pose proof (pow2_pos (log2_floor x - 52)) as Hulp.
    pose proof (pow2_shift (log2_floor x)) as Hshift.
    pose proof (log2_floor_le x Hlt) as Hlow.
    change (inject_Z (2 ^ 52)) with (4503599627370496 # 1)%Q in Hshift.
    set (ulp := pow2 (log2_floor x - 52)) in *.
    assert (x / ulp * ulp == x)%Q as Hquot by (field; lra).
    destruct (round_half_even_near (x / ulp)) as [Hdown Hup].
    set (y := (x / ulp)%Q) in *.
    set (c := inject_Z (round_half_even y)) in *.
    clearbody c y ulp. split; nra.
Qed.

Lemma binary64_integer (x : Q) (n : Z) :
  (0 <= n <= 1000000000000)%Z ->
  (x == inject_Z n)%Q -> (binary64 x == inject_Z n)%Q.
Proof.
  intros [Hn0 Hn1] Hx.
  destruct (Z.eq_dec n 0%Z) as [-> | Hpos].
  - rewrite (binary64_zero x Hx). reflexivity.
  - assert (1 <= n)%Z as Hone by lia.
    apply inject_Z_le in Hone, Hn1.
    change (inject_Z 1) with (1 # 1)%Q in Hone.
    change (inject_Z 1000000000000) with (1000000000000 # 1)%Q in Hn1.
    assert (0 < x)%Q as Hlt by lra.
    rewrite (binary64_positive x Hlt).
    pose proof (log2_floor_le x Hlt) as Hlow.
    set (e := log2_floor x) in *.
    assert (e < 40)%Z as He.
    { destruct (Z.lt_ge_cases e 40) as [H | H]; [exact H | exfalso].
      unfold pow2 in Hlow. destruct (Z.leb_spec 0 e); [|lia].
      pose proof (Z.pow_le_mono_r 2 40 e ltac:(lia) H) as Hpow.
      apply inject_Z_le in Hpow.
      change (inject_Z (2 ^ 40)) with (1099511627776 # 1)%Q in Hpow. lra. }
    unfold pow2. destruct (Z.leb_spec 0 (e - 52)) as [H | _]; [lia|].
    set (scale := (2 ^ (- (e - 52)))%Z).
    assert (0 < scale)%Z as Hscale by (apply Z.pow_pos_nonneg; lia).
    clearbody scale.
    assert (x / (1 # Z.to_pos scale) == inject_Z (n * scale))%Q as Hy.
    { rewrite Hx, inject_Z_mult. unfold Qdiv, Qinv. cbn [Qnum Qden].
      unfold Qeq, Qmult, inject_Z. cbn [Qnum Qden].
      rewrite Z2Pos.id by exact Hscale. reflexivity. }
    rewrite (round_half_even_integer _ _ Hy), inject_Z_mult.
    unfold Qeq, Qmult, inject_Z. cbn [Qnum Qden].
    rewrite Pos2Z.inj_mul, Z2Pos.id by exact Hscale.
    change (Z.pos (1 * 1)) with 1%Z. ring.
Qed.

Lemma runSimulation_folders_buckets_witness :
  runSimulation_folders binary64
    (file_name binary64 (fun zenith_angle => binary64 (zenith_angle * 57))
       32995 (1 # 100000) 2399 (7 # 10) (2 # 100000000) 101234
       (3 # 10000000) 2)
  = Some ("v32", "rho2300").
Proof.
  apply (runSimulation_folders_buckets binary64
           (fun zenith_angle => binary64 (zenith_angle * 57))
           binary64_nonneg binary64_integer binary64_near
           32995 (1 # 100000) 2399 (7 # 10) (2 # 100000000) 101234
           (3 # 10000000) 2);
    unfold Qle; simpl; lia.
Defined.

End FileNameProofs.
